(** * Mechanism manager of the virtual-fixtures guidance layer

    A shallow embedding of the blending tick ([MechanismManager::Update]),
    the activation automaton ([VirtualMechanismAutom]), the interface
    configuration ([MechanismManagerInterface::ReadConfig]) and the toolbox
    helpers ([SharedData], [Delete], [PushBack], [CropData]), followed by the
    properties established about them.

    Numbers.  A C++ [double] is modelled by [Double.double]: a real number
    or one of the three IEEE-754 specials (the two infinities and NaN).
    Arithmetic on finite values is exact (rounding, overflow, underflow and
    the sign of zero are not modelled); the specials follow IEEE-754, so a
    division by zero is visible in the model instead of being absorbed by a
    convention.

    Failures.  [assert], an index outside a container, an uncaught C++
    exception and a function that ends without [return] are the four ways
    the embedded code can fail; the [exec] monad records which one
    happened.  An [assert] is modelled as it behaves when it is compiled
    in. *)

From Stdlib Require Import Reals Lra ZArith List Bool String.
From stdpp Require Import base list.
Import ListNotations.

(** ** Failure monad *)

Inductive fault : Type :=
| AssertFail   (* an assert(...) does not hold *)
| OutOfRange   (* operator[] / operator() outside the container *)
| Exception    (* a C++ exception leaves the function *)
| NoReturn.    (* control reaches the end of a non-void function *)

Inductive exec (A : Type) : Type :=
| Ok (a : A)
| Fail (f : fault).
Arguments Ok {A} a.
Arguments Fail {A} f.

#[global] Instance exec_ret : MRet exec := fun _ a => Ok a.
#[global] Instance exec_bind : MBind exec := fun _ _ k m =>
  match m with
  | Ok a => k a
  | Fail f => Fail f
  end.

Definition assert (b : bool) : exec unit :=
  if b then Ok tt else Fail AssertFail.

(** [for (int i = i0; i < i0 + n; i++) body] over an explicit state. *)
Fixpoint for_loop {St : Type} (body : nat -> St -> exec St)
         (i n : nat) (s : St) : exec St :=
  match n with
  | O => Ok s
  | S n' => s' ← body i s; for_loop body (S i) n' s'
  end.

(** Indexed read and write of a [std::vector] / Eigen vector. *)
Definition vget {A} (v : list A) (i : nat) : exec A :=
  match v !! i with
  | Some x => Ok x
  | None => Fail OutOfRange
  end.

Definition vset {A} (i : nat) (x : A) (v : list A) : exec (list A) :=
  if decide (i < length v)%nat then Ok (<[i:=x]> v) else Fail OutOfRange.

(** ** Doubles *)

Module Double.

Local Open Scope R_scope.

Inductive double : Type :=
| Fin (r : R)
| PInf
| NInf
| NaN.

Definition Rltb (a b : R) : bool := if Rlt_dec a b then true else false.
Definition Rleb (a b : R) : bool := if Rle_dec a b then true else false.
Definition Reqb (a b : R) : bool := if Req_dec_T a b then true else false.

(** An infinity of sign [s] ([true] is +) multiplied by the finite [r]. *)
Definition inf_times (s : bool) (r : R) : double :=
  if Reqb r 0 then NaN
  else if Rltb 0 r then (if s then PInf else NInf)
       else (if s then NInf else PInf).

Definition dneg (a : double) : double :=
  match a with
  | Fin r => Fin (- r)
  | PInf => NInf
  | NInf => PInf
  | NaN => NaN
  end.

Definition dadd (a b : double) : double :=
  match a, b with
  | NaN, _ | _, NaN => NaN
  | Fin x, Fin y => Fin (x + y)
  | PInf, NInf | NInf, PInf => NaN
  | PInf, _ | _, PInf => PInf
  | NInf, _ | _, NInf => NInf
  end.

Definition dsub (a b : double) : double := dadd a (dneg b).

Definition dmul (a b : double) : double :=
  match a, b with
  | NaN, _ | _, NaN => NaN
  | Fin x, Fin y => Fin (x * y)
  | PInf, Fin y | Fin y, PInf => inf_times true y
  | NInf, Fin y | Fin y, NInf => inf_times false y
  | PInf, PInf | NInf, NInf => PInf
  | PInf, NInf | NInf, PInf => NInf
  end.

Definition ddiv (a b : double) : double :=
  match a, b with
  | NaN, _ | _, NaN => NaN
  | Fin x, Fin y =>
      if Reqb y 0
      then (if Reqb x 0 then NaN else if Rltb 0 x then PInf else NInf)
      else Fin (x / y)
  | Fin _, (PInf | NInf) => Fin 0
  | PInf, Fin y => if Rltb y 0 then NInf else PInf
  | NInf, Fin y => if Rltb y 0 then PInf else NInf
  | (PInf | NInf), (PInf | NInf) => NaN
  end.

(** [std::exp] and [std::sqrt].  The exponential of a finite number is
    the exact one, which is never 0, while [std::exp] returns 0 below
    about -745: the properties below bound an exponential by [0 <= ] and
    not by [0 < ]. *)
Definition dexp (a : double) : double :=
  match a with
  | Fin r => Fin (exp r)
  | PInf => PInf
  | NInf => Fin 0
  | NaN => NaN
  end.

Definition dsqrt (a : double) : double :=
  match a with
  | Fin r => if Rltb r 0 then NaN else Fin (sqrt r)
  | PInf => PInf
  | NInf | NaN => NaN
  end.

(** Comparisons: every comparison with NaN is false. *)
Definition dlt (a b : double) : bool :=
  match a, b with
  | NaN, _ | _, NaN => false
  | Fin x, Fin y => Rltb x y
  | NInf, (Fin _ | PInf) => true
  | Fin _, PInf => true
  | _, _ => false
  end.

Definition dle (a b : double) : bool :=
  match a, b with
  | NaN, _ | _, NaN => false
  | Fin x, Fin y => Rleb x y
  | NInf, _ => true
  | _, PInf => true
  | _, _ => false
  end.

Definition dgt (a b : double) : bool := dlt b a.
Definition dge (a b : double) : bool := dle b a.

(** Conversion of an [int]. *)
Definition of_int (z : Z) : double := Fin (IZR z).
Definition of_nat (n : nat) : double := Fin (INR n).

End Double.
Export Double.

(** ** Eigen containers *)

Module Eigen.

(** [Eigen::VectorXd]: a resizable column of doubles. *)
Abbreviation VectorXd := (list double).

(** [v.fill(x)] on a vector of size [n]. *)
Definition fill (n : nat) (x : double) : VectorXd := replicate n x.

(** Coefficient-wise [a + b], [a - b] and the product [s * v] with a
    scalar.  Eigen requires both operands of [+] and [-] to have the same
    size; the callers below guarantee it by their own asserts. *)
Definition vadd (a b : VectorXd) : VectorXd := zip_with dadd a b.
Definition vsub (a b : VectorXd) : VectorXd := zip_with dsub a b.
Definition svmul (s : double) (v : VectorXd) : VectorXd := dmul s <$> v.

(** [v.sum()]: 0 for the empty vector, else the coefficients added up
    starting from the first one. *)
Definition vsum (v : VectorXd) : double :=
  match v with
  | [] => Fin 0
  | x :: v' => foldl dadd x v'
  end.

(** [v.norm()]: the Euclidean norm. *)
Definition squaredNorm (v : VectorXd) : double := vsum ((fun x => dmul x x) <$> v).
Definition norm (v : VectorXd) : double := dsqrt (squaredNorm v).

(** [Eigen::MatrixXd], kept row by row; the column count survives a
    matrix without rows. *)
Record MatrixXd : Type := mkMatrix { mrows : list VectorXd; mcols : nat }.

Definition rows (m : MatrixXd) : nat := length (mrows m).

End Eigen.
Export Eigen.

(** ** toolbox/utilities.h *)

Module tool_box.

(** *** SharedData *)

(** [boost::recursive_mutex]: the owning thread and how often it locked. *)
Definition thread_id : Type := nat.

Record recursive_mutex : Type := mkMutex { owner : option thread_id; depth : nat }.

Definition unlocked : recursive_mutex := mkMutex None 0.

(** [m.try_lock()] called by thread [t]: succeeds when the mutex is free
    or already owned by [t] (the mutex is recursive). *)
Definition try_lock (t : thread_id) (m : recursive_mutex) : bool * recursive_mutex :=
  match owner m with
  | None => (true, mkMutex (Some t) 1)
  | Some o => if Nat.eqb o t then (true, mkMutex (Some o) (S (depth m)))
              else (false, m)
  end.

(** [m.unlock()] by the owner. *)
Definition unlock (m : recursive_mutex) : recursive_mutex :=
  match depth m with
  | S (S d) => mkMutex (owner m) (S d)
  | _ => unlocked
  end.

Record SharedData (T : Type) : Type := mkShared { mtx_ : recursive_mutex; obj_ : T }.
Arguments mkShared {T} mtx_ obj_.
Arguments mtx_ {T} s.
Arguments obj_ {T} s.

(** [SharedData()]: a free mutex and a default-constructed object. *)
Definition SharedData_new {T} (dflt : T) : SharedData T := mkShared unlocked dflt.

(** [WriteTryLock]: the guard is constructed with [defer_lock] and never
    owns the mutex; the mutex itself is locked with [mtx_.try_lock()] and
    no statement unlocks it. *)
Definition WriteTryLock {T} (t : thread_id) (obj : T) (sd : SharedData T) : SharedData T :=
  let '(ok, m) := try_lock t (mtx_ sd) in
  if ok then mkShared m obj else mkShared m (obj_ sd).

(** [ReadTryLock]: when [guard.try_lock()] succeeds the object is returned
    and the guard's destructor unlocks; otherwise control reaches the
    closing brace of a function returning [T&]. *)
Definition ReadTryLock {T} (t : thread_id) (sd : SharedData T) : exec T * SharedData T :=
  let '(ok, m) := try_lock t (mtx_ sd) in
  if ok then (Ok (obj_ sd), mkShared (unlock m) (obj_ sd))
  else (Fail NoReturn, mkShared m (obj_ sd)).

(** *** Eigen containers manipulation *)

Section VectorOps.
Context {A : Type}.

(** [vect.segment(idx,n) = vect.tail(n)]: coefficient [j] of the tail,
    which starts at [size - n], is copied to [idx + j], in increasing [j],
    inside the same storage. *)
Definition copy_tail_to_segment (idx n : nat) (vect : list A) : exec (list A) :=
  let size := length vect in
  for_loop (fun j v => x ← vget v (size - n + j); vset (idx + j) x v) 0 n vect.

(** [Delete(idx, vect)].  Eigen's block constructors assert that
    [segment(idx,n)] and [tail(n)] lie inside the vector, and
    [conservativeResize] that the new size is not negative. *)
Definition Delete (idx : Z) (vect : list A) : exec (list A) :=
  let size := Z.of_nat (length vect) in
  let n := (size - idx - 1)%Z in
  _ ← assert ((0 <=? idx)%Z && (0 <=? n)%Z && (idx + n <=? size)%Z);
  v ← copy_tail_to_segment (Z.to_nat idx) (Z.to_nat n) vect;
  _ ← assert (0 <=? size - 1)%Z;
  Ok (take (Z.to_nat (size - 1)) v).

(** [PushBack(value, vect)]: [conservativeResize(n+1)] keeps the [n] old
    coefficients and the new last one is then written with [value]. *)
Definition PushBack (value : A) (vect : list A) : list A :=
  vect ++ [value].

End VectorOps.

(** [PushBack(vect, mat)]: appends a row, after asserting its width. *)
Definition PushBack_row (vect : VectorXd) (mat : MatrixXd) : exec MatrixXd :=
  _ ← assert (Nat.eqb (length vect) (mcols mat));
  Ok (mkMatrix (PushBack vect (mrows mat)) (mcols mat)).

(** The test of [CropData] on two consecutive rows. *)
Definition moved (dt dist_min : double) (row_i row_next : VectorXd) : bool :=
  dgt (norm (vsub row_next row_i)) (dmul dt dist_min).

(** [CropData(data, dt, dist_min)]: the result is the returned flag and
    the new content of [data]. *)
Definition CropData (data : MatrixXd) (dt dist_min : double) : exec (bool * MatrixXd) :=
  let data_tmp := data in
  let data0 := mkMatrix [] (mcols data_tmp) in
  data' ← for_loop
            (fun i d =>
               row_next ← vget (mrows data_tmp) (i + 1);
               row_i ← vget (mrows data_tmp) i;
               if moved dt dist_min row_i row_next
               then PushBack_row row_i d
               else Ok d)
            0 (rows data_tmp - 1) data0;
  if Nat.eqb (rows data') 0 then Ok (false, data') else Ok (true, data').

(** Default arguments of [CropData]. *)
Definition CropData_dt_default : double := Fin (1 / 10).
Definition CropData_dist_min_default : double := Fin (1 / 100).

End tool_box.

(** ** mechanism_manager *)

Module mechanism_manager.

(** *** VirtualMechanismAutom *)

Inductive state_t : Type := MANUAL | PREAUTO | AUTO.

Record VirtualMechanismAutom : Type := mkAutom {
  phase_dot_preauto_th_ : double;
  phase_dot_th_ : double;
  state_ : state_t;
  loopCnt : Z
}.

Definition VirtualMechanismAutom_new (phase_dot_preauto_th phase_dot_th : double)
  : exec VirtualMechanismAutom :=
  _ ← assert (dgt phase_dot_th (Fin 0));
  _ ← assert (dgt phase_dot_preauto_th phase_dot_th);
  Ok (mkAutom phase_dot_preauto_th phase_dot_th MANUAL 0).

Definition set_state (st : state_t) (a : VirtualMechanismAutom) : VirtualMechanismAutom :=
  mkAutom (phase_dot_preauto_th_ a) (phase_dot_th_ a) st (loopCnt a).

(** [Step]: the source selects the three-state machine with [if(true)];
    the two-state version is its [else] branch. *)
Definition Step (phase_dot phase_dot_ref : double) (collision_detected : bool)
           (a : VirtualMechanismAutom) : VirtualMechanismAutom :=
  if true then
    match state_ a with
    | MANUAL =>
        if dge phase_dot (phase_dot_preauto_th_ a) then set_state PREAUTO a else a
    | PREAUTO =>
        if dle phase_dot (dadd phase_dot_ref (phase_dot_th_ a)) then set_state AUTO a else a
    | AUTO =>
        if collision_detected then set_state MANUAL a else a
    end
  else
    if dle phase_dot (dadd phase_dot_ref (phase_dot_th_ a))
       && dge phase_dot (dsub phase_dot_ref (phase_dot_th_ a))
    then set_state AUTO a
    else set_state MANUAL a.

(** [GetState]: the flag handed to [setActive], and the call counter
    (the console output every 1000 calls is not modelled). *)
Definition GetState (a : VirtualMechanismAutom) : bool * VirtualMechanismAutom :=
  let activate_vm :=
    match state_ a with
    | MANUAL => false
    | PREAUTO => false
    | AUTO => true
    end in
  (activate_vm,
   mkAutom (phase_dot_preauto_th_ a) (phase_dot_th_ a) (state_ a) (loopCnt a + 1)).

(** One input of [Step]. *)
Record step_input : Type := mkInput {
  in_phase_dot : double;
  in_phase_dot_ref : double;
  in_collision_detected : bool
}.

Definition Step_in (a : VirtualMechanismAutom) (i : step_input) : VirtualMechanismAutom :=
  Step (in_phase_dot i) (in_phase_dot_ref i) (in_collision_detected i) a.

(** The automaton after a sequence of calls of [Step]. *)
Definition run (a : VirtualMechanismAutom) (ins : list step_input) : VirtualMechanismAutom :=
  foldl Step_in a ins.

(** *** The virtual mechanism (curve) interface

    The class [virtual_mechanism_gmr::VirtualMechanismGmr] lives in another
    package; the manager uses it through the member functions below.
    The gains [getK] and [getB] are scalars. *)

Class VirtualMechanism (vm_t : Type) : Type := {
  Init : vm_t -> vm_t;
  setWeightedDist : bool -> vm_t -> vm_t;
  moveForward : vm_t -> vm_t;
  moveBackward : vm_t -> vm_t;
  setActive : bool -> vm_t -> vm_t;
  vm_Update : VectorXd -> VectorXd -> double -> vm_t -> vm_t;
  getProbability : vm_t -> VectorXd -> double;
  getDistance : vm_t -> VectorXd -> double;
  getPhase : vm_t -> double;
  getState : vm_t -> VectorXd;
  getStateDot : vm_t -> VectorXd;
  getK : vm_t -> double;
  getB : vm_t -> double
}.

Inductive prob_mode_t : Type := HARD | POTENTIAL | SOFT.

(** *** MechanismManager *)

(** The content of [cfg.yml] as [ReadConfig] converts it.  A sequence is
    kept entry by entry, for the indices below [node.size()]: an entry is
    [None] when [as<T>()] throws on it; a key that is absent or holds no
    sequence gives the empty list.  [cfg_prob_mode] is [None] when the
    key is absent or does not hold a scalar, and [as<std::string>()]
    throws.  An entry of [cfg_models] that converts to a name holds what
    building the mechanism from the model file of that name gives: the
    mechanism, or the failure of the loader.  The loader
    ([ModelParametersGMR::loadGMMFromMatrix], [FunctionApproximatorGMR]
    and the constructor of the mechanism) lives in other packages. *)
Record Config (vm_t : Type) : Type := mkConfig {
  cfg_models : list (option (exec vm_t));
  cfg_prob_mode : option string;
  cfg_use_weighted_dist : list (option bool);
  cfg_use_active_guide : list (option bool)
}.
Arguments mkConfig {vm_t} _ _ _ _.
Arguments cfg_models {vm_t} c.
Arguments cfg_prob_mode {vm_t} c.
Arguments cfg_use_weighted_dist {vm_t} c.
Arguments cfg_use_active_guide {vm_t} c.

Record MechanismManager (vm_t : Type) : Type := mkManager {
  dim_ : nat;
  vm_nb_ : nat;
  vm_vector_ : list vm_t;
  vm_state_ : list VectorXd;
  vm_state_dot_ : list VectorXd;
  active_guide_ : list bool;
  use_weighted_dist_ : list bool;
  use_active_guide_ : list bool;
  scales_ : VectorXd;
  phase_ : VectorXd;
  robot_position_ : VectorXd;
  prob_mode_ : prob_mode_t;
  sum_ : double;
  scale_threshold_ : double
}.
Arguments mkManager {vm_t} _ _ _ _ _ _ _ _ _ _ _ _ _ _.
Arguments dim_ {vm_t} m.
Arguments vm_nb_ {vm_t} m.
Arguments vm_vector_ {vm_t} m.
Arguments vm_state_ {vm_t} m.
Arguments vm_state_dot_ {vm_t} m.
Arguments active_guide_ {vm_t} m.
Arguments use_weighted_dist_ {vm_t} m.
Arguments use_active_guide_ {vm_t} m.
Arguments scales_ {vm_t} m.
Arguments phase_ {vm_t} m.
Arguments robot_position_ {vm_t} m.
Arguments prob_mode_ {vm_t} m.
Arguments sum_ {vm_t} m.
Arguments scale_threshold_ {vm_t} m.

Section Manager.
Context {vm_t : Type} `{VirtualMechanism vm_t}.

Local Abbreviation MM := (MechanismManager vm_t).

(** Member assignments. *)
Definition with_vm_vector (x : list vm_t) (m : MM) : MM :=
  mkManager (dim_ m) (vm_nb_ m) x (vm_state_ m) (vm_state_dot_ m)
    (active_guide_ m) (use_weighted_dist_ m) (use_active_guide_ m) (scales_ m)
    (phase_ m) (robot_position_ m) (prob_mode_ m) (sum_ m) (scale_threshold_ m).

Definition with_vm_state (x : list VectorXd) (m : MM) : MM :=
  mkManager (dim_ m) (vm_nb_ m) (vm_vector_ m) x (vm_state_dot_ m)
    (active_guide_ m) (use_weighted_dist_ m) (use_active_guide_ m) (scales_ m)
    (phase_ m) (robot_position_ m) (prob_mode_ m) (sum_ m) (scale_threshold_ m).

Definition with_vm_state_dot (x : list VectorXd) (m : MM) : MM :=
  mkManager (dim_ m) (vm_nb_ m) (vm_vector_ m) (vm_state_ m) x
    (active_guide_ m) (use_weighted_dist_ m) (use_active_guide_ m) (scales_ m)
    (phase_ m) (robot_position_ m) (prob_mode_ m) (sum_ m) (scale_threshold_ m).

Definition with_active_guide (x : list bool) (m : MM) : MM :=
  mkManager (dim_ m) (vm_nb_ m) (vm_vector_ m) (vm_state_ m) (vm_state_dot_ m)
    x (use_weighted_dist_ m) (use_active_guide_ m) (scales_ m)
    (phase_ m) (robot_position_ m) (prob_mode_ m) (sum_ m) (scale_threshold_ m).

Definition with_scales (x : VectorXd) (m : MM) : MM :=
  mkManager (dim_ m) (vm_nb_ m) (vm_vector_ m) (vm_state_ m) (vm_state_dot_ m)
    (active_guide_ m) (use_weighted_dist_ m) (use_active_guide_ m) x
    (phase_ m) (robot_position_ m) (prob_mode_ m) (sum_ m) (scale_threshold_ m).

Definition with_phase (x : VectorXd) (m : MM) : MM :=
  mkManager (dim_ m) (vm_nb_ m) (vm_vector_ m) (vm_state_ m) (vm_state_dot_ m)
    (active_guide_ m) (use_weighted_dist_ m) (use_active_guide_ m) (scales_ m)
    x (robot_position_ m) (prob_mode_ m) (sum_ m) (scale_threshold_ m).

Definition with_robot_position (x : VectorXd) (m : MM) : MM :=
  mkManager (dim_ m) (vm_nb_ m) (vm_vector_ m) (vm_state_ m) (vm_state_dot_ m)
    (active_guide_ m) (use_weighted_dist_ m) (use_active_guide_ m) (scales_ m)
    (phase_ m) x (prob_mode_ m) (sum_ m) (scale_threshold_ m).

Definition with_sum (x : double) (m : MM) : MM :=
  mkManager (dim_ m) (vm_nb_ m) (vm_vector_ m) (vm_state_ m) (vm_state_dot_ m)
    (active_guide_ m) (use_weighted_dist_ m) (use_active_guide_ m) (scales_ m)
    (phase_ m) (robot_position_ m) (prob_mode_ m) x (scale_threshold_ m).

(** [operator >>] of toolbox/utilities.h: on a scalar,
    [value = input.as<T>()]; on a sequence, the entries are converted and
    pushed one after the other. *)
Definition read_value {T} (entry : option T) : exec T :=
  match entry with
  | Some value => Ok value
  | None => Fail Exception
  end.

Fixpoint read_vector {T} (entries : list (option T)) (v : list T) : exec (list T) :=
  match entries with
  | [] => Ok v
  | entry :: entries' =>
      value ← read_value entry;
      read_vector entries' (v ++ [value])
  end.

(** The loop over [model_names]: every mechanism is built and pushed to
    [vm_vector_]; a failure of the loader leaves the function. *)
Definition load_models (model_names : list (exec vm_t)) (vm_vector : list vm_t)
  : exec (list vm_t) :=
  for_loop
    (fun i v =>
       model ← vget model_names i;
       vm ← model;
       Ok (v ++ [vm]))
    0 (length model_names) vm_vector.

(** [ReadConfig]: [None] stands for a file that [YAML::LoadFile] cannot
    load; the exception is caught and the function returns false.  The
    four conversions that follow are outside the [try], as is the loop
    that builds the mechanisms: what they throw leaves the function.
    The result is the returned flag with the members it assigns: the
    mechanisms, the mixing mode and the two option lists. *)
Definition parse_prob_mode (prob_mode_string : string) : prob_mode_t :=
  if String.eqb prob_mode_string "hard" then HARD
  else if String.eqb prob_mode_string "potential" then POTENTIAL
  else if String.eqb prob_mode_string "soft" then SOFT
  else POTENTIAL.

Definition ReadConfig (file : option (Config vm_t))
  : exec (bool * (list vm_t * prob_mode_t * list bool * list bool)) :=
  match file with
  | None => Ok (false, ([], POTENTIAL, [], []))
  | Some main_node =>
      model_names ← read_vector (cfg_models main_node) [];
      prob_mode_string ← read_value (cfg_prob_mode main_node);
      use_weighted_dist ← read_vector (cfg_use_weighted_dist main_node) [];
      use_active_guide ← read_vector (cfg_use_active_guide main_node) [];
      vm_vector ← load_models model_names [];
      Ok (true, (vm_vector, parse_prob_mode prob_mode_string,
                 use_weighted_dist, use_active_guide))
  end.

(** The constructor.  A false [ReadConfig] is only logged, and what
    [ReadConfig] throws is not caught; the vectors created with
    [VectorXd(dim_)] have unspecified coefficients, written here as zeros
    (they are overwritten by [getState] before being read); [sum_] is not
    initialised by the source and is written as zero. *)
Definition MechanismManager_new (file : option (Config vm_t)) : exec MM :=
  let dim := 3%nat in
  '(_, (vms, mode, uwd, uag)) ← ReadConfig file;
  let vm_nb := length vms in
  _ ← assert (Nat.leb 1 vm_nb);
  '(vms', st, std) ←
    for_loop
      (fun i '(v, st, std) =>
         vm ← vget v i;
         w ← vget uwd i;
         v' ← vset i (setWeightedDist w (Init vm)) v;
         Ok (v', st ++ [fill dim (Fin 0)], std ++ [fill dim (Fin 0)]))
      0 vm_nb (vms, [], []);
  Ok (mkManager dim vm_nb vms' st std
        (replicate vm_nb false) uwd uag
        (fill vm_nb (Fin 0)) (fill vm_nb (Fin 0)) (fill dim (Fin 0))
        mode (Fin 0)
        (dadd (ddiv (Fin 1) (of_nat vm_nb)) (Fin (2 / 10)))).

(** The two passes of the tick over one mechanism. *)
Definition raw_score (mode : prob_mode_t) (vm : vm_t) (robot_position : VectorXd) : double :=
  match mode with
  | HARD => getProbability vm robot_position
  | POTENTIAL => dexp (dmul (of_int (-10)) (getDistance vm robot_position))
  | SOFT => getProbability vm robot_position
  end.

Definition weight (mode : prob_mode_t) (vm : vm_t) (robot_position : VectorXd)
           (scale sum : double) : double :=
  match mode with
  | HARD => ddiv scale sum
  | POTENTIAL => scale
  | SOFT => ddiv (dmul (dexp (dmul (of_int (-10)) (getDistance vm robot_position))) scale) sum
  end.

Definition vm_force (vm : vm_t) (state state_dot robot_position robot_velocity : VectorXd)
  : VectorXd :=
  vadd (svmul (getK vm) (vsub state robot_position))
       (svmul (getB vm) (vsub state_dot robot_velocity)).

Definition score_pass (robot_position robot_velocity : VectorXd) (dt : double)
           (i : nat) (m : MM) : exec MM :=
  vm ← vget (vm_vector_ m) i;
  let vm' := vm_Update robot_position robot_velocity dt vm in
  vms ← vset i vm' (vm_vector_ m);
  sc ← vset i (raw_score (prob_mode_ m) vm' robot_position) (scales_ m);
  ph ← vset i (getPhase vm') (phase_ m);
  Ok (with_phase ph (with_scales sc (with_vm_vector vms m))).

Definition blend_pass (robot_position robot_velocity : VectorXd)
           (i : nat) (s : MM * VectorXd) : exec (MM * VectorXd) :=
  let '(m, f_out) := s in
  vm ← vget (vm_vector_ m) i;
  old ← vget (scales_ m) i;
  let w := weight (prob_mode_ m) vm robot_position old (sum_ m) in
  sc ← vset i w (scales_ m);
  st ← vset i (getState vm) (vm_state_ m);
  std ← vset i (getStateDot vm) (vm_state_dot_ m);
  Ok (with_vm_state_dot std (with_vm_state st (with_scales sc m)),
      vadd f_out (svmul w (vm_force vm (getState vm) (getStateDot vm)
                                    robot_position robot_velocity))).

(** [Update(robot_position, robot_velocity, dt, f_out)]: the result is the
    manager after the tick and the new content of [f_out]. *)
Definition Update (robot_position robot_velocity : VectorXd) (dt : double)
           (f_out : VectorXd) (m : MM) : exec (MM * VectorXd) :=
  _ ← assert (Nat.eqb (length robot_position) (dim_ m));
  _ ← assert (Nat.eqb (length robot_velocity) (dim_ m));
  _ ← assert (dgt dt (Fin 0));
  _ ← assert (Nat.eqb (length f_out) (dim_ m));
  let m := with_robot_position robot_position m in
  m ← for_loop (score_pass robot_position robot_velocity dt) 0 (vm_nb_ m) m;
  let m := with_sum (vsum (scales_ m)) m in
  let f_out := fill (length f_out) (Fin 0) in
  for_loop (blend_pass robot_position robot_velocity) 0 (vm_nb_ m) (m, f_out).

(** The condition of the active-guide gate; [&&] evaluates its right
    operand only when the left one is true. *)
Definition guide_condition (force_applied : bool) (i : nat) (m : MM) : exec bool :=
  if negb force_applied then
    s ← vget (scales_ m) i;
    if dgt s (scale_threshold_ m) then
      u ← vget (use_active_guide_ m) i;
      Ok u
    else Ok false
  else Ok false.

Definition gate_pass (force_applied : bool) (i : nat) (m : MM) : exec MM :=
  c ← guide_condition force_applied i m;
  vm ← vget (vm_vector_ m) i;
  vms ← vset i (setActive c vm) (vm_vector_ m);
  ag ← vset i c (active_guide_ m);
  Ok (with_active_guide ag (with_vm_vector vms m)).

(** [Update(..., force_applied)]. *)
Definition Update_force_applied (robot_position robot_velocity : VectorXd) (dt : double)
           (f_out : VectorXd) (force_applied : bool) (m : MM) : exec (MM * VectorXd) :=
  m ← for_loop (gate_pass force_applied) 0 (vm_nb_ m) m;
  Update robot_position robot_velocity dt f_out m.

Definition direction_pass (move_forward : bool) (i : nat) (m : MM) : exec MM :=
  vm ← vget (vm_vector_ m) i;
  vms ← vset i (if move_forward then moveForward vm else moveBackward vm) (vm_vector_ m);
  Ok (with_vm_vector vms m).

(** [Update(..., force_applied, move_forward)]. *)
Definition Update_move_forward (robot_position robot_velocity : VectorXd) (dt : double)
           (f_out : VectorXd) (force_applied move_forward : bool) (m : MM)
  : exec (MM * VectorXd) :=
  m ← for_loop (direction_pass move_forward) 0 (vm_nb_ m) m;
  Update_force_applied robot_position robot_velocity dt f_out force_applied m.

End Manager.

End mechanism_manager.

(** ** mechanism_manager_interface *)

Module MechanismManagerInterface.

(** The node [mechanism_manager_interface] of the YAML file.  A key is
    [None] when it is absent or cannot be converted, in which case
    [as<T>()] throws. *)
Record InterfaceNode : Type := mkNode {
  yaml_position_dim : option Z;
  yaml_phase_dot_th : option double;
  yaml_phase_dot_preauto_th : option double
}.

Definition as_value {T} (key : option T) : exec T :=
  match key with
  | Some v => Ok v
  | None => Fail Exception
  end.

(** [ReadConfig]: [None] is a file without the interface node (also the
    empty node that [CreateYamlNodeFromPkgName] returns when the file
    cannot be loaded).  The result is the returned flag and the three
    members read; they are unspecified when the flag is false. *)
Definition ReadConfig (main_node : option InterfaceNode) : exec (bool * (Z * double * double)) :=
  match main_node with
  | Some curr_node =>
      position_dim ← as_value (yaml_position_dim curr_node);
      phase_dot_th ← as_value (yaml_phase_dot_th curr_node);
      phase_dot_preauto_th ← as_value (yaml_phase_dot_preauto_th curr_node);
      _ ← assert ((position_dim =? 1)%Z || (position_dim =? 2)%Z);
      _ ← assert (dgt phase_dot_th (Fin 0));
      _ ← assert (dgt phase_dot_preauto_th phase_dot_th);
      Ok (true, (position_dim, phase_dot_th, phase_dot_preauto_th))
  | None => Ok (false, (0%Z, Fin 0, Fin 0))
  end.

Record Interface (mm_t : Type) : Type := mkInterface {
  position_dim_ : Z;
  phase_dot_th_ : double;
  phase_dot_preauto_th_ : double;
  tmp_eigen_vector_ : VectorXd;
  robot_position_ : VectorXd;
  robot_velocity_ : VectorXd;
  f_ : VectorXd;
  collision_detected_ : bool;
  mm_ : mm_t
}.
Arguments mkInterface {mm_t} _ _ _ _ _ _ _ _ _.
Arguments position_dim_ {mm_t} i.
Arguments phase_dot_th_ {mm_t} i.
Arguments phase_dot_preauto_th_ {mm_t} i.
Arguments f_ {mm_t} i.
Arguments robot_position_ {mm_t} i.
Arguments robot_velocity_ {mm_t} i.
Arguments tmp_eigen_vector_ {mm_t} i.
Arguments collision_detected_ {mm_t} i.
Arguments mm_ {mm_t} i.

Section Construction.
(** The constructor [MechanismManager(int)] called by the interface is not
    part of the sources at hand; it is a parameter here. *)
Context {mm_t : Type} (new_MechanismManager : Z -> exec mm_t).

(** The constructor.  A false [ReadConfig] throws [std::runtime_error]; a
    failure to create the server is caught and logged. *)
Definition MechanismManagerInterface_new (main_node : option InterfaceNode)
  : exec (Interface mm_t) :=
  '(ok, (position_dim, phase_dot_th, phase_dot_preauto_th)) ← ReadConfig main_node;
  if negb ok then Fail Exception
  else
    let zeros := fill (Z.to_nat position_dim) (Fin 0) in
    mm ← new_MechanismManager position_dim;
    Ok (mkInterface position_dim phase_dot_th phase_dot_preauto_th
          zeros zeros zeros zeros true mm).

End Construction.

End MechanismManagerInterface.

(** ** toolbox/utilities.h, continued: blocking locks, AsyncThread, text files *)

Module SharedDataLocks.
Import tool_box.

(** [m.lock()] called by thread [t]: [None] when the mutex is owned by
    another thread, in which case the caller waits. *)
Definition lock (t : thread_id) (m : recursive_mutex) : option recursive_mutex :=
  match owner m with
  | None => Some (mkMutex (Some t) 1)
  | Some o => if Nat.eqb o t then Some (mkMutex (Some o) (S (depth m))) else None
  end.

(** [WriteLock]: [mtx_.lock(); obj_ = obj; mtx_.unlock();]. *)
Definition WriteLock {T} (t : thread_id) (obj : T) (sd : SharedData T)
  : option (SharedData T) :=
  m ← lock t (mtx_ sd);
  Some (mkShared (unlock m) obj).

(** [ReadLock]: [guard.lock(); return obj_;], the guard unlocking when it
    goes out of scope. *)
Definition ReadLock {T} (t : thread_id) (sd : SharedData T)
  : option (T * SharedData T) :=
  m ← lock t (mtx_ sd);
  Some (obj_ sd, mkShared (unlock m) (obj_ sd)).

(** A call of one of the four members by a thread. *)
Inductive call (T : Type) : Type :=
| CallWriteTryLock (t : thread_id) (obj : T)
| CallReadTryLock (t : thread_id)
| CallWriteLock (t : thread_id) (obj : T)
| CallReadLock (t : thread_id).
Arguments CallWriteTryLock {T} t obj.
Arguments CallReadTryLock {T} t.
Arguments CallWriteLock {T} t obj.
Arguments CallReadLock {T} t.

(** The shared data after a call; a call that has to wait for the mutex
    leaves it as it is. *)
Definition after_call {T} (sd : SharedData T) (c : call T) : SharedData T :=
  match c with
  | CallWriteTryLock t obj => WriteTryLock t obj sd
  | CallReadTryLock t => snd (ReadTryLock t sd)
  | CallWriteLock t obj => default sd (WriteLock t obj sd)
  | CallReadLock t => default sd (snd <$> ReadLock t sd)
  end.

Definition after_calls {T} (sd : SharedData T) (cs : list (call T)) : SharedData T :=
  foldl after_call sd cs.

End SharedDataLocks.

Module AsyncThread.

(** [AsyncThread] with handlers of type [H]: the handler [f_] (an empty
    [boost::function] at first), the flag [trigger_], whether the loop
    thread is between the start of the callback and [trigger_ = false],
    and the handlers it has started so far, oldest first ([None]: the
    empty function was called). *)
Record AsyncThread (H : Type) : Type := mkAsync {
  f_ : option H;
  trigger_ : bool;
  in_callback : bool;
  started : list (option H)
}.
Arguments mkAsync {H} _ _ _ _.
Arguments f_ {H} a.
Arguments trigger_ {H} a.
Arguments in_callback {H} a.
Arguments started {H} a.

(** The constructor: [trigger_ = false], the loop thread idle. *)
Definition AsyncThread_new {H} : AsyncThread H := mkAsync None false false [].

(** [AddHandler(f)]: refused (with a message) while [trigger_] is set. *)
Definition AddHandler {H} (f : H) (a : AsyncThread H) : AsyncThread H :=
  if trigger_ a then a
  else mkAsync (Some f) (trigger_ a) (in_callback a) (started a).

(** [Trigger()]. *)
Definition Trigger {H} (a : AsyncThread H) : AsyncThread H :=
  mkAsync (f_ a) true (in_callback a) (started a).

(** One turn of [Loop], in its two atomic parts: the test of [trigger_]
    that starts the callback with the current [f_], and, once the
    callback is joined, [trigger_ = false]. *)
Definition loop_test {H} (a : AsyncThread H) : AsyncThread H :=
  if in_callback a then a
  else if trigger_ a
       then mkAsync (f_ a) (trigger_ a) true (started a ++ [f_ a])
       else a.

Definition loop_joined {H} (a : AsyncThread H) : AsyncThread H :=
  if in_callback a then mkAsync (f_ a) false false (started a) else a.

(** The steps of the client thread and of the loop thread, in the order
    in which they take effect. *)
Inductive event (H : Type) : Type :=
| EvAddHandler (f : H)
| EvTrigger
| EvLoopTest
| EvLoopJoined.
Arguments EvAddHandler {H} f.
Arguments EvTrigger {H}.
Arguments EvLoopTest {H}.
Arguments EvLoopJoined {H}.

Definition step {H} (a : AsyncThread H) (e : event H) : AsyncThread H :=
  match e with
  | EvAddHandler f => AddHandler f a
  | EvTrigger => Trigger a
  | EvLoopTest => loop_test a
  | EvLoopJoined => loop_joined a
  end.

Definition steps {H} (a : AsyncThread H) (es : list (event H)) : AsyncThread H :=
  foldl step a es.

End AsyncThread.

Module TxtFile.

(** A line of a text file of numbers: the numbers it holds, separated by
    blanks, and whether blanks follow the last number (or make up the
    whole line).  A file is its lines, or [None] when it cannot be
    opened. *)
Record text_line : Type := mkLine { numbers : list double; trailing_blank : bool }.

Definition text_file : Type := option (list text_line).

(** What
    [while (!input_line.eof()) { input_line >> d; v.push_back(d); }]
    pushes for one line, and the content of [d] after it.  Reading the
    last number reaches the end of the line and sets [eof] only when
    nothing follows it; otherwise, and on a line without any number, one
    more extraction is attempted: it meets the end of the line before any
    character of a number, fails without touching [d], and [d], which
    still holds the number read last (on this line or on an earlier one),
    is pushed once more. *)
Definition read_line (d : double) (l : text_line) : list double * double :=
  let d' := List.last (numbers l) d in
  (numbers l ++
   (if trailing_blank l || Nat.eqb (length (numbers l)) 0 then [d'] else []),
   d').

(** The outer [while (getline(input, line))] loop: [d] is declared
    before it and keeps its content from line to line. *)
Fixpoint read_lines (d : double) (lines : list text_line) : list double :=
  match lines with
  | [] => []
  | l :: lines' =>
      let '(vs, d') := read_line d l in
      vs ++ read_lines d' lines'
  end.

(** [ReadTxtFile(filename, Eigen::Matrix&)] ends with a matrix or with
    the integer division [v.size()/n_rows] by zero. *)
Inductive read_result : Type :=
| ReadDone (m : exec MatrixXd)
| ReadDivisionByZero.

(** The assignment [m(i,j) = v[i*n_cols + j]]. *)
Definition assign_coefficient (v : list double) (n_cols i j : nat)
           (m : list VectorXd) : exec (list VectorXd) :=
  x ← vget v (i * n_cols + j);
  row ← vget m i;
  row' ← vset j x row;
  vset i row' m.

(** The matrix version of [ReadTxtFile].  A file that cannot be opened
    gives a message and an empty matrix, and the function goes on: no
    line is read.  [d0] is the content of the uninitialised [d].  The
    coefficients of the matrix allocated with [Matrix(n_rows, n_cols)]
    are unspecified, written here as zeros, and are all assigned by the
    two loops. *)
Definition ReadTxtFile_matrix (d0 : double) (input : text_file) : read_result :=
  let lines := default [] input in
  let v := read_lines d0 lines in
  let n_rows := length lines in
  if Nat.eqb n_rows 0 then ReadDivisionByZero
  else
    let n_cols := (length v / n_rows)%nat in
    let m := replicate n_rows (fill n_cols (Fin 0)) in
    ReadDone
      (rows' ← for_loop
                 (fun i m => for_loop (assign_coefficient v n_cols i) 0 n_cols m)
                 0 n_rows m;
       Ok (mkMatrix rows' n_cols)).

(** A word of a line of any text: text that [operator>>] reads as a
    number, or text on which the extraction fails before the end of the
    line, like the [nan], [inf], [-nan] and [-inf] that [operator<<]
    prints for a NaN and for an infinite value. *)
Inductive word : Type :=
| Numeral (x : double)
| Unreadable.

(** A line of text: its words, separated by blanks, and whether blanks
    follow the last word. *)
Record raw_line : Type := mkRawLine { words : list word; blank_at_end : bool }.

Definition raw_file : Type := option (list raw_line).

(** The numbers of a line that holds nothing else. *)
Fixpoint numerals (ws : list word) : option (list double) :=
  match ws with
  | [] => Some []
  | Numeral x :: ws' =>
      match numerals ws' with
      | Some xs => Some (x :: xs)
      | None => None
      end
  | Unreadable :: _ => None
  end.

Definition as_text_line (l : raw_line) : option text_line :=
  match numerals (words l) with
  | Some xs => Some (mkLine xs (blank_at_end l))
  | None => None
  end.

Fixpoint as_text_lines (ls : list raw_line) : option (list text_line) :=
  match ls with
  | [] => Some []
  | l :: ls' =>
      match as_text_line l, as_text_lines ls' with
      | Some t, Some ts => Some (t :: ts)
      | _, _ => None
      end
  end.

(** The matrix version of [ReadTxtFile] on any text.  An extraction that
    fails before the end of the line sets [failbit] and not [eofbit]:
    every later extraction fails at once, [input_line.eof()] stays false,
    and the inner [while] pushes [d] without end.  [None] stands for
    that: the function does not return. *)
Definition ReadTxtFile_matrix_text (d0 : double) (input : raw_file) : option read_result :=
  match input with
  | None => Some (ReadTxtFile_matrix d0 None)
  | Some lines =>
      match as_text_lines lines with
      | Some lines' => Some (ReadTxtFile_matrix d0 (Some lines'))
      | None => None
      end
  end.

(** What [std::copy] from [std::istream_iterator<value_t>(iss)] appends:
    the numbers of the line up to the first word that cannot be read,
    where the iterator becomes the end iterator. *)
Fixpoint leading_numerals (ws : list word) : list double :=
  match ws with
  | Numeral x :: ws' => x :: leading_numerals ws'
  | _ => []
  end.

(** The [std::vector<std::vector<value_t>>] version of [ReadTxtFile]:
    one vector per line, filled by the copy above ([iss.clear()] resets
    the stream before every line); a file that cannot be opened leaves
    [values] empty. *)
Definition ReadTxtFile_vectors (input : raw_file) : list (list double) :=
  match input with
  | Some lines => (fun l => leading_numerals (words l)) <$> lines
  | None => []
  end.

Section Writing.
(** The number read back from the text that [operator<<] prints for a
    finite double (six significant digits by default). *)
Variable printed : R -> R.

(** The word that [myfile << x] writes. *)
Definition print (x : double) : word :=
  match x with
  | Fin r => Numeral (Fin (printed r))
  | PInf | NInf | NaN => Unreadable
  end.

(** A line as the writers produce it: every value is followed by a
    blank. *)
Definition written_line (values : list double) : raw_line :=
  mkRawLine (print <$> values) true.

(** [WriteTxtFile(filename, Eigen::MatrixXd&)], for a file that can be
    opened: the lines written. *)
Definition WriteTxtFile_matrix (values : MatrixXd) : list raw_line :=
  written_line <$> mrows values.

(** [WriteTxtFile(filename, std::vector<std::vector<value_t>>&)], for a
    file that can be opened: [nb_cols] is the size of the first row, and
    [values[row][col]] is read for every [col < nb_cols]. *)
Definition WriteTxtFile_vectors (values : list (list double)) : exec (list raw_line) :=
  first_row ← vget values 0;
  let nb_cols := length first_row in
  for_loop
    (fun row out =>
       r ← vget values row;
       cells ← for_loop (fun col cs => x ← vget r col; Ok (cs ++ [x])) 0 nb_cols [];
       Ok (out ++ [written_line cells]))
    0 (length values) [].

End Writing.

End TxtFile.

(** ** toolbox/ros.h: RosNode *)

Module RosNode.

(** A [ros::NodeHandle] allocated by [new], named by the node name it was
    created for. *)
Definition NodeHandle : Type := string.

Record RosNode : Type := mkRosNode {
  ros_nh_ptr_ : option NodeHandle;   (* [None] is the null pointer *)
  init_ : bool
}.

(** [RosNode()]. *)
Definition RosNode_new : RosNode := mkRosNode None false.

(** [Init(name)]; [master] is the answer of [ros::master::check()]. *)
Definition Init (master : bool) (ros_node_name : string) (n : RosNode) : exec RosNode :=
  if master then Ok (mkRosNode (Some ros_node_name) true)
  else Fail Exception.

(** [RosNode(name)]. *)
Definition RosNode_named (master : bool) (ros_node_name : string) : exec RosNode :=
  Init master ros_node_name (mkRosNode None false).

(** [GetNode()]: the pointer that [return *ros_nh_ptr_] dereferences, or
    the exception. *)
Definition GetNode (n : RosNode) : exec (option NodeHandle) :=
  if init_ n then Ok (ros_nh_ptr_ n) else Fail Exception.

(** [Reset()]. *)
Definition Reset (n : RosNode) : exec (bool * RosNode) :=
  if init_ n then Ok (true, mkRosNode None false)
  else Fail Exception.

Definition InitDone (n : RosNode) : bool := init_ n.

End RosNode.

(** * Properties *)

Import tool_box mechanism_manager.

(** ** The failure monad and loops *)

Lemma assert_true (b : bool) : b = true -> assert b = Ok tt.
Proof. intros ->. reflexivity. Qed.

Lemma assert_Ok_inv (b : bool) (u : unit) : assert b = Ok u -> b = true.
Proof. destruct b; [reflexivity | discriminate]. Qed.

Lemma bind_Ok_inv {A B} (m : exec A) (k : A -> exec B) (b : B) :
  (m ≫= k) = Ok b -> exists a, m = Ok a /\ k a = Ok b.
Proof. destruct m as [a | f]; [eauto | discriminate]. Qed.

Lemma vget_lookup {A} (v : list A) (i : nat) (x : A) :
  v !! i = Some x -> vget v i = Ok x.
Proof. unfold vget. intros ->. reflexivity. Qed.

Lemma vget_Ok_inv {A} (v : list A) (i : nat) (x : A) :
  vget v i = Ok x -> v !! i = Some x.
Proof. unfold vget. destruct (v !! i); [congruence | discriminate]. Qed.

Lemma vset_in_range {A} (v : list A) (i : nat) (x : A) :
  (i < length v)%nat -> vset i x v = Ok (<[i:=x]> v).
Proof. intros Hi. unfold vset. destruct (decide (i < length v)%nat); [reflexivity | contradiction]. Qed.

(** A loop whose state after [k] iterations is [F k]. *)
Lemma for_loop_from {St} (F : nat -> St) (body : nat -> St -> exec St) (n i : nat) :
  (forall k, (i <= k < i + n)%nat -> body k (F k) = Ok (F (S k))) ->
  for_loop body i n (F i) = Ok (F (i + n)%nat).
Proof.
  revert i. induction n as [| n IH]; intros i Hstep; simpl.
  - rewrite Nat.add_0_r. reflexivity.
  - rewrite Hstep by lia. simpl.
    rewrite IH.
    + f_equal. f_equal. lia.
    + intros k Hk. apply Hstep. lia.
Qed.

Lemma for_loop_closed {St} (F : nat -> St) (body : nat -> St -> exec St) (n : nat) :
  (forall k, (k < n)%nat -> body k (F k) = Ok (F (S k))) ->
  for_loop body 0 n (F 0%nat) = Ok (F n).
Proof.
  intros Hstep. apply (for_loop_from F body n 0). intros k Hk. apply Hstep. lia.
Qed.

(** [splice f k src old]: the first [k] cells have been overwritten with
    the image of [src], the others still hold [old]. *)
Definition splice {A B} (f : A -> B) (k : nat) (src : list A) (old : list B) : list B :=
  (f <$> take k src) ++ drop k old.

Lemma splice_0 {A B} (f : A -> B) (src : list A) (old : list B) :
  splice f 0 src old = old.
Proof. reflexivity. Qed.

Lemma splice_all {A B} (f : A -> B) (src : list A) (old : list B) :
  length old = length src -> splice f (length src) src old = f <$> src.
Proof.
  intros Hlen. unfold splice.
  rewrite firstn_all, drop_ge by lia. apply app_nil_r.
Qed.

Lemma length_splice {A B} (f : A -> B) (k : nat) (src : list A) (old : list B) :
  length old = length src -> length (splice f k src old) = length src.
Proof.
  intros Hlen. unfold splice.
  rewrite length_app, length_fmap, length_take, length_drop. lia.
Qed.

Lemma lookup_splice_old {A B} (f : A -> B) (k j : nat) (src : list A) (old : list B) :
  length old = length src -> (k <= j)%nat -> splice f k src old !! j = old !! j.
Proof.
  intros Hlen Hk. unfold splice.
  destruct (decide (j < length src)%nat) as [Hj | Hj].
  - rewrite lookup_app_r; rewrite length_fmap, length_take; [| lia].
    rewrite lookup_drop. f_equal. lia.
  - rewrite !lookup_ge_None_2; [reflexivity | lia |].
    rewrite length_app, length_fmap, length_take, length_drop. lia.
Qed.

Lemma insert_splice {A B} (f : A -> B) (k : nat) (src : list A) (old : list B) (x : A) :
  length old = length src -> src !! k = Some x ->
  <[k := f x]> (splice f k src old) = splice f (S k) src old.
Proof.
  intros Hlen Hx. unfold splice.
  assert (Hk : (k < length src)%nat) by (eapply lookup_lt_Some; eauto).
  rewrite (take_S_r _ _ _ Hx), fmap_app. simpl.
  rewrite insert_app_r_alt; rewrite length_fmap, length_take; [| lia].
  replace (k - k `min` length src)%nat with 0%nat by lia.
  destruct (drop k old) as [| y rest] eqn:Hd.
  - apply (f_equal length) in Hd. rewrite length_drop in Hd. simpl in Hd. lia.
  - simpl. rewrite <- app_assoc. simpl.
    replace (drop (S k) old) with (drop 1 (drop k old))
      by (rewrite drop_drop; f_equal; lia).
    rewrite Hd. reflexivity.
Qed.

Lemma vset_splice {A B} (f : A -> B) (k : nat) (src : list A) (old : list B) (x : A) :
  length old = length src -> src !! k = Some x ->
  vset k (f x) (splice f k src old) = Ok (splice f (S k) src old).
Proof.
  intros Hlen Hx.
  assert (Hk : (k < length src)%nat) by (eapply lookup_lt_Some; eauto).
  rewrite vset_in_range by (rewrite length_splice; assumption).
  rewrite insert_splice; auto.
Qed.

(** ** Doubles *)

Section DoubleFacts.
Local Open Scope R_scope.

Lemma Rltb_true (a b : R) : Rltb a b = true <-> a < b.
Proof. unfold Rltb. destruct (Rlt_dec a b); split; intros; try assumption; try reflexivity; try discriminate; contradiction. Qed.

Lemma Rleb_true (a b : R) : Rleb a b = true <-> a <= b.
Proof. unfold Rleb. destruct (Rle_dec a b); split; intros; try assumption; try reflexivity; try discriminate; contradiction. Qed.

Lemma Reqb_true (a b : R) : Reqb a b = true <-> a = b.
Proof. unfold Reqb. destruct (Req_dec_T a b); split; intros; try assumption; try reflexivity; try discriminate; contradiction. Qed.

Lemma Rltb_false (a b : R) : Rltb a b = false <-> ~ a < b.
Proof. rewrite <- Rltb_true. destruct (Rltb a b); split; congruence. Qed.

Lemma Rleb_false (a b : R) : Rleb a b = false <-> ~ a <= b.
Proof. rewrite <- Rleb_true. destruct (Rleb a b); split; congruence. Qed.

Lemma Reqb_false (a b : R) : Reqb a b = false <-> a <> b.
Proof. rewrite <- Reqb_true. destruct (Reqb a b); split; congruence. Qed.

Lemma dgt_Fin (a b : R) : dgt (Fin a) (Fin b) = true <-> b < a.
Proof. apply Rltb_true. Qed.

Lemma dge_Fin (a b : R) : dge (Fin a) (Fin b) = true <-> b <= a.
Proof. apply Rleb_true. Qed.

Lemma dle_Fin (a b : R) : dle (Fin a) (Fin b) = true <-> a <= b.
Proof. apply Rleb_true. Qed.

Lemma ddiv_Fin (a b : R) : b <> 0 -> ddiv (Fin a) (Fin b) = Fin (a / b).
Proof. intros Hb. simpl. apply Reqb_false in Hb. rewrite Hb. reflexivity. Qed.

Lemma ddiv_zero_zero : ddiv (Fin 0) (Fin 0) = NaN.
Proof. simpl. assert (E : Reqb 0 0 = true) by (apply Reqb_true; reflexivity). rewrite E. reflexivity. Qed.

Lemma dadd_0_l (a : double) : dadd (Fin 0) a = a.
Proof. destruct a; simpl; try reflexivity. f_equal. lra. Qed.

Lemma dadd_NaN_r (a : double) : dadd a NaN = NaN.
Proof. destruct a; reflexivity. Qed.

Lemma dmul_NaN_l (a : double) : dmul NaN a = NaN.
Proof. reflexivity. Qed.

End DoubleFacts.

(** ** The activation automaton *)

Section Automaton.
Local Open Scope R_scope.

Lemma Step_from_MANUAL (a : VirtualMechanismAutom) (pd ref : double) (c : bool) :
  state_ a = MANUAL ->
  state_ (Step pd ref c a) = if dge pd (phase_dot_preauto_th_ a) then PREAUTO else MANUAL.
Proof. intros Hs. unfold Step. rewrite Hs. destruct (dge _ _); simpl; auto. Qed.

Lemma Step_from_PREAUTO (a : VirtualMechanismAutom) (pd ref : double) (c : bool) :
  state_ a = PREAUTO ->
  state_ (Step pd ref c a) =
    if dle pd (dadd ref (phase_dot_th_ a)) then AUTO else PREAUTO.
Proof. intros Hs. unfold Step. rewrite Hs. destruct (dle _ _); simpl; auto. Qed.

Lemma Step_from_AUTO (a : VirtualMechanismAutom) (pd ref : double) (c : bool) :
  state_ a = AUTO ->
  state_ (Step pd ref c a) = if c then MANUAL else AUTO.
Proof. intros Hs. unfold Step. rewrite Hs. destruct c; simpl; auto. Qed.

Lemma Step_thresholds (a : VirtualMechanismAutom) (pd ref : double) (c : bool) :
  phase_dot_preauto_th_ (Step pd ref c a) = phase_dot_preauto_th_ a /\
  phase_dot_th_ (Step pd ref c a) = phase_dot_th_ a.
Proof.
  unfold Step. destruct (state_ a);
    [destruct (dge _ _) | destruct (dle _ _) | destruct c]; simpl; auto.
Qed.

Lemma run_snoc (a : VirtualMechanismAutom) (ins : list step_input) (k : nat) (i : step_input) :
  ins !! k = Some i ->
  run a (take (S k) ins) = Step_in (run a (take k ins)) i.
Proof.
  intros Hk. unfold run. rewrite (take_S_r _ _ _ Hk), foldl_app. reflexivity.
Qed.

(** C5.  An automaton built with thresholds [pre > th > 0] starts in
    MANUAL; for [0 < delta < pre - ref - th], one step with
    [phase_dot = pre + delta] leaves it in PREAUTO (whatever the other two
    inputs are), so that [GetState] is still false, and a second step with
    [phase_dot = ref + th - delta] and reference [ref] puts it in AUTO.
    No single step from MANUAL reaches AUTO. *)
Theorem autom_reaches_AUTO_in_two_steps
        (pre th ref delta : R) (ref1 : double) (c1 c2 : bool) :
  0 < th -> th < pre -> 0 < delta -> delta < pre - ref - th ->
  exists a,
    VirtualMechanismAutom_new (Fin pre) (Fin th) = Ok a /\
    state_ a = MANUAL /\
    let a1 := Step (dadd (Fin pre) (Fin delta)) ref1 c1 a in
    let a2 := Step (dsub (dadd (Fin ref) (Fin th)) (Fin delta)) (Fin ref) c2 a1 in
    state_ a1 = PREAUTO /\ fst (GetState a1) = false /\
    state_ a2 = AUTO /\ fst (GetState a2) = true /\
    (forall pd r c, state_ (Step pd r c a) <> AUTO).
Proof.
  intros Hth Hpre Hd Hd'.
  exists (mkAutom (Fin pre) (Fin th) MANUAL 0).
  assert (E1 : dgt (Fin th) (Fin 0) = true) by (apply dgt_Fin; lra).
  assert (E2 : dgt (Fin pre) (Fin th) = true) by (apply dgt_Fin; lra).
  assert (E3 : pre <= pre + delta) by lra.
  assert (E4 : dle (Fin (ref + th + - delta)) (Fin (ref + th)) = true)
    by (apply dle_Fin; lra).
  split.
  { unfold VirtualMechanismAutom_new. rewrite E1, E2. reflexivity. }
  split; [reflexivity |].
  cbn zeta.
  assert (S1 : Step (dadd (Fin pre) (Fin delta)) ref1 c1 (mkAutom (Fin pre) (Fin th) MANUAL 0)
               = mkAutom (Fin pre) (Fin th) PREAUTO 0).
  { unfold Step. cbn.
    apply Rleb_true in E3. rewrite E3. reflexivity. }
  rewrite S1.
  assert (S2 : Step (dsub (dadd (Fin ref) (Fin th)) (Fin delta)) (Fin ref) c2
                    (mkAutom (Fin pre) (Fin th) PREAUTO 0)
               = mkAutom (Fin pre) (Fin th) AUTO 0).
  { unfold Step. cbn. unfold dle in E4. rewrite E4. reflexivity. }
  rewrite S2.
  repeat split; try reflexivity.
  intros pd r c. rewrite Step_from_MANUAL by reflexivity.
  destruct (dge _ _); discriminate.
Qed.

Lemma autom_reaches_AUTO_in_two_steps_witness :
  exists a,
    VirtualMechanismAutom_new (Fin 2) (Fin 1) = Ok a /\
    state_ a = MANUAL /\
    let a1 := Step (dadd (Fin 2) (Fin (1/2))) NaN true a in
    let a2 := Step (dsub (dadd (Fin 0) (Fin 1)) (Fin (1/2))) (Fin 0) false a1 in
    state_ a1 = PREAUTO /\ fst (GetState a1) = false /\
    state_ a2 = AUTO /\ fst (GetState a2) = true /\
    (forall pd r c, state_ (Step pd r c a) <> AUTO).
Proof.
  apply (autom_reaches_AUTO_in_two_steps 2 1 0 (1/2) NaN true false); lra.
Defined.

(** C6.  In any run of the automaton, if the state before the [k]-th call
    of [Step] is AUTO, then the state after it is MANUAL only when that
    call was made with [collision_detected = true]; and when it was made
    with [collision_detected = false] the state after it is still AUTO. *)
Theorem autom_leaves_AUTO_only_on_collision
        (a0 : VirtualMechanismAutom) (ins : list step_input) (k : nat) (i : step_input) :
  ins !! k = Some i ->
  state_ (run a0 (take k ins)) = AUTO ->
  (state_ (run a0 (take (S k) ins)) = MANUAL -> in_collision_detected i = true) /\
  (in_collision_detected i = false -> state_ (run a0 (take (S k) ins)) = AUTO).
Proof.
  intros Hk Hauto. rewrite (run_snoc _ _ _ _ Hk). unfold Step_in.
  rewrite Step_from_AUTO by assumption.
  destruct (in_collision_detected i); split; intros; congruence.
Qed.

Lemma autom_leaves_AUTO_only_on_collision_witness :
  (state_ (run (mkAutom (Fin 2) (Fin 1) AUTO 0)
               (take 2 [mkInput (Fin 5) (Fin 0) false; mkInput (Fin 5) (Fin 0) true]))
   = MANUAL -> true = true) /\
  (true = false ->
   state_ (run (mkAutom (Fin 2) (Fin 1) AUTO 0)
               (take 2 [mkInput (Fin 5) (Fin 0) false; mkInput (Fin 5) (Fin 0) true]))
   = AUTO).
Proof.
  apply (autom_leaves_AUTO_only_on_collision
           (mkAutom (Fin 2) (Fin 1) AUTO 0)
           [mkInput (Fin 5) (Fin 0) false; mkInput (Fin 5) (Fin 0) true]
           1 (mkInput (Fin 5) (Fin 0) true));
    reflexivity.
Defined.

End Automaton.

(** ** toolbox: SharedData *)

Section SharedDataFacts.
Context {T : Type}.

Lemma try_lock_contended (t o : thread_id) (m : recursive_mutex) :
  owner m = Some o -> o <> t -> try_lock t m = (false, m).
Proof.
  intros Ho Hne. unfold try_lock. rewrite Ho.
  destruct (Nat.eqb_spec o t); [contradiction | reflexivity].
Qed.

Lemma ReadTryLock_free (t : thread_id) (sd : SharedData T) :
  owner (mtx_ sd) = None -> fst (ReadTryLock t sd) = Ok (obj_ sd).
Proof. intros Ho. unfold ReadTryLock, try_lock. rewrite Ho. reflexivity. Qed.

Lemma WriteTryLock_keeps_mutex (w : thread_id) (obj : T) (sd : SharedData T) :
  owner (mtx_ sd) = None -> owner (mtx_ (WriteTryLock w obj sd)) = Some w.
Proof. intros Ho. unfold WriteTryLock, try_lock. rewrite Ho. reflexivity. Qed.

(** Once a thread has written with [WriteTryLock], which keeps the mutex,
    no read by another thread returns a value. *)
Lemma ReadTryLock_after_WriteTryLock (w r : thread_id) (obj : T) (sd : SharedData T) :
  owner (mtx_ sd) = None -> w <> r ->
  fst (ReadTryLock r (WriteTryLock w obj sd)) = Fail NoReturn.
Proof.
  intros Ho Hne. unfold ReadTryLock.
  rewrite (try_lock_contended r w); [reflexivity | | exact Hne].
  apply WriteTryLock_keeps_mutex. exact Ho.
Qed.

(** C4 (evaluation of the code).  When the mutex is held by another
    thread, [ReadTryLock] reaches the end of the function without a
    [return]: no value is delivered, and in particular not the one read
    last.  The shared data is left as it was. *)
Theorem ReadTryLock_contended_has_no_return
        (t o : thread_id) (sd : SharedData T) :
  owner (mtx_ sd) = Some o -> o <> t ->
  ReadTryLock t sd = (Fail NoReturn, sd).
Proof.
  intros Ho Hne. unfold ReadTryLock.
  rewrite (try_lock_contended t o _ Ho Hne).
  destruct sd; reflexivity.
Qed.

End SharedDataFacts.

(** A writer thread 1 publishes a snapshot with [WriteTryLock], which keeps
    the mutex; the read of thread 2 that follows has no return value. *)
Lemma ReadTryLock_contended_has_no_return_witness :
  ReadTryLock 2 (WriteTryLock 1 (Fin 1) (SharedData_new (Fin 0)))
  = (Fail NoReturn, WriteTryLock 1 (Fin 1) (SharedData_new (Fin 0))).
Proof.
  apply (ReadTryLock_contended_has_no_return 2 1); [reflexivity | lia].
Defined.

(** ** toolbox: Delete and PushBack *)

Section DeleteFacts.
Context {A : Type}.

(** The vector after [j] coefficients of the tail have been copied. *)
Definition shifted (idx j : nat) (v : list A) : list A :=
  take idx v ++ take j (drop (S idx) v) ++ drop (idx + j) v.

Lemma shifted_step (idx j : nat) (v : list A) :
  (idx + j + 1 < length v)%nat ->
  (x ← vget (shifted idx j v) (length v - (length v - idx - 1) + j);
   vset (idx + j) x (shifted idx j v)) = Ok (shifted idx (S j) v).
Proof.
  intros Hj.
  destruct (lookup_lt_is_Some_2 v (S (idx + j))) as [x Hx]; [lia |].
  destruct (lookup_lt_is_Some_2 v (idx + j)) as [y Hy]; [lia |].
  assert (Hd : drop (idx + j) v = y :: x :: drop (S (S (idx + j))) v).
  { rewrite (drop_S _ _ _ Hy), (drop_S _ _ _ Hx). reflexivity. }
  assert (Hread : shifted idx j v !! (length v - (length v - idx - 1) + j)%nat = Some x).
  { unfold shifted. replace (length v - (length v - idx - 1) + j)%nat with (idx + (j + 1))%nat by lia.
    rewrite lookup_app_r; rewrite length_take; [| lia].
    rewrite lookup_app_r; rewrite length_take, length_drop; [| lia].
    rewrite Hd.
    replace (idx + (j + 1) - idx `min` length v - j `min` (length v - S idx))%nat
      with 1%nat by lia.
    reflexivity. }
  rewrite (vget_lookup _ _ _ Hread). simpl.
  rewrite vset_in_range.
  2:{ unfold shifted. rewrite !length_app, !length_take, !length_drop. lia. }
  f_equal. unfold shifted.
  rewrite insert_app_r_alt; rewrite length_take; [| lia].
  rewrite insert_app_r_alt; rewrite length_take, length_drop; [| lia].
  replace (idx + j - idx `min` length v - j `min` (length v - S idx))%nat
    with 0%nat by lia.
  rewrite Hd. simpl.
  assert (Hxj : drop (S idx) v !! j = Some x).
  { rewrite lookup_drop. exact Hx. }
  rewrite (take_S_r _ _ _ Hxj), <- app_assoc. simpl.
  replace (idx + S j)%nat with (S (idx + j)) by lia.
  rewrite (drop_S _ _ _ Hx). reflexivity.
Qed.

Lemma copy_tail_to_segment_shifts (idx : nat) (v : list A) :
  (idx < length v)%nat ->
  copy_tail_to_segment idx (length v - idx - 1) v
  = Ok (shifted idx (length v - idx - 1) v).
Proof.
  intros Hidx. unfold copy_tail_to_segment.
  assert (H0 : shifted idx 0 v = v).
  { unfold shifted. simpl. rewrite Nat.add_0_r, take_drop. reflexivity. }
  set (body := fun (j : nat) (w : list A) =>
                 x ← vget w (length v - (length v - idx - 1) + j); vset (idx + j) x w).
  transitivity (for_loop body 0 (length v - idx - 1) (shifted idx 0 v)).
  { rewrite H0. reflexivity. }
  apply (for_loop_closed (fun j => shifted idx j v) body).
  intros k Hk. apply shifted_step. lia.
Qed.

Lemma Delete_in_range (idx : nat) (v : list A) :
  (idx < length v)%nat ->
  Delete (Z.of_nat idx) v = Ok (take idx v ++ drop (S idx) v).
Proof.
  intros Hidx. unfold Delete.
  assert (E1 : ((0 <=? Z.of_nat idx)%Z
                && (0 <=? Z.of_nat (length v) - Z.of_nat idx - 1)%Z
                && (Z.of_nat idx + (Z.of_nat (length v) - Z.of_nat idx - 1)
                    <=? Z.of_nat (length v))%Z) = true).
  { apply andb_true_intro; split; [apply andb_true_intro; split |]; apply Z.leb_le; lia. }
  assert (E2 : (0 <=? Z.of_nat (length v) - 1)%Z = true) by (apply Z.leb_le; lia).
  rewrite E1, E2. simpl.
  rewrite Nat2Z.id.
  replace (Z.to_nat (Z.of_nat (length v) - Z.of_nat idx - 1)) with (length v - idx - 1)%nat by lia.
  rewrite copy_tail_to_segment_shifts by assumption. simpl.
  f_equal. unfold shifted. rewrite app_assoc.
  rewrite take_app_length'.
  - rewrite (take_ge (drop (S idx) v)); [reflexivity |]. rewrite length_drop. lia.
  - rewrite length_app, !length_take, length_drop. lia.
Qed.

Lemma Delete_after_PushBack (v : list A) (x : A) :
  Delete (Z.of_nat (length v)) (PushBack x v) = Ok v.
Proof.
  rewrite Delete_in_range.
  - unfold PushBack. rewrite take_app_length.
    rewrite drop_ge; [apply f_equal, app_nil_r |].
    rewrite length_app. simpl. lia.
  - unfold PushBack. rewrite length_app. simpl. lia.
Qed.

(** C9.  [Delete] applied to the index of the coefficient just appended by
    [PushBack] gives the vector back; and for an index inside a vector of
    size [n], [Delete] returns the vector of size [n - 1] made of the
    coefficients before [idx] followed by those after it, in their order:
    coefficient [j] is unchanged for [j < idx] and is the old coefficient
    [j + 1] from [idx] on. *)
Theorem PushBack_Delete_roundtrip_and_removal :
  (forall (v : list A) (x : A),
      Delete (Z.of_nat (length v)) (PushBack x v) = Ok v) /\
  (forall (v : list A) (idx : Z),
      (0 <= idx < Z.of_nat (length v))%Z ->
      exists v',
        Delete idx v = Ok v' /\
        length v' = (length v - 1)%nat /\
        v' = take (Z.to_nat idx) v ++ drop (S (Z.to_nat idx)) v /\
        (forall j, (j < Z.to_nat idx)%nat -> v' !! j = v !! j) /\
        (forall j, (Z.to_nat idx <= j)%nat -> v' !! j = v !! S j)).
Proof.
  split; [apply Delete_after_PushBack |].
  intros v idx Hidx.
  exists (take (Z.to_nat idx) v ++ drop (S (Z.to_nat idx)) v).
  assert (Hi : (Z.to_nat idx < length v)%nat) by lia.
  split.
  { rewrite <- (Z2Nat.id idx) at 1 by lia. apply Delete_in_range. assumption. }
  split.
  { rewrite length_app, length_take, length_drop. lia. }
  split; [reflexivity |].
  split.
  - intros j Hj. rewrite lookup_app_l by (rewrite length_take; lia).
    apply lookup_take_lt. assumption.
  - intros j Hj. rewrite lookup_app_r; rewrite length_take; [| lia].
    rewrite lookup_drop. f_equal. lia.
Qed.

End DeleteFacts.

Lemma PushBack_Delete_roundtrip_and_removal_witness :
  exists v',
    Delete 1%Z [10%nat; 20%nat; 30%nat] = Ok v' /\
    length v' = 2%nat /\
    v' = [10%nat; 30%nat] /\
    (forall j, (j < 1)%nat -> v' !! j = [10%nat; 20%nat; 30%nat] !! j) /\
    (forall j, (1 <= j)%nat -> v' !! j = [10%nat; 20%nat; 30%nat] !! S j).
Proof.
  apply (proj2 (@PushBack_Delete_roundtrip_and_removal nat) [10%nat; 20%nat; 30%nat] 1%Z).
  simpl. lia.
Defined.

(** ** toolbox: CropData *)

Section CropDataFacts.
Variables dt dist_min : double.

(** Every row of a matrix has as many coefficients as the matrix has
    columns. *)
Definition matrix_wf (m : MatrixXd) : Prop :=
  Forall (fun r => length r = mcols m) (mrows m).

(** The rows to keep, in words: pair every row with its successor (the
    last row has none), keep the pairs whose rows are farther apart than
    [dt * dist_min], and take the first row of each pair. *)
Definition kept_rows (rs : list VectorXd) : list VectorXd :=
  (List.filter (fun p => moved dt dist_min p.1 p.2) (zip rs (tail rs))).*1.

Definition cropped (data : MatrixXd) (i : nat) : MatrixXd :=
  mkMatrix ((List.filter (fun p => moved dt dist_min p.1 p.2)
                         (take i (zip (mrows data) (tail (mrows data))))).*1)
           (mcols data).

Lemma lookup_zip_tail (rs : list VectorXd) (i : nat) (r0 r1 : VectorXd) :
  rs !! i = Some r0 -> rs !! S i = Some r1 ->
  zip rs (tail rs) !! i = Some (r0, r1).
Proof.
  intros H0 H1. apply lookup_zip_with_Some. exists r0, r1.
  rewrite lookup_tail. auto.
Qed.

Lemma length_zip_tail (rs : list VectorXd) :
  length (zip rs (tail rs)) = (length rs - 1)%nat.
Proof. rewrite length_zip_with, length_tl. lia. Qed.

Lemma CropData_step (data : MatrixXd) (i : nat) :
  matrix_wf data -> (i < rows data - 1)%nat ->
  (row_next ← vget (mrows data) (i + 1);
   row_i ← vget (mrows data) i;
   if moved dt dist_min row_i row_next
   then PushBack_row row_i (cropped data i)
   else Ok (cropped data i)) = Ok (cropped data (S i)).
Proof.
  intros Hwf Hi. unfold rows in Hi.
  destruct (lookup_lt_is_Some_2 (mrows data) i) as [r0 H0]; [lia |].
  destruct (lookup_lt_is_Some_2 (mrows data) (S i)) as [r1 H1]; [lia |].
  replace (i + 1)%nat with (S i) by lia.
  rewrite (vget_lookup _ _ _ H1). simpl.
  rewrite (vget_lookup _ _ _ H0). simpl.
  unfold cropped at 3.
  rewrite (take_S_r _ _ _ (lookup_zip_tail _ _ _ _ H0 H1)).
  rewrite List.filter_app, fmap_app. simpl.
  destruct (moved dt dist_min r0 r1).
  - unfold PushBack_row. simpl.
    assert (Hlen : length r0 = mcols data).
    { unfold matrix_wf in Hwf. rewrite Forall_lookup in Hwf. eapply Hwf; eauto. }
    rewrite Hlen, Nat.eqb_refl. reflexivity.
  - simpl. rewrite app_nil_r. reflexivity.
Qed.

Lemma CropData_loop (data : MatrixXd) :
  matrix_wf data ->
  for_loop
    (fun i d =>
       row_next ← vget (mrows data) (i + 1);
       row_i ← vget (mrows data) i;
       if moved dt dist_min row_i row_next then PushBack_row row_i d else Ok d)
    0 (rows data - 1) (mkMatrix [] (mcols data))
  = Ok (mkMatrix (kept_rows (mrows data)) (mcols data)).
Proof.
  intros Hwf.
  replace (mkMatrix (kept_rows (mrows data)) (mcols data))
    with (cropped data (rows data - 1)).
  - apply (for_loop_closed (cropped data)).
    intros k Hk. apply CropData_step; assumption.
  - unfold cropped, kept_rows, rows.
    rewrite take_ge; [reflexivity |]. rewrite length_zip_tail. lia.
Qed.

Lemma length_kept_rows (rs : list VectorXd) :
  (length (kept_rows rs) <= length rs - 1)%nat.
Proof.
  unfold kept_rows. rewrite length_fmap, <- length_zip_tail.
  apply List.filter_length_le.
Qed.

End CropDataFacts.

(** ** The tick of the mechanism manager *)

Arguments splice : simpl never.

Section ManagerFacts.
Context {vm_t : Type} `{VirtualMechanism vm_t}.
Variables robot_position robot_velocity : VectorXd.
Variable dt : double.

Local Abbreviation MM := (MechanismManager vm_t).

(** The per-mechanism containers have [vm_nb_] cells. *)
Record wf (m : MM) : Prop := mkWf {
  wf_vm_vector : length (vm_vector_ m) = vm_nb_ m;
  wf_scales : length (scales_ m) = vm_nb_ m;
  wf_phase : length (phase_ m) = vm_nb_ m;
  wf_vm_state : length (vm_state_ m) = vm_nb_ m;
  wf_vm_state_dot : length (vm_state_dot_ m) = vm_nb_ m;
  wf_active_guide : length (active_guide_ m) = vm_nb_ m
}.

(** The asserts at the entry of [Update]. *)
Record tick_pre (m : MM) (f_out : VectorXd) : Prop := mkPre {
  pre_position : length robot_position = dim_ m;
  pre_velocity : length robot_velocity = dim_ m;
  pre_dt : dgt dt (Fin 0) = true;
  pre_f_out : length f_out = dim_ m
}.

(** The mechanisms after [vm->Update], their raw scores, the weights and
    the force contribution of each. *)
Definition updated (m : MM) : list vm_t :=
  vm_Update robot_position robot_velocity dt <$> vm_vector_ m.

Definition raw_scores (m : MM) : VectorXd :=
  (fun vm => raw_score (prob_mode_ m) vm robot_position) <$> updated m.

Definition weight_of (m : MM) (vm : vm_t) : double :=
  weight (prob_mode_ m) vm robot_position
         (raw_score (prob_mode_ m) vm robot_position) (vsum (raw_scores m)).

Definition weights (m : MM) : VectorXd := weight_of m <$> updated m.

Definition contribution (m : MM) (vm : vm_t) : VectorXd :=
  svmul (weight_of m vm)
        (vm_force vm (getState vm) (getStateDot vm) robot_position robot_velocity).

Definition blended (m : MM) (f_out : VectorXd) : VectorXd :=
  foldl vadd (fill (length f_out) (Fin 0)) (contribution m <$> updated m).

(** The manager between the two passes and after the tick. *)
Definition scored (m : MM) : MM :=
  mkManager (dim_ m) (vm_nb_ m) (updated m) (vm_state_ m) (vm_state_dot_ m)
    (active_guide_ m) (use_weighted_dist_ m) (use_active_guide_ m)
    (raw_scores m) (getPhase <$> updated m) robot_position
    (prob_mode_ m) (sum_ m) (scale_threshold_ m).

Definition after_tick (m : MM) : MM :=
  mkManager (dim_ m) (vm_nb_ m) (updated m)
    (getState <$> updated m) (getStateDot <$> updated m)
    (active_guide_ m) (use_weighted_dist_ m) (use_active_guide_ m)
    (weights m) (getPhase <$> updated m) robot_position
    (prob_mode_ m) (vsum (raw_scores m)) (scale_threshold_ m).

Lemma score_loop (m : MM) :
  wf m ->
  for_loop (score_pass robot_position robot_velocity dt) 0 (vm_nb_ m)
           (with_robot_position robot_position m)
  = Ok (scored m).
Proof.
  intros [Hv Hs Hp _ _ _].
  set (U := vm_Update robot_position robot_velocity dt).
  set (R := fun vm => raw_score (prob_mode_ m) (U vm) robot_position).
  set (P := fun vm => getPhase (U vm)).
  set (F := fun k =>
    with_phase (splice P k (vm_vector_ m) (phase_ m))
      (with_scales (splice R k (vm_vector_ m) (scales_ m))
         (with_vm_vector (splice U k (vm_vector_ m) (vm_vector_ m))
            (with_robot_position robot_position m)))).
  assert (H0 : F 0%nat = with_robot_position robot_position m).
  { unfold F. rewrite !splice_0. destruct m; reflexivity. }
  assert (Hn : F (vm_nb_ m) = scored m).
  { assert (E : forall (B : Type) (f : vm_t -> B) (old : list B),
               length old = vm_nb_ m ->
               splice f (vm_nb_ m) (vm_vector_ m) old = f <$> vm_vector_ m).
    { intros B f old Ho. rewrite <- Hv at 1. apply splice_all. lia. }
    unfold F, scored, raw_scores, updated.
    rewrite !E by assumption.
    unfold R, P. rewrite <- !list_fmap_compose. destruct m; reflexivity. }
  rewrite <- H0, <- Hn.
  apply (for_loop_closed F). intros k Hk.
  destruct (lookup_lt_is_Some_2 (vm_vector_ m) k) as [vm Hvm]; [lia |].
  unfold score_pass, F. simpl.
  rewrite (vget_lookup _ _ vm) by (rewrite lookup_splice_old by lia; exact Hvm).
  simpl.
  rewrite (vset_splice U) by (auto; lia). simpl.
  change (raw_score (prob_mode_ m) (vm_Update robot_position robot_velocity dt vm)
                    robot_position) with (R vm).
  change (getPhase (vm_Update robot_position robot_velocity dt vm)) with (P vm).
  rewrite (vset_splice R k (vm_vector_ m) (scales_ m) vm) by (auto; lia). simpl.
  rewrite (vset_splice P k (vm_vector_ m) (phase_ m) vm) by (auto; lia). simpl.
  reflexivity.
Qed.

Lemma blend_loop (m : MM) (f_out : VectorXd) :
  wf m ->
  for_loop (blend_pass robot_position robot_velocity) 0 (vm_nb_ m)
           (with_sum (vsum (raw_scores m)) (scored m), fill (length f_out) (Fin 0))
  = Ok (after_tick m, blended m f_out).
Proof.
  intros [Hv Hs Hp Hst Hsd _].
  assert (Hu : length (updated m) = vm_nb_ m) by (unfold updated; rewrite length_fmap; exact Hv).
  set (m1 := with_sum (vsum (raw_scores m)) (scored m)).
  set (G := fun k =>
    (with_vm_state_dot (splice getStateDot k (updated m) (vm_state_dot_ m))
       (with_vm_state (splice getState k (updated m) (vm_state_ m))
          (with_scales (splice (weight_of m) k (updated m) (raw_scores m)) m1)),
     foldl vadd (fill (length f_out) (Fin 0)) (contribution m <$> take k (updated m)))).
  assert (H0 : G 0%nat = (m1, fill (length f_out) (Fin 0))).
  { unfold G. rewrite !splice_0. reflexivity. }
  assert (Hn : G (vm_nb_ m) = (after_tick m, blended m f_out)).
  { assert (E : forall (B : Type) (f : vm_t -> B) (old : list B),
               length old = vm_nb_ m ->
               splice f (vm_nb_ m) (updated m) old = f <$> updated m).
    { intros B f old Ho. rewrite <- Hu at 1. apply splice_all. lia. }
    unfold G, after_tick, blended, weights.
    rewrite !E by (try assumption; unfold raw_scores; rewrite length_fmap; exact Hu).
    rewrite take_ge by lia. reflexivity. }
  rewrite <- H0, <- Hn.
  apply (for_loop_closed G). intros k Hk.
  destruct (lookup_lt_is_Some_2 (updated m) k) as [vm Hvm]; [lia |].
  assert (Hraw : raw_scores m !! k = Some (raw_score (prob_mode_ m) vm robot_position)).
  { unfold raw_scores. rewrite list_lookup_fmap, Hvm. reflexivity. }
  assert (Hlr : length (raw_scores m) = length (updated m))
    by (unfold raw_scores; rewrite length_fmap; reflexivity).
  unfold blend_pass, G. simpl.
  rewrite (vget_lookup _ _ vm) by exact Hvm. simpl.
  rewrite (vget_lookup _ _ (raw_score (prob_mode_ m) vm robot_position))
    by (rewrite lookup_splice_old by lia; exact Hraw).
  simpl.
  change (weight (prob_mode_ m) vm robot_position
                 (raw_score (prob_mode_ m) vm robot_position) (vsum (raw_scores m)))
    with (weight_of m vm).
  rewrite (vset_splice (weight_of m) k (updated m) (raw_scores m) vm) by auto. simpl.
  rewrite (vset_splice getState k (updated m) (vm_state_ m) vm) by (auto; lia). simpl.
  rewrite (vset_splice getStateDot k (updated m) (vm_state_dot_ m) vm) by (auto; lia). simpl.
  rewrite (take_S_r _ _ _ Hvm), fmap_app, foldl_app. reflexivity.
Qed.

(** The tick in closed form: on a well-formed manager whose inputs pass
    the asserts, [Update] returns, and returns [after_tick] and
    [blended]. *)
Lemma Update_closed_form (m : MM) (f_out : VectorXd) :
  wf m -> tick_pre m f_out ->
  Update robot_position robot_velocity dt f_out m
  = Ok (after_tick m, blended m f_out).
Proof.
  intros Hwf [Hp Hv Hdt Hf]. unfold Update.
  apply Nat.eqb_eq in Hp, Hv, Hf.
  rewrite Hp, Hv, Hf, Hdt. simpl.
  rewrite (score_loop m Hwf). simpl.
  apply (blend_loop m f_out Hwf).
Qed.

End ManagerFacts.

(** ** A curve at rest, for concrete evaluations

    A mechanism whose readings are constants and whose [Update] leaves it
    unchanged. *)

Module Stub.

Record curve : Type := mkCurve {
  probability : double;
  distance : double;
  state : VectorXd;
  state_dot : VectorXd;
  K : double;
  B : double;
  phase : double;
  active : bool;
  forward : bool;
  weighted_dist : bool
}.

Definition set_active (b : bool) (c : curve) : curve :=
  mkCurve (probability c) (distance c) (state c) (state_dot c) (K c) (B c)
          (phase c) b (forward c) (weighted_dist c).

Definition set_forward (b : bool) (c : curve) : curve :=
  mkCurve (probability c) (distance c) (state c) (state_dot c) (K c) (B c)
          (phase c) (active c) b (weighted_dist c).

Definition set_weighted_dist (b : bool) (c : curve) : curve :=
  mkCurve (probability c) (distance c) (state c) (state_dot c) (K c) (B c)
          (phase c) (active c) (forward c) b.

#[global] Instance curve_vm : VirtualMechanism curve := {
  Init c := c;
  setWeightedDist := set_weighted_dist;
  moveForward := set_forward true;
  moveBackward := set_forward false;
  setActive := set_active;
  vm_Update _ _ _ c := c;
  getProbability c _ := probability c;
  getDistance c _ := distance c;
  getPhase := phase;
  getState := state;
  getStateDot := state_dot;
  getK := K;
  getB := B
}.

(** A mechanism with the given probability and distance, attracting
    towards (1,0,0) with unit stiffness and no damping. *)
Definition resting (p d : double) : curve :=
  mkCurve p d [Fin 1; Fin 0; Fin 0] [Fin 0; Fin 0; Fin 0] (Fin 1) (Fin 0)
          (Fin 0) false true false.

(** A manager holding the given mechanisms, as the constructor leaves it
    but for the mode, and the inputs of a tick at the origin. *)
Definition manager (mode : prob_mode_t) (vms : list curve) : MechanismManager curve :=
  mkManager 3 (length vms) vms
            (replicate (length vms) (fill 3 (Fin 0)))
            (replicate (length vms) (fill 3 (Fin 0)))
            (replicate (length vms) false)
            (replicate (length vms) false) (replicate (length vms) true)
            (fill (length vms) (Fin 0)) (fill (length vms) (Fin 0))
            (fill 3 (Fin 0)) mode (Fin 0)
            (dadd (ddiv (Fin 1) (of_nat (length vms))) (Fin (2 / 10))).

Definition origin : VectorXd := [Fin 0; Fin 0; Fin 0].
Definition dt : double := Fin (1 / 100).

End Stub.

Section StubFacts.

Lemma Stub_manager_wf (mode : prob_mode_t) (vms : list Stub.curve) :
  wf (Stub.manager mode vms).
Proof.
  constructor; simpl; unfold fill; rewrite ?length_replicate; reflexivity.
Qed.

Lemma Stub_tick_pre (mode : prob_mode_t) (vms : list Stub.curve) :
  tick_pre Stub.origin Stub.origin Stub.dt (Stub.manager mode vms) Stub.origin.
Proof.
  constructor; try reflexivity. apply dgt_Fin. lra.
Qed.

End StubFacts.

(** ** Potential mode *)

Section PotentialMode.
Context {vm_t : Type} `{VirtualMechanism vm_t}.
Variables robot_position robot_velocity : VectorXd.
Variable dt : double.

(** The score of Potential mode. *)
Definition potential (vm : vm_t) : double :=
  dexp (dmul (of_int (-10)) (getDistance vm robot_position)).

(** C3.  A tick in Potential mode returns; the raw score of each
    mechanism, taken after its own update, is [exp(-10 * distance)]; the
    scale left in [scales_] is that raw score, not divided by the sum; and
    the force returned is the sum, over the mechanisms in order and
    starting from the zero vector, of
    [scale * (K * (state - position) + B * (state_dot - velocity))]. *)
Theorem Update_in_POTENTIAL_mode (m : MechanismManager vm_t) (f_out : VectorXd) :
  wf m -> tick_pre robot_position robot_velocity dt m f_out ->
  prob_mode_ m = POTENTIAL ->
  exists m' f',
    Update robot_position robot_velocity dt f_out m = Ok (m', f') /\
    vm_vector_ m' = vm_Update robot_position robot_velocity dt <$> vm_vector_ m /\
    raw_scores robot_position robot_velocity dt m = potential <$> vm_vector_ m' /\
    scales_ m' = potential <$> vm_vector_ m' /\
    f' = foldl vadd (fill (length f_out) (Fin 0))
           ((fun vm =>
               svmul (potential vm)
                     (vadd (svmul (getK vm) (vsub (getState vm) robot_position))
                           (svmul (getB vm) (vsub (getStateDot vm) robot_velocity))))
              <$> vm_vector_ m').
Proof.
  intros Hwf Hpre Hmode.
  exists (after_tick robot_position robot_velocity dt m),
         (blended robot_position robot_velocity dt m f_out).
  split; [apply Update_closed_form; assumption |].
  simpl. unfold blended, weights, raw_scores, contribution, weight_of, vm_force.
  rewrite Hmode. simpl. repeat split; reflexivity.
Qed.

End PotentialMode.

(** Scenario S1 of the specification, in three dimensions: one mechanism
    at distance 0 attracting towards (1,0,0). *)
Lemma Update_in_POTENTIAL_mode_witness :
  exists m' f',
    Update Stub.origin Stub.origin Stub.dt Stub.origin
           (Stub.manager POTENTIAL [Stub.resting (Fin 0) (Fin 0)]) = Ok (m', f') /\
    vm_vector_ m' = vm_Update Stub.origin Stub.origin Stub.dt
                      <$> [Stub.resting (Fin 0) (Fin 0)] /\
    raw_scores Stub.origin Stub.origin Stub.dt
               (Stub.manager POTENTIAL [Stub.resting (Fin 0) (Fin 0)])
    = potential Stub.origin <$> vm_vector_ m' /\
    scales_ m' = potential Stub.origin <$> vm_vector_ m' /\
    f' = foldl vadd (fill 3 (Fin 0))
           ((fun vm =>
               svmul (potential Stub.origin vm)
                     (vadd (svmul (getK vm) (vsub (getState vm) Stub.origin))
                           (svmul (getB vm) (vsub (getStateDot vm) Stub.origin))))
              <$> vm_vector_ m').
Proof.
  apply (Update_in_POTENTIAL_mode Stub.origin Stub.origin Stub.dt
           (Stub.manager POTENTIAL [Stub.resting (Fin 0) (Fin 0)]) Stub.origin).
  - apply Stub_manager_wf.
  - apply Stub_tick_pre.
  - reflexivity.
Defined.

(** ** Sums of doubles *)

Section Sums.
Local Open Scope R_scope.

(** The real value of a finite double, and the sum of a list of reals. *)
Definition fin_part (x : double) : R :=
  match x with
  | Fin r => r
  | _ => 0
  end.

Definition Rsum (l : list R) : R := foldr Rplus 0 l.

Lemma Rsum_nil : Rsum [] = 0.
Proof. reflexivity. Qed.

Lemma Rsum_cons (x : R) (l : list R) : Rsum (x :: l) = x + Rsum l.
Proof. reflexivity. Qed.

Lemma foldl_dadd_Fin (a : R) (l : list R) :
  foldl dadd (Fin a) (Fin <$> l) = Fin (a + Rsum l).
Proof.
  revert a. induction l as [| x l IH]; intros a; simpl.
  - f_equal. lra.
  - rewrite IH. f_equal. lra.
Qed.

Lemma vsum_Fin (l : list R) : vsum (Fin <$> l) = Fin (Rsum l).
Proof.
  destruct l as [| x l]; simpl; [reflexivity |]. apply foldl_dadd_Fin.
Qed.

Lemma Rsum_fmap_div {A} (f : A -> R) (s : R) (l : list A) :
  Rsum ((fun x => f x / s) <$> l) = Rsum (f <$> l) / s.
Proof.
  induction l as [| x l IH]; rewrite ?fmap_nil, ?fmap_cons, ?Rsum_nil, ?Rsum_cons.
  - unfold Rdiv. ring.
  - rewrite IH. unfold Rdiv. ring.
Qed.

Lemma Rsum_fmap_nonneg {A} (f : A -> R) (l : list A) :
  (forall x, x ∈ l -> 0 <= f x) -> 0 <= Rsum (f <$> l).
Proof.
  induction l as [| x l IH]; intros Hf;
    rewrite ?fmap_nil, ?fmap_cons, ?Rsum_nil, ?Rsum_cons; [lra |].
  assert (0 <= f x) by (apply Hf; left).
  assert (0 <= Rsum (f <$> l)) by (apply IH; intros y Hy; apply Hf; right; exact Hy).
  lra.
Qed.

Lemma Rsum_fmap_pos {A} (f : A -> R) (l : list A) (x : A) :
  (forall y, y ∈ l -> 0 <= f y) -> x ∈ l -> 0 < f x -> 0 < Rsum (f <$> l).
Proof.
  induction l as [| y l IH]; intros Hf Hx Hpos; [inversion Hx |].
  rewrite fmap_cons, Rsum_cons.
  assert (0 <= f y) by (apply Hf; left).
  assert (0 <= Rsum (f <$> l))
    by (apply Rsum_fmap_nonneg; intros z Hz; apply Hf; right; exact Hz).
  apply elem_of_cons in Hx as [-> | Hx]; [lra |].
  assert (0 < Rsum (f <$> l)); [| lra].
  apply IH; auto. intros z Hz. apply Hf. right. exact Hz.
Qed.

Lemma Rsum_fmap_le {A} (f g : A -> R) (l : list A) :
  (forall x, x ∈ l -> f x <= g x) -> Rsum (f <$> l) <= Rsum (g <$> l).
Proof.
  induction l as [| x l IH]; intros Hfg;
    rewrite ?fmap_nil, ?fmap_cons, ?Rsum_nil, ?Rsum_cons; [lra |].
  assert (f x <= g x) by (apply Hfg; left).
  assert (Rsum (f <$> l) <= Rsum (g <$> l))
    by (apply IH; intros y Hy; apply Hfg; right; exact Hy).
  lra.
Qed.

(** A list of doubles that are all finite is the image of their values. *)
Lemma fmap_all_Fin {A} (f : A -> double) (g : A -> R) (l : list A) :
  (forall x, x ∈ l -> f x = Fin (g x)) -> f <$> l = Fin <$> (g <$> l).
Proof.
  intros Hf. rewrite <- list_fmap_compose. apply list_fmap_ext.
  intros i x Hx. apply Hf. apply list_elem_of_lookup. eauto.
Qed.

Lemma vsum_all_Fin {A} (f : A -> double) (g : A -> R) (l : list A) :
  (forall x, x ∈ l -> f x = Fin (g x)) -> vsum (f <$> l) = Fin (Rsum (g <$> l)).
Proof. intros Hf. rewrite (fmap_all_Fin f g l Hf). apply vsum_Fin. Qed.

Lemma Rsum_all_zero {A} (g : A -> R) (l : list A) :
  (forall x, x ∈ l -> g x = 0) -> Rsum (g <$> l) = 0.
Proof.
  induction l as [| x l IH]; intros Hg;
    rewrite ?fmap_nil, ?fmap_cons, ?Rsum_nil, ?Rsum_cons; [reflexivity |].
  rewrite Hg by left. rewrite IH; [lra |]. intros y Hy. apply Hg. right. exact Hy.
Qed.

(** Vectors of NaN. *)
Definition all_NaN (v : VectorXd) : Prop := forall x, x ∈ v -> x = NaN.

Lemma svmul_NaN (v : VectorXd) : all_NaN (svmul NaN v).
Proof.
  intros x Hx. unfold svmul in Hx. apply list_elem_of_fmap in Hx as (y & -> & _).
  reflexivity.
Qed.

Lemma vadd_all_NaN_l (a b : VectorXd) : all_NaN a -> all_NaN (vadd a b).
Proof.
  intros Ha x Hx. unfold vadd in Hx.
  apply elem_of_zip_with in Hx as (y & z & -> & Hy & _).
  rewrite (Ha y Hy). reflexivity.
Qed.

Lemma vadd_all_NaN_r (a b : VectorXd) : all_NaN b -> all_NaN (vadd a b).
Proof.
  intros Hb x Hx. unfold vadd in Hx.
  apply elem_of_zip_with in Hx as (y & z & -> & _ & Hz).
  rewrite (Hb z Hz). apply dadd_NaN_r.
Qed.

Lemma foldl_vadd_all_NaN (acc : VectorXd) (cs : list VectorXd) :
  (all_NaN acc \/ cs <> []) -> (forall c, c ∈ cs -> all_NaN c) ->
  all_NaN (foldl vadd acc cs).
Proof.
  revert acc. induction cs as [| c cs IH]; intros acc Hacc Hcs; simpl.
  - destruct Hacc as [Hacc | Hne]; [exact Hacc | contradiction].
  - apply IH.
    + left. destruct Hacc as [Hacc | _].
      * apply vadd_all_NaN_l. exact Hacc.
      * apply vadd_all_NaN_r. apply Hcs. left.
    + intros c' Hc'. apply Hcs. right. exact Hc'.
Qed.

End Sums.

(** ** toolbox: the rows that CropData keeps *)

Section CropDataCriterion.
Variables dt dist_min : double.
Local Open Scope R_scope.

(** The Euclidean distance between two rows of real numbers. *)
Definition euclidean_distance (x y : list R) : R :=
  sqrt (Rsum (zip_with (fun a b => (b - a) * (b - a)) x y)).

Lemma Rsum_zip_with_nonneg (f : R -> R -> R) (x y : list R) :
  (forall a b, 0 <= f a b) -> 0 <= Rsum (zip_with f x y).
Proof.
  intros Hf. revert y. induction x as [| a x IH]; intros [| b y]; cbn [zip_with];
    rewrite ?Rsum_nil, ?Rsum_cons; try lra.
  pose proof (Hf a b). pose proof (IH y). lra.
Qed.

Lemma squares_of_difference (x y : list R) :
  (fun z => dmul z z) <$> vsub (Fin <$> y) (Fin <$> x)
  = Fin <$> zip_with (fun a b => (b - a) * (b - a)) x y.
Proof.
  unfold vsub. revert y. induction x as [| a x IH]; intros [| b y]; simpl;
    try reflexivity.
  change (list_fmap double double ?f ?l) with (f <$> l).
  change (list_fmap R double ?f ?l) with (f <$> l).
  rewrite (IH y). reflexivity.
Qed.

Lemma norm_of_difference (x y : list R) :
  norm (vsub (Fin <$> y) (Fin <$> x)) = Fin (euclidean_distance x y).
Proof.
  unfold norm, squaredNorm. rewrite squares_of_difference, vsum_Fin.
  unfold dsqrt, euclidean_distance.
  assert (E : Rltb (Rsum (zip_with (fun a b => (b - a) * (b - a)) x y)) 0 = false).
  { apply Rltb_false. apply Rle_not_lt. apply Rsum_zip_with_nonneg.
    intros a b. apply Rle_0_sqr. }
  rewrite E. reflexivity.
Qed.

Lemma filter_sublist {A} (P : A -> bool) (l : list A) :
  sublist (List.filter P l) l.
Proof.
  induction l as [| x l IH]; simpl; [constructor |].
  destruct (P x); [apply sublist_skip | apply sublist_cons]; exact IH.
Qed.

Lemma fst_zip_tail {A} (l : list A) :
  (zip l (tail l)).*1 = take (length l - 1)%nat l.
Proof.
  assert (G : forall (l k : list A), (zip l k).*1 = take (length k) l).
  { clear l. induction l as [| x l IH]; intros [| y k]; simpl; try reflexivity.
    f_equal. apply IH. }
  rewrite G, length_tl. reflexivity.
Qed.

(** C10.  On a matrix (with or without rows) [CropData] returns.  Pair
    every row [i] with its successor [i + 1]; the last row has none.  The
    new content of [data] has the same columns and holds, in their order,
    exactly the rows [i] of the pairs for which the norm of
    [row(i+1) - row(i)] is greater than [dt * dist_min]; it is a sublist
    of the rows without the last one, which is never kept, whatever it
    holds.  The flag returned is false exactly when no row is kept.  For
    rows of finite numbers and a finite threshold [c], the test of a pair
    holds exactly when [c] is less than the Euclidean distance
    [sqrt (sum_j (row(i+1)_j - row(i)_j)^2)] between the two rows. *)
Theorem CropData_keeps_rows_that_moved (data : MatrixXd) :
  matrix_wf data ->
  exists (flag : bool) (out : MatrixXd),
    CropData data dt dist_min = Ok (flag, out) /\
    mcols out = mcols data /\
    mrows out
    = (List.filter (fun p => dgt (norm (vsub p.2 p.1)) (dmul dt dist_min))
                   (zip (mrows data) (tail (mrows data)))).*1 /\
    sublist (mrows out) (take (rows data - 1)%nat (mrows data)) /\
    (rows out <= rows data - 1)%nat /\
    (flag = false <-> rows out = 0%nat) /\
    (forall (i : nat) (x y : list R) (c : R),
        mrows data !! i = Some (Fin <$> x) ->
        mrows data !! S i = Some (Fin <$> y) ->
        dmul dt dist_min = Fin c ->
        dgt (norm (vsub (Fin <$> y) (Fin <$> x))) (dmul dt dist_min) = true
        <-> c < euclidean_distance x y).
Proof.
  intros Hwf. unfold CropData.
  rewrite (CropData_loop dt dist_min data Hwf). cbn [mbind exec_bind].
  set (kept := kept_rows dt dist_min (mrows data)).
  assert (Hsub : sublist kept (take (rows data - 1)%nat (mrows data))).
  { unfold kept, kept_rows, rows. rewrite <- fst_zip_tail.
    apply fmap_sublist, filter_sublist. }
  assert (Hlen : (length kept <= rows data - 1)%nat).
  { unfold kept. apply length_kept_rows. }
  assert (Hreal : forall (i : nat) (x y : list R) (c : R),
             mrows data !! i = Some (Fin <$> x) ->
             mrows data !! S i = Some (Fin <$> y) ->
             dmul dt dist_min = Fin c ->
             dgt (norm (vsub (Fin <$> y) (Fin <$> x))) (dmul dt dist_min) = true
             <-> c < euclidean_distance x y).
  { intros i x y c _ _ Hc. rewrite Hc, norm_of_difference. apply dgt_Fin. }
  exists (negb (Nat.eqb (length kept) 0)), (mkMatrix kept (mcols data)).
  split.
  { unfold rows. simpl. destruct (Nat.eqb (length kept) 0); reflexivity. }
  split; [reflexivity |].
  split; [reflexivity |].
  split; [exact Hsub |].
  split; [exact Hlen |].
  split; [| exact Hreal].
  unfold rows. simpl. destruct (Nat.eqb_spec (length kept) 0) as [E | E]; simpl.
  - split; auto.
  - split; [discriminate | intros E'; contradiction].
Qed.

End CropDataCriterion.

Lemma CropData_keeps_rows_that_moved_witness :
  exists (flag : bool) (out : MatrixXd),
    CropData (mkMatrix [[Fin 0; Fin 0]; [Fin 3; Fin 4]; [Fin 3; Fin 4]] 2)
             CropData_dt_default CropData_dist_min_default = Ok (flag, out) /\
    mcols out = 2%nat /\
    mrows out
    = (List.filter (fun p => dgt (norm (vsub p.2 p.1))
                                 (dmul CropData_dt_default CropData_dist_min_default))
                   (zip [[Fin 0; Fin 0]; [Fin 3; Fin 4]; [Fin 3; Fin 4]]
                        (tail [[Fin 0; Fin 0]; [Fin 3; Fin 4]; [Fin 3; Fin 4]]))).*1 /\
    sublist (mrows out) (take 2 [[Fin 0; Fin 0]; [Fin 3; Fin 4]; [Fin 3; Fin 4]]) /\
    (rows out <= 2)%nat /\
    (flag = false <-> rows out = 0%nat) /\
    (forall (i : nat) (x y : list R) (c : R),
        [[Fin 0; Fin 0]; [Fin 3; Fin 4]; [Fin 3; Fin 4]] !! i = Some (Fin <$> x) ->
        [[Fin 0; Fin 0]; [Fin 3; Fin 4]; [Fin 3; Fin 4]] !! S i = Some (Fin <$> y) ->
        dmul CropData_dt_default CropData_dist_min_default = Fin c ->
        dgt (norm (vsub (Fin <$> y) (Fin <$> x)))
            (dmul CropData_dt_default CropData_dist_min_default) = true
        <-> (c < euclidean_distance x y)%R).
Proof.
  apply (CropData_keeps_rows_that_moved CropData_dt_default CropData_dist_min_default
           (mkMatrix [[Fin 0; Fin 0]; [Fin 3; Fin 4]; [Fin 3; Fin 4]] 2)).
  unfold matrix_wf. simpl. repeat constructor.
Defined.

(** ** Hard mode with scores that are all zero *)

Section HardZero.
Context {vm_t : Type} `{VirtualMechanism vm_t}.
Variables robot_position robot_velocity : VectorXd.
Variable dt : double.

(** C2 (evaluation of the code).  In a tick in Hard mode in which every
    mechanism has the raw score 0, the sum is 0 and the normalisation
    divides 0 by 0: every scale left in [scales_] is NaN, and so is every
    coefficient of the force returned. *)
Theorem Update_HARD_zero_scores_gives_NaN (m : MechanismManager vm_t) (f_out : VectorXd) :
  wf m -> tick_pre robot_position robot_velocity dt m f_out ->
  prob_mode_ m = HARD ->
  (1 <= vm_nb_ m)%nat ->
  (forall vm, vm ∈ updated robot_position robot_velocity dt m ->
              getProbability vm robot_position = Fin 0) ->
  exists m' f',
    Update robot_position robot_velocity dt f_out m = Ok (m', f') /\
    sum_ m' = Fin 0 /\
    length (scales_ m') = vm_nb_ m /\
    (forall w, w ∈ scales_ m' -> w = NaN) /\
    (forall x, x ∈ f' -> x = NaN).
Proof.
  intros Hwf Hpre Hmode Hnb Hzero.
  exists (after_tick robot_position robot_velocity dt m),
         (blended robot_position robot_velocity dt m f_out).
  split; [apply Update_closed_form; assumption |].
  assert (Hsum : vsum (raw_scores robot_position robot_velocity dt m) = Fin 0).
  { unfold raw_scores. rewrite Hmode. simpl.
    rewrite (vsum_all_Fin _ (fun _ => 0%R)) by exact Hzero.
    f_equal. apply Rsum_all_zero. reflexivity. }
  assert (Hw : forall vm, vm ∈ updated robot_position robot_velocity dt m ->
                          weight_of robot_position robot_velocity dt m vm = NaN).
  { intros vm Hvm. unfold weight_of. rewrite Hsum, Hmode. simpl raw_score. simpl weight.
    rewrite (Hzero vm Hvm). apply ddiv_zero_zero. }
  simpl. split; [exact Hsum |].
  split.
  { unfold weights, updated. rewrite !length_fmap. apply Hwf. }
  split.
  - intros w Hin. unfold weights in Hin.
    apply list_elem_of_fmap in Hin as (vm & -> & Hvm). apply Hw. exact Hvm.
  - apply foldl_vadd_all_NaN.
    + right. intros Hnil. apply (f_equal length) in Hnil.
      unfold updated in Hnil. rewrite !length_fmap in Hnil.
      rewrite (wf_vm_vector _ Hwf) in Hnil. simpl in Hnil. lia.
    + intros c Hc. apply list_elem_of_fmap in Hc as (vm & -> & Hvm).
      unfold contribution. rewrite (Hw vm Hvm). apply svmul_NaN.
Qed.

End HardZero.

(** One mechanism with probability 0 in Hard mode. *)
Lemma Update_HARD_zero_scores_gives_NaN_witness :
  exists m' f',
    Update Stub.origin Stub.origin Stub.dt Stub.origin
           (Stub.manager HARD [Stub.resting (Fin 0) (Fin 1)]) = Ok (m', f') /\
    sum_ m' = Fin 0 /\
    length (scales_ m') = 1%nat /\
    (forall w, w ∈ scales_ m' -> w = NaN) /\
    (forall x, x ∈ f' -> x = NaN).
Proof.
  apply (Update_HARD_zero_scores_gives_NaN Stub.origin Stub.origin Stub.dt
           (Stub.manager HARD [Stub.resting (Fin 0) (Fin 1)]) Stub.origin).
  - apply Stub_manager_wf.
  - apply Stub_tick_pre.
  - reflexivity.
  - simpl. lia.
  - intros vm Hvm. simpl in Hvm. apply list_elem_of_singleton in Hvm. subst vm. reflexivity.
Defined.

(** ** Hard and Soft modes with a positive score *)

Section Normalisation.
Context {vm_t : Type} `{VirtualMechanism vm_t}.
Variables robot_position robot_velocity : VectorXd.
Variable dt : double.
Local Open Scope R_scope.

Lemma exp_nonpos_le_1 (x : R) : x <= 0 -> exp x <= 1.
Proof.
  intros [Hlt | ->].
  - left. rewrite <- exp_0. apply exp_increasing. exact Hlt.
  - right. apply exp_0.
Qed.

Lemma div_nonneg (a s : R) : 0 <= a -> 0 < s -> 0 <= a / s.
Proof.
  intros Ha Hs. unfold Rdiv. apply Rmult_le_pos; [exact Ha |].
  left. apply Rinv_0_lt_compat. exact Hs.
Qed.

(** The real value of the scale that the normalisation pass leaves for a
    mechanism of probability [p] and distance [d], when the sum of the
    probabilities is [s]. *)
Definition normalised (mode : prob_mode_t) (p d s : R) : R :=
  match mode with
  | HARD => p / s
  | POTENTIAL => p
  | SOFT => exp (-10 * d) * p / s
  end.

(** C1 (as amended).  In a tick in Hard or Soft mode in which the raw
    scores are finite and non-negative and at least one is positive (and,
    in Soft mode, the distances are finite and non-negative), the tick
    returns, every scale left by the normalisation pass is finite and
    non-negative, and the scales add up to a value between 0 and 1: to 1
    in Hard mode, and in Soft mode to the sum of
    [exp(-10 * distance_i) * score_i] divided by the sum of the scores.
    Mechanism by mechanism, the scale is [score_i / sum] in Hard mode and
    [exp(-10 * distance_i) * score_i / sum] in Soft mode. *)
Theorem Update_normalised_scales (m : MechanismManager vm_t) (f_out : VectorXd) :
  wf m -> tick_pre robot_position robot_velocity dt m f_out ->
  prob_mode_ m = HARD \/ prob_mode_ m = SOFT ->
  (forall vm, vm ∈ updated robot_position robot_velocity dt m ->
     exists p, getProbability vm robot_position = Fin p /\ 0 <= p) ->
  (exists vm p, vm ∈ updated robot_position robot_velocity dt m /\
     getProbability vm robot_position = Fin p /\ 0 < p) ->
  (prob_mode_ m = SOFT ->
   forall vm, vm ∈ updated robot_position robot_velocity dt m ->
     exists d, getDistance vm robot_position = Fin d /\ 0 <= d) ->
  exists m' f' total,
    Update robot_position robot_velocity dt f_out m = Ok (m', f') /\
    (forall w, w ∈ scales_ m' -> exists r, w = Fin r /\ 0 <= r) /\
    vsum (scales_ m') = Fin total /\
    0 <= total <= 1 /\
    (prob_mode_ m = HARD -> total = 1) /\
    (prob_mode_ m = SOFT ->
     total =
       Rsum ((fun vm => exp (-10 * fin_part (getDistance vm robot_position))
                        * fin_part (getProbability vm robot_position))
               <$> vm_vector_ m')
       / Rsum ((fun vm => fin_part (getProbability vm robot_position))
                 <$> vm_vector_ m')) /\
    scales_ m'
    = Fin <$> ((fun vm =>
                  normalised (prob_mode_ m)
                    (fin_part (getProbability vm robot_position))
                    (fin_part (getDistance vm robot_position))
                    (Rsum ((fun vm => fin_part (getProbability vm robot_position))
                             <$> vm_vector_ m')))
                 <$> vm_vector_ m').
Proof.
  intros Hwf Hpre Hmode Hscore Hpos Hdist.
  set (L := updated robot_position robot_velocity dt m) in *.
  set (p := fun vm => fin_part (getProbability vm robot_position)).
  set (d := fun vm => fin_part (getDistance vm robot_position)).
  set (S := Rsum (p <$> L)).
  set (r := fun vm => normalised (prob_mode_ m) (p vm) (d vm) S).
  assert (Hp : forall vm, vm ∈ L -> getProbability vm robot_position = Fin (p vm) /\ 0 <= p vm).
  { intros vm Hvm. destruct (Hscore vm Hvm) as (q & Hq & Hq0).
    unfold p. rewrite Hq. simpl. auto. }
  assert (HS : 0 < S).
  { destruct Hpos as (vm & q & Hvm & Hq & Hq0).
    apply (Rsum_fmap_pos p L vm); [intros y Hy; apply Hp; exact Hy | exact Hvm |].
    unfold p. rewrite Hq. exact Hq0. }
  assert (Hraw : forall vm, vm ∈ L -> raw_score (prob_mode_ m) vm robot_position = Fin (p vm)).
  { intros vm Hvm. destruct Hmode as [-> | ->]; simpl; apply Hp; exact Hvm. }
  assert (Hsum : vsum (raw_scores robot_position robot_velocity dt m) = Fin S).
  { unfold raw_scores. fold L. apply vsum_all_Fin. exact Hraw. }
  assert (Hw : forall vm, vm ∈ L ->
                 weight_of robot_position robot_velocity dt m vm = Fin (r vm)).
  { intros vm Hvm. unfold weight_of. rewrite Hsum, (Hraw vm Hvm). unfold r.
    destruct Hmode as [Hm | Hm]; rewrite Hm; simpl weight; simpl normalised.
    - apply ddiv_Fin. lra.
    - destruct (Hdist Hm vm Hvm) as (dd & Hdd & _).
      unfold d. rewrite Hdd. simpl.
      assert (E : Reqb S 0 = false) by (apply Reqb_false; lra).
      rewrite E. reflexivity. }
  assert (Hr0 : forall vm, vm ∈ L -> 0 <= r vm <= p vm / S).
  { intros vm Hvm. destruct (Hp vm Hvm) as [_ Hp0].
    pose proof (div_nonneg _ _ Hp0 HS) as Hq.
    unfold r. destruct Hmode as [Hm | Hm]; rewrite Hm; simpl normalised.
    - lra.
    - destruct (Hdist Hm vm Hvm) as (dd & Hdd & Hdd0).
      assert (He : 0 < exp (-10 * d vm) <= 1).
      { split; [apply exp_pos |]. apply exp_nonpos_le_1.
        unfold d. rewrite Hdd. simpl. lra. }
      unfold Rdiv in *. rewrite Rmult_assoc. nra. }
  assert (Hone : Rsum ((fun vm => p vm / S) <$> L) = 1).
  { rewrite Rsum_fmap_div. fold S. field. lra. }
  exists (after_tick robot_position robot_velocity dt m),
         (blended robot_position robot_velocity dt m f_out),
         (Rsum (r <$> L)).
  split; [apply Update_closed_form; assumption |].
  simpl. fold L. unfold weights. fold L.
  split.
  { intros w Hin. apply list_elem_of_fmap in Hin as (vm & -> & Hvm).
    exists (r vm). split; [apply Hw; exact Hvm | apply Hr0; exact Hvm]. }
  split; [apply vsum_all_Fin; exact Hw |].
  split.
  { split.
    - apply Rsum_fmap_nonneg. intros vm Hvm. apply Hr0. exact Hvm.
    - rewrite <- Hone. apply Rsum_fmap_le. intros vm Hvm. apply Hr0. exact Hvm. }
  split; [| split].
  - intros Hm. rewrite <- Hone. unfold r. rewrite Hm. reflexivity.
  - intros Hm. unfold r. rewrite Hm. simpl normalised.
    rewrite (Rsum_fmap_div (fun vm => exp (-10 * d vm) * p vm) S L). reflexivity.
  - apply (fmap_all_Fin _ r L). exact Hw.
Qed.

End Normalisation.

(** Scenario S2 of the specification: probabilities 0.2 and 0.8 in Hard
    mode. *)
Lemma Update_normalised_scales_witness :
  exists m' f' total,
    Update Stub.origin Stub.origin Stub.dt Stub.origin
           (Stub.manager HARD [Stub.resting (Fin (2/10)) (Fin 0);
                               Stub.resting (Fin (8/10)) (Fin 0)]) = Ok (m', f') /\
    (forall w, w ∈ scales_ m' -> exists r, w = Fin r /\ (0 <= r)%R) /\
    vsum (scales_ m') = Fin total /\
    (0 <= total <= 1)%R /\
    (HARD = HARD -> total = 1%R) /\
    (HARD = SOFT ->
     total =
       (Rsum ((fun vm => exp (-10 * fin_part (getDistance vm Stub.origin))
                         * fin_part (getProbability vm Stub.origin))
                <$> vm_vector_ m')
        / Rsum ((fun vm => fin_part (getProbability vm Stub.origin))
                  <$> vm_vector_ m'))%R) /\
    scales_ m'
    = Fin <$> ((fun vm =>
                  normalised HARD
                    (fin_part (getProbability vm Stub.origin))
                    (fin_part (getDistance vm Stub.origin))
                    (Rsum ((fun vm => fin_part (getProbability vm Stub.origin))
                             <$> vm_vector_ m')))
                 <$> vm_vector_ m').
Proof.
  apply (Update_normalised_scales Stub.origin Stub.origin Stub.dt
           (Stub.manager HARD [Stub.resting (Fin (2/10)) (Fin 0);
                               Stub.resting (Fin (8/10)) (Fin 0)]) Stub.origin).
  - apply Stub_manager_wf.
  - apply Stub_tick_pre.
  - left. reflexivity.
  - intros vm Hvm. simpl in Hvm.
    apply elem_of_cons in Hvm as [-> | Hvm];
      [| apply list_elem_of_singleton in Hvm; subst vm];
      eexists; (split; [reflexivity | lra]).
  - exists (Stub.resting (Fin (2/10)) (Fin 0)), (2/10)%R.
    split; [left | split; [reflexivity | lra]].
  - intros Hm. discriminate Hm.
Defined.

(** C1 (counterexample).  In Soft mode one mechanism with probability 1
    at distance 1 has a positive raw score, and the scale left by the
    normalisation pass is [exp(-10)], so the scales do not add up to 1. *)
Lemma Update_SOFT_scales_do_not_sum_to_1 :
  exists m' f',
    Update Stub.origin Stub.origin Stub.dt Stub.origin
           (Stub.manager SOFT [Stub.resting (Fin 1) (Fin 1)]) = Ok (m', f') /\
    raw_scores Stub.origin Stub.origin Stub.dt
               (Stub.manager SOFT [Stub.resting (Fin 1) (Fin 1)]) = [Fin 1] /\
    scales_ m' = [Fin (exp (-10 * 1) * 1 / 1)] /\
    vsum (scales_ m') <> Fin 1.
Proof.
  eexists _, _.
  split; [apply Update_closed_form; [apply Stub_manager_wf | apply Stub_tick_pre] |].
  split; [reflexivity |].
  assert (E : Reqb 1 0 = false) by (apply Reqb_false; lra).
  assert (Hs : scales_ (after_tick Stub.origin Stub.origin Stub.dt
                          (Stub.manager SOFT [Stub.resting (Fin 1) (Fin 1)]))
               = [Fin (exp (-10 * 1) * 1 / 1)]).
  { cbn. rewrite E. reflexivity. }
  split; [exact Hs |].
  rewrite Hs. simpl. intros Heq. injection Heq as Heq.
  assert (Hlt : (exp (-10 * 1) < 1)%R).
  { pose proof (exp_increasing (-10 * 1) 0) as Hi.
    rewrite exp_0 in Hi. apply Hi. lra. }
  lra.
Qed.

(** ** What every tick leaves unchanged *)

Lemma vset_Ok_inv {A} (i : nat) (x : A) (v v' : list A) :
  vset i x v = Ok v' -> v' = <[i:=x]> v.
Proof. unfold vset. destruct (decide (i < length v)%nat); [congruence | discriminate]. Qed.

Lemma for_loop_invariant {St} (I : nat -> St -> Prop) (body : nat -> St -> exec St)
      (n i : nat) (s s' : St) :
  (forall k t t', body k t = Ok t' -> I k t -> I (S k) t') ->
  I i s -> for_loop body i n s = Ok s' -> I (i + n)%nat s'.
Proof.
  intros Hbody. revert i s. induction n as [| n IH]; intros i s Hi Hloop; simpl in Hloop.
  - injection Hloop as <-. rewrite Nat.add_0_r. exact Hi.
  - apply bind_Ok_inv in Hloop as (t & Ht & Hloop).
    replace (i + S n)%nat with (S i + n)%nat by lia.
    apply (IH (S i) t); [| exact Hloop]. eapply Hbody; eauto.
Qed.

Lemma for_loop_preserves {St} (I : St -> Prop) (body : nat -> St -> exec St)
      (n i : nat) (s s' : St) :
  (forall k t t', body k t = Ok t' -> I t -> I t') ->
  I s -> for_loop body i n s = Ok s' -> I s'.
Proof.
  intros Hbody Hs Hloop.
  apply (for_loop_invariant (fun _ => I) body n i s s'); auto.
Qed.

(** Inversion of a successful run of monadic code, one step at a time. *)
Ltac exec_inv :=
  repeat match goal with
         | H : (_ ≫= _) = Ok _ |- _ =>
             let a := fresh "a" in
             let Ha := fresh "Ha" in
             apply bind_Ok_inv in H as (a & Ha & H)
         | H : vset _ _ _ = Ok _ |- _ => apply vset_Ok_inv in H
         | H : assert _ = Ok _ |- _ => apply assert_Ok_inv in H
         | H : Ok _ = Ok _ |- _ => injection H as H
         end.

Section Stability.
Context {vm_t : Type} `{VirtualMechanism vm_t}.

Local Abbreviation MM := (MechanismManager vm_t).

(** The shape of a manager: the sizes of its containers, the number of
    mechanisms, the dimension, the threshold and the guide options. *)
Record shape (d n : nat) (tau : double) (uag : list bool) (m : MM) : Prop := mkShape {
  shape_wf : wf m;
  shape_dim : dim_ m = d;
  shape_vm_nb : vm_nb_ m = n;
  shape_threshold : scale_threshold_ m = tau;
  shape_use_active_guide : use_active_guide_ m = uag
}.

Ltac shape_solve Hs :=
  destruct Hs as [[? ? ? ? ? ?] ? ? ? ?];
  subst; constructor; [constructor |..]; simpl in *;
  rewrite ?length_insert; auto.

Lemma score_pass_shape d n tau uag pos vel dt (k : nat) (m m' : MM) :
  score_pass pos vel dt k m = Ok m' -> shape d n tau uag m -> shape d n tau uag m'.
Proof. unfold score_pass. intros Hrun Hs. exec_inv. shape_solve Hs. Qed.

Lemma blend_pass_shape d n tau uag pos vel (k : nat) (s s' : MM * VectorXd) :
  blend_pass pos vel k s = Ok s' -> shape d n tau uag s.1 -> shape d n tau uag s'.1.
Proof.
  unfold blend_pass. destruct s as [m f]. intros Hrun Hs. exec_inv.
  subst s'. simpl in *. shape_solve Hs.
Qed.

Lemma gate_pass_shape d n tau uag fa (k : nat) (m m' : MM) :
  gate_pass fa k m = Ok m' -> shape d n tau uag m -> shape d n tau uag m'.
Proof. unfold gate_pass. intros Hrun Hs. exec_inv. shape_solve Hs. Qed.

Lemma direction_pass_shape d n tau uag mf (k : nat) (m m' : MM) :
  direction_pass mf k m = Ok m' -> shape d n tau uag m -> shape d n tau uag m'.
Proof. unfold direction_pass. intros Hrun Hs. exec_inv. shape_solve Hs. Qed.

Lemma Update_shape d n tau uag pos vel dt f (m m' : MM) (f' : VectorXd) :
  Update pos vel dt f m = Ok (m', f') -> shape d n tau uag m -> shape d n tau uag m'.
Proof.
  unfold Update. intros Hrun Hs. exec_inv.
  apply (for_loop_preserves (fun s => shape d n tau uag s.1)) in Hrun.
  - exact Hrun.
  - intros k t t'. apply blend_pass_shape.
  - simpl.
    apply (for_loop_preserves (shape d n tau uag)) in Ha3.
    + destruct Ha3 as [[? ? ? ? ? ?] ? ? ? ?].
      constructor; [constructor |..]; simpl; auto.
    + intros k t t'. apply score_pass_shape.
    + destruct Hs as [[? ? ? ? ? ?] ? ? ? ?].
      constructor; [constructor |..]; simpl; auto.
Qed.

Lemma Update_force_applied_shape d n tau uag pos vel dt f fa (m m' : MM) (f' : VectorXd) :
  Update_force_applied pos vel dt f fa m = Ok (m', f') ->
  shape d n tau uag m -> shape d n tau uag m'.
Proof.
  unfold Update_force_applied. intros Hrun Hs.
  apply bind_Ok_inv in Hrun as (m1 & Hgate & Hrun).
  apply (Update_shape _ _ _ _ _ _ _ _ _ _ _ Hrun).
  apply (for_loop_preserves (shape d n tau uag)) in Hgate; auto.
  intros k t t'. apply gate_pass_shape.
Qed.

Lemma Update_move_forward_shape d n tau uag pos vel dt f fa mf (m m' : MM) (f' : VectorXd) :
  Update_move_forward pos vel dt f fa mf m = Ok (m', f') ->
  shape d n tau uag m -> shape d n tau uag m'.
Proof.
  unfold Update_move_forward. intros Hrun Hs.
  apply bind_Ok_inv in Hrun as (m1 & Hdir & Hrun).
  apply (Update_force_applied_shape _ _ _ _ _ _ _ _ _ _ _ _ Hrun).
  apply (for_loop_preserves (shape d n tau uag)) in Hdir; auto.
  intros k t t'. apply direction_pass_shape.
Qed.

End Stability.

(** ** Reading the configuration *)

Section Configuration.
Context {vm_t : Type} `{VirtualMechanism vm_t}.

(** The values of a sequence whose entries all convert. *)
Fixpoint converted {T} (entries : list (option T)) : option (list T) :=
  match entries with
  | [] => Some []
  | Some x :: entries' =>
      match converted entries' with
      | Some l => Some (x :: l)
      | None => None
      end
  | None :: _ => None
  end.

(** The mechanisms of a list of models whose loaders all succeed, else
    the first failure. *)
Fixpoint loaded (models : list (exec vm_t)) : exec (list vm_t) :=
  match models with
  | [] => Ok []
  | Ok vm :: models' =>
      match loaded models' with
      | Ok l => Ok (vm :: l)
      | Fail f => Fail f
      end
  | Fail f :: _ => Fail f
  end.

Lemma read_vector_closed {T} (entries : list (option T)) (v : list T) :
  read_vector entries v
  = match converted entries with
    | Some l => Ok (v ++ l)
    | None => Fail Exception
    end.
Proof.
  revert v. induction entries as [| [x |] entries IH]; intros v; simpl.
  - rewrite app_nil_r. reflexivity.
  - rewrite IH. destruct (converted entries); [| reflexivity].
    rewrite <- app_assoc. reflexivity.
  - reflexivity.
Qed.

Lemma converted_fmap_Some {T} (l : list T) : converted (Some <$> l) = Some l.
Proof.
  induction l as [| x l IH]; [reflexivity |].
  rewrite fmap_cons. cbn [converted]. rewrite IH. reflexivity.
Qed.

Lemma converted_Some {T} (entries : list (option T)) (l : list T) :
  converted entries = Some l -> entries = Some <$> l.
Proof.
  revert l. induction entries as [| [x |] entries IH]; intros l; simpl.
  - intros [= <-]. reflexivity.
  - destruct (converted entries) as [l' |]; [| discriminate].
    intros [= <-]. simpl. f_equal. apply IH. reflexivity.
  - discriminate.
Qed.

Lemma converted_None {T} (entries : list (option T)) :
  None ∈ entries -> converted entries = None.
Proof.
  induction entries as [| [x |] entries IH]; intros Hin; simpl.
  - apply elem_of_nil in Hin. contradiction.
  - apply elem_of_cons in Hin as [Hin | Hin]; [discriminate |].
    rewrite IH by exact Hin. reflexivity.
  - reflexivity.
Qed.

Lemma loaded_fmap_Ok (vms : list vm_t) : loaded (Ok <$> vms) = Ok vms.
Proof.
  induction vms as [| vm vms IH]; [reflexivity |].
  rewrite fmap_cons. cbn [loaded]. rewrite IH. reflexivity.
Qed.

Lemma loaded_Ok (models : list (exec vm_t)) (vms : list vm_t) :
  loaded models = Ok vms -> models = Ok <$> vms.
Proof.
  revert vms. induction models as [| [vm | f] models IH]; intros vms; simpl.
  - intros [= <-]. reflexivity.
  - destruct (loaded models) as [l | f]; [| discriminate].
    intros [= <-]. simpl. f_equal. apply IH. reflexivity.
  - discriminate.
Qed.

Lemma loaded_first_failure (models : list (exec vm_t)) (k : nat) (f : fault) :
  models !! k = Some (Fail f) ->
  (forall j, (j < k)%nat -> exists vm, models !! j = Some (Ok vm)) ->
  loaded models = Fail f.
Proof.
  revert k. induction models as [| [vm | f'] models IH]; intros k Hk Hbefore.
  - rewrite lookup_nil in Hk. discriminate.
  - destruct k as [| k]; [discriminate |]. simpl.
    rewrite (IH k); [reflexivity | exact Hk |].
    intros j Hj. apply (Hbefore (S j)). lia.
  - destruct k as [| k].
    + simpl in Hk. injection Hk as ->. reflexivity.
    + destruct (Hbefore 0%nat) as [vm Hvm]; [lia |]. discriminate.
Qed.

Lemma load_models_from (before models : list (exec vm_t)) (v : list vm_t) :
  for_loop
    (fun i v =>
       model ← vget (before ++ models) i;
       vm ← model;
       Ok (v ++ [vm]))
    (length before) (length models) v
  = match loaded models with
    | Ok l => Ok (v ++ l)
    | Fail f => Fail f
    end.
Proof.
  revert before v. induction models as [| model models IH]; intros before v.
  - simpl. rewrite app_nil_r. reflexivity.
  - cbn [length for_loop].
    rewrite (vget_lookup _ _ model) by apply list_lookup_middle, eq_refl.
    destruct model as [vm | f]; [| reflexivity].
    cbn [mbind exec_bind loaded].
    replace (before ++ Ok vm :: models) with ((before ++ [Ok vm]) ++ models)
      by (rewrite <- app_assoc; reflexivity).
    replace (S (length before)) with (length (before ++ [Ok vm]))
      by (rewrite length_app; simpl; lia).
    rewrite IH. destruct (loaded models); [| reflexivity].
    rewrite <- app_assoc. reflexivity.
Qed.

Lemma load_models_closed (models : list (exec vm_t)) (v : list vm_t) :
  load_models models v
  = match loaded models with
    | Ok l => Ok (v ++ l)
    | Fail f => Fail f
    end.
Proof. apply (load_models_from [] models v). Qed.

(** [ReadConfig] on a file that loads: the four conversions, then the
    loaders. *)
Lemma manager_ReadConfig_closed (cfg : Config vm_t) :
  ReadConfig (Some cfg)
  = match converted (cfg_models cfg), cfg_prob_mode cfg,
          converted (cfg_use_weighted_dist cfg), converted (cfg_use_active_guide cfg) with
    | Some models, Some mode, Some uwd, Some uag =>
        match loaded models with
        | Ok vms => Ok (true, (vms, parse_prob_mode mode, uwd, uag))
        | Fail f => Fail f
        end
    | _, _, _, _ => Fail Exception
    end.
Proof.
  unfold ReadConfig. rewrite !read_vector_closed.
  destruct (converted (cfg_models cfg)) as [models |]; [| reflexivity].
  cbn [mbind exec_bind app].
  destruct (cfg_prob_mode cfg) as [mode |]; [| reflexivity].
  cbn [mbind exec_bind read_value].
  destruct (converted (cfg_use_weighted_dist cfg)) as [uwd |]; [| reflexivity].
  cbn [mbind exec_bind app].
  destruct (converted (cfg_use_active_guide cfg)) as [uag |]; [| reflexivity].
  cbn [mbind exec_bind app].
  rewrite load_models_closed.
  destruct (loaded models); reflexivity.
Qed.

Lemma manager_ReadConfig_Ok (cfg : Config vm_t) (flag : bool) (vms : list vm_t)
      (mode : prob_mode_t) (uwd uag : list bool) :
  ReadConfig (Some cfg) = Ok (flag, (vms, mode, uwd, uag)) ->
  exists mode_string,
    cfg_models cfg = (fun vm => Some (Ok vm)) <$> vms /\
    cfg_prob_mode cfg = Some mode_string /\
    mode = parse_prob_mode mode_string /\
    cfg_use_weighted_dist cfg = Some <$> uwd /\
    cfg_use_active_guide cfg = Some <$> uag.
Proof.
  rewrite manager_ReadConfig_closed.
  destruct (converted (cfg_models cfg)) as [models |] eqn:Hm; [| discriminate].
  destruct (cfg_prob_mode cfg) as [mode_string |]; [| discriminate].
  destruct (converted (cfg_use_weighted_dist cfg)) as [uwd' |] eqn:Hw; [| discriminate].
  destruct (converted (cfg_use_active_guide cfg)) as [uag' |] eqn:Hu; [| discriminate].
  destruct (loaded models) as [vms' |] eqn:Hl; [| discriminate].
  intros [= <- <- <- <- <-].
  exists mode_string.
  apply converted_Some in Hm, Hw, Hu. apply loaded_Ok in Hl.
  rewrite Hm, Hl, <- list_fmap_compose. auto.
Qed.

End Configuration.

(** ** The active-guide gate *)

Section Gate.
Context {vm_t : Type} `{VirtualMechanism vm_t}.

Local Abbreviation MM := (MechanismManager vm_t).

(** The managers a program can hold: the one built by the constructor and
    those left by any of the three [Update] overloads. *)
Inductive reachable (file : option (Config vm_t)) : MM -> Prop :=
| reach_new m :
    MechanismManager_new file = Ok m -> reachable file m
| reach_Update m pos vel dt f m' f' :
    reachable file m ->
    Update pos vel dt f m = Ok (m', f') -> reachable file m'
| reach_Update_force_applied m pos vel dt f fa m' f' :
    reachable file m ->
    Update_force_applied pos vel dt f fa m = Ok (m', f') -> reachable file m'
| reach_Update_move_forward m pos vel dt f fa mf m' f' :
    reachable file m ->
    Update_move_forward pos vel dt f fa mf m = Ok (m', f') -> reachable file m'.

(** The threshold computed by the constructor for [n] mechanisms. *)
Definition threshold_for (n : nat) : double := Fin (1 / INR n + 2 / 10).

Lemma MechanismManager_new_shape (file : option (Config vm_t)) (m : MM) :
  MechanismManager_new file = Ok m ->
  exists cfg uag,
    file = Some cfg /\ cfg_use_active_guide cfg = Some <$> uag /\
    (1 <= length (cfg_models cfg))%nat /\
    shape 3 (length (cfg_models cfg)) (threshold_for (length (cfg_models cfg)))
          uag m.
Proof.
  unfold MechanismManager_new. intros Hrun.
  apply bind_Ok_inv in Hrun as ([flag [[[vms mode] uwd] uag]] & Hcfg & Hrun).
  destruct file as [cfg |].
  2:{ simpl in Hcfg. injection Hcfg as <- <- <- <- <-. simpl in Hrun. discriminate. }
  apply manager_ReadConfig_Ok in Hcfg as (mode_string & Hm & _ & _ & _ & Hu).
  assert (Hlen : length (cfg_models cfg) = length vms)
    by (rewrite Hm, length_fmap; reflexivity).
  exists cfg, uag. split; [reflexivity |]. split; [exact Hu |].
  rewrite Hlen.
  cbn -[Nat.leb for_loop ddiv dadd of_nat] in Hrun.
  apply bind_Ok_inv in Hrun as ([] & Hn & Hrun).
  apply assert_Ok_inv in Hn. apply Nat.leb_le in Hn.
  split; [exact Hn |].
  apply bind_Ok_inv in Hrun as ([[v st] std] & Hloop & Hrun).
  injection Hrun as <-.
  apply (for_loop_invariant
           (fun k (s : list vm_t * list VectorXd * list VectorXd) =>
              length s.1.1 = length vms /\
              length s.1.2 = k /\ length s.2 = k)) in Hloop.
  - simpl in Hloop. destruct Hloop as (Hv & Hst & Hstd).
    constructor; [constructor |..]; simpl; unfold fill;
      rewrite ?length_replicate; auto.
    assert (E : Reqb (INR (length vms)) 0 = false).
    { apply Reqb_false. apply not_0_INR. lia. }
    rewrite E. reflexivity.
  - intros k [[v0 st0] std0] t' Hbody (Hv & Hst & Hstd). simpl in *.
    exec_inv. subst. simpl.
    rewrite length_insert, !length_app. simpl. lia.
  - simpl. auto.
Qed.

Lemma reachable_shape (file : option (Config vm_t)) (m : MM) :
  reachable file m ->
  exists cfg uag,
    file = Some cfg /\ cfg_use_active_guide cfg = Some <$> uag /\
    (1 <= length (cfg_models cfg))%nat /\
    shape 3 (length (cfg_models cfg)) (threshold_for (length (cfg_models cfg)))
          uag m.
Proof.
  induction 1 as [m Hnew | m pos vel dt f m' f' _ IH Hrun
                  | m pos vel dt f fa m' f' _ IH Hrun
                  | m pos vel dt f fa mf m' f' _ IH Hrun].
  - apply MechanismManager_new_shape. exact Hnew.
  - destruct IH as (cfg & uag & Hf & Hu & Hn & Hs). exists cfg, uag.
    split; [exact Hf | split; [exact Hu | split; [exact Hn |]]].
    eapply Update_shape; eauto.
  - destruct IH as (cfg & uag & Hf & Hu & Hn & Hs). exists cfg, uag.
    split; [exact Hf | split; [exact Hu | split; [exact Hn |]]].
    eapply Update_force_applied_shape; eauto.
  - destruct IH as (cfg & uag & Hf & Hu & Hn & Hs). exists cfg, uag.
    split; [exact Hf | split; [exact Hu | split; [exact Hn |]]].
    eapply Update_move_forward_shape; eauto.
Qed.

Variable force_applied : bool.

(** The decision of the gate for one mechanism. *)
Definition gate (threshold scale : double) (use_active_guide : bool) : bool :=
  negb force_applied && dgt scale threshold && use_active_guide.

(** The decisions paired with the mechanisms they apply to, and the
    manager after the gate loop. *)
Definition gate_pairs (m : MM) : list (bool * vm_t) :=
  zip (zip_with (gate (scale_threshold_ m)) (scales_ m) (use_active_guide_ m))
      (vm_vector_ m).

Definition gated (m : MM) : MM :=
  with_active_guide ((gate_pairs m).*1)
    (with_vm_vector ((fun cv => setActive cv.1 cv.2) <$> gate_pairs m) m).

Lemma length_gate_pairs (m : MM) :
  wf m -> (vm_nb_ m <= length (use_active_guide_ m))%nat ->
  length (gate_pairs m) = vm_nb_ m.
Proof.
  intros [Hv Hs _ _ _ _] Hu. unfold gate_pairs.
  rewrite length_zip_with, length_zip_with. lia.
Qed.

Lemma lookup_gate_pairs (m : MM) (i : nat) (vm : vm_t) (s : double) (u : bool) :
  vm_vector_ m !! i = Some vm -> scales_ m !! i = Some s ->
  use_active_guide_ m !! i = Some u ->
  gate_pairs m !! i = Some (gate (scale_threshold_ m) s u, vm).
Proof.
  intros Hvm Hs Hu. unfold gate_pairs.
  apply lookup_zip_with_Some. eexists _, vm. split; [reflexivity |].
  split; [| exact Hvm].
  apply lookup_zip_with_Some. exists s, u. auto.
Qed.

Lemma guide_condition_gate (m : MM) (i : nat) (s : double) (u : bool) :
  scales_ m !! i = Some s -> use_active_guide_ m !! i = Some u ->
  guide_condition force_applied i m = Ok (gate (scale_threshold_ m) s u).
Proof.
  intros Hs Hu. unfold guide_condition, gate.
  destruct force_applied; simpl; [reflexivity |].
  rewrite (vget_lookup _ _ _ Hs). simpl.
  destruct (dgt s (scale_threshold_ m)); simpl; [| reflexivity].
  rewrite (vget_lookup _ _ _ Hu). reflexivity.
Qed.

Lemma gate_loop (m : MM) :
  wf m -> (vm_nb_ m <= length (use_active_guide_ m))%nat ->
  for_loop (gate_pass force_applied) 0 (vm_nb_ m) m = Ok (gated m).
Proof.
  intros Hwf Hu.
  pose proof (length_gate_pairs m Hwf Hu) as Hlen.
  destruct Hwf as [Hv Hs Hp Hst Hsd Hag].
  set (G := fun k =>
    with_active_guide (splice fst k (gate_pairs m) (active_guide_ m))
      (with_vm_vector
         (splice (fun cv => setActive cv.1 cv.2) k (gate_pairs m) (vm_vector_ m)) m)).
  assert (H0 : G 0%nat = m).
  { unfold G. rewrite !splice_0. destruct m; reflexivity. }
  assert (Hn : G (vm_nb_ m) = gated m).
  { assert (E : forall (B : Type) (f : bool * vm_t -> B) (old : list B),
               length old = vm_nb_ m ->
               splice f (vm_nb_ m) (gate_pairs m) old = f <$> gate_pairs m).
    { intros B f old Ho. rewrite <- Hlen at 1. apply splice_all. lia. }
    unfold G, gated. rewrite !E by assumption. reflexivity. }
  rewrite <- H0 at 2. rewrite <- Hn.
  apply (for_loop_closed G). intros k Hk.
  destruct (lookup_lt_is_Some_2 (vm_vector_ m) k) as [vm Hvm]; [lia |].
  destruct (lookup_lt_is_Some_2 (scales_ m) k) as [s Hsk]; [lia |].
  destruct (lookup_lt_is_Some_2 (use_active_guide_ m) k) as [u Huk]; [lia |].
  pose proof (lookup_gate_pairs m k vm s u Hvm Hsk Huk) as Hpair.
  unfold gate_pass.
  rewrite (guide_condition_gate (G k) k s u) by (simpl; assumption).
  unfold G at 1 2 3. simpl.
  rewrite (vget_lookup _ _ vm) by (rewrite lookup_splice_old by lia; exact Hvm).
  simpl.
  rewrite (vset_splice (fun cv => setActive cv.1 cv.2) k (gate_pairs m) (vm_vector_ m)
                       (gate (scale_threshold_ m) s u, vm)) by (auto; lia).
  simpl.
  pose proof (vset_splice fst k (gate_pairs m) (active_guide_ m)
                          (gate (scale_threshold_ m) s u, vm)) as Hset.
  simpl in Hset. rewrite Hset by (auto; lia).
  reflexivity.
Qed.

Lemma gated_wf (m : MM) :
  wf m -> (vm_nb_ m <= length (use_active_guide_ m))%nat -> wf (gated m).
Proof.
  intros Hwf Hu. pose proof (length_gate_pairs m Hwf Hu) as Hlen.
  destruct Hwf as [Hv Hs Hp Hst Hsd Hag].
  constructor; simpl; rewrite ?length_fmap; auto.
Qed.

End Gate.

Section GateTheorem.
Context {vm_t : Type} `{VirtualMechanism vm_t}.
Variables robot_position robot_velocity : VectorXd.
Variable dt : double.

(** C7.  Take any manager reachable from the constructor run on a
    configuration with [N] mechanisms and at least [N] guide options, and
    a tick through the overload with [force_applied] whose inputs pass the
    asserts.  The threshold is [1/N + 0.2], [N] being also the current
    number of mechanisms; the tick returns; and for every mechanism [i],
    the flag [active_guide_[i]] after the tick and the argument of the
    [setActive] call on mechanism [i] (which is then updated by the tick)
    are both equal to
    [!force_applied && scale_i > threshold && use_active_guide_i], where
    [scale_i] is the scale left by the previous tick. *)
Theorem active_guide_gate
        (cfg : Config vm_t) (m : MechanismManager vm_t) (f_out : VectorXd)
        (force_applied : bool) :
  reachable (Some cfg) m ->
  (length (cfg_models cfg) <= length (cfg_use_active_guide cfg))%nat ->
  tick_pre robot_position robot_velocity dt m f_out ->
  exists m' f',
    Update_force_applied robot_position robot_velocity dt f_out force_applied m
      = Ok (m', f') /\
    vm_nb_ m = length (cfg_models cfg) /\
    scale_threshold_ m = Fin (1 / INR (length (cfg_models cfg)) + 2 / 10) /\
    forall i vm s u,
      vm_vector_ m !! i = Some vm ->
      scales_ m !! i = Some s ->
      use_active_guide_ m !! i = Some u ->
      let on := negb force_applied && dgt s (scale_threshold_ m) && u in
      active_guide_ m' !! i = Some on /\
      vm_vector_ m' !! i
        = Some (vm_Update robot_position robot_velocity dt (setActive on vm)).
Proof.
  intros Hreach Hcfg Hpre.
  destruct (reachable_shape _ _ Hreach) as (cfg' & uag & Hfile & Hopts & Hn & Hshape).
  injection Hfile as <-.
  destruct Hshape as [Hwf Hdim Hnb Hth Huag].
  rewrite Hopts, length_fmap in Hcfg.
  assert (Hu : (vm_nb_ m <= length (use_active_guide_ m))%nat)
    by (rewrite Hnb, Huag; exact Hcfg).
  exists (after_tick robot_position robot_velocity dt (gated force_applied m)),
         (blended robot_position robot_velocity dt (gated force_applied m) f_out).
  split.
  { unfold Update_force_applied.
    rewrite (gate_loop force_applied m Hwf Hu). simpl.
    apply Update_closed_form.
    - apply gated_wf; assumption.
    - destruct Hpre as [Hp Hv Hdt Hf]. constructor; assumption. }
  split; [exact Hnb |].
  split; [exact Hth |].
  intros i vm s u Hvm Hs Hui on.
  pose proof (lookup_gate_pairs force_applied m i vm s u Hvm Hs Hui) as Hpair.
  split.
  - simpl. rewrite list_lookup_fmap, Hpair. reflexivity.
  - simpl. unfold updated. simpl.
    rewrite !list_lookup_fmap, Hpair. reflexivity.
Qed.

End GateTheorem.

(** The manager built from a configuration with one resting mechanism. *)
Lemma Stub_built :
  MechanismManager_new
    (Some (mkConfig [Some (Ok (Stub.resting (Fin 1) (Fin 0)))] (Some "hard"%string)
                     [Some false] [Some true]))
  = Ok (mkManager 3 1 [Stub.resting (Fin 1) (Fin 0)]
                  [fill 3 (Fin 0)] [fill 3 (Fin 0)] [false] [false] [true]
                  [Fin 0] [Fin 0] (fill 3 (Fin 0)) HARD (Fin 0)
                  (Fin (1 / 1 + 2 / 10))).
Proof.
  unfold MechanismManager_new. cbn.
  assert (E : Reqb 1 0 = false) by (apply Reqb_false; lra).
  rewrite E. reflexivity.
Qed.

Lemma active_guide_gate_witness :
  exists m' f',
    Update_force_applied Stub.origin Stub.origin Stub.dt Stub.origin false
      (mkManager 3 1 [Stub.resting (Fin 1) (Fin 0)]
                 [fill 3 (Fin 0)] [fill 3 (Fin 0)] [false] [false] [true]
                 [Fin 0] [Fin 0] (fill 3 (Fin 0)) HARD (Fin 0)
                 (Fin (1 / 1 + 2 / 10)))
      = Ok (m', f') /\
    1%nat = 1%nat /\
    Fin (1 / 1 + 2 / 10) = Fin (1 / INR 1 + 2 / 10) /\
    forall i vm s u,
      [Stub.resting (Fin 1) (Fin 0)] !! i = Some vm ->
      [Fin 0] !! i = Some s ->
      [true] !! i = Some u ->
      let on := negb false && dgt s (Fin (1 / 1 + 2 / 10)) && u in
      active_guide_ m' !! i = Some on /\
      vm_vector_ m' !! i = Some (vm_Update Stub.origin Stub.origin Stub.dt (setActive on vm)).
Proof.
  apply (active_guide_gate Stub.origin Stub.origin Stub.dt
           (mkConfig [Some (Ok (Stub.resting (Fin 1) (Fin 0)))] (Some "hard"%string)
                     [Some false] [Some true])).
  - apply reach_new. exact Stub_built.
  - simpl. lia.
  - constructor; try reflexivity. apply dgt_Fin. lra.
Defined.

(** ** Construction of the interface *)

Section InterfaceFacts.
Import MechanismManagerInterface.
Context {mm_t : Type} (new_MechanismManager : Z -> exec mm_t).

Lemma ReadConfig_true (main_node : option InterfaceNode) (pd : Z) (th pre : double) :
  ReadConfig main_node = Ok (true, (pd, th, pre)) <->
  main_node = Some (mkNode (Some pd) (Some th) (Some pre)) /\
  (pd = 1 \/ pd = 2)%Z /\ dgt th (Fin 0) = true /\ dgt pre th = true.
Proof.
  unfold ReadConfig. split.
  - destruct main_node as [[[pd' |] [th' |] [pre' |]] |];
      cbn -[dgt Z.eqb]; try discriminate.
    destruct ((pd' =? 1)%Z || (pd' =? 2)%Z) eqn:Hpd; cbn -[dgt Z.eqb]; [| discriminate].
    destruct (dgt th' (Fin 0)) eqn:Hth; cbn -[dgt Z.eqb]; [| discriminate].
    destruct (dgt pre' th') eqn:Hpre; cbn -[dgt Z.eqb]; [| discriminate].
    intros Heq. injection Heq as -> -> ->.
    repeat split; auto.
    apply orb_true_iff in Hpd as [Hpd | Hpd]; apply Z.eqb_eq in Hpd; auto.
  - intros (-> & Hpd & Hth & Hpre). cbn -[dgt Z.eqb].
    assert (E : ((pd =? 1)%Z || (pd =? 2)%Z) = true).
    { apply orb_true_iff. destruct Hpd as [-> | ->]; auto. }
    rewrite E. cbn -[dgt Z.eqb]. rewrite Hth. cbn -[dgt Z.eqb]. rewrite Hpre. reflexivity.
Qed.

Lemma ReadConfig_Ok_flag (main_node : option InterfaceNode) (ok : bool)
      (pd : Z) (th pre : double) :
  ReadConfig main_node = Ok (ok, (pd, th, pre)) ->
  ok = false -> main_node = None.
Proof.
  unfold ReadConfig.
  destruct main_node as [[[pd' |] [th' |] [pre' |]] |];
    cbn -[dgt Z.eqb]; try discriminate; auto.
  destruct ((pd' =? 1)%Z || (pd' =? 2)%Z); cbn -[dgt Z.eqb]; [| discriminate].
  destruct (dgt th' (Fin 0)); cbn -[dgt Z.eqb]; [| discriminate].
  destruct (dgt pre' th'); cbn -[dgt Z.eqb]; [| discriminate].
  intros Heq Hok. injection Heq as <- _ _ _. discriminate.
Qed.

(** C8 (as amended).  The constructor of the interface succeeds exactly
    when the configuration has the interface node with its three keys,
    [position_dim] is 1 or 2, [phase_dot_th > 0],
    [phase_dot_preauto_th > phase_dot_th], and the constructor of the
    manager succeeds; the interface built then has [position_dim_] equal
    to the configured value, and its vectors have that size. *)
Theorem interface_construction_succeeds_iff
        (main_node : option InterfaceNode) (iface : Interface mm_t) :
  MechanismManagerInterface_new new_MechanismManager main_node = Ok iface <->
  exists (pd : Z) (th pre : double) (mm : mm_t),
    main_node = Some (mkNode (Some pd) (Some th) (Some pre)) /\
    (pd = 1 \/ pd = 2)%Z /\
    dgt th (Fin 0) = true /\ dgt pre th = true /\
    new_MechanismManager pd = Ok mm /\
    iface = mkInterface pd th pre
                        (fill (Z.to_nat pd) (Fin 0)) (fill (Z.to_nat pd) (Fin 0))
                        (fill (Z.to_nat pd) (Fin 0)) (fill (Z.to_nat pd) (Fin 0))
                        true mm.
Proof.
  unfold MechanismManagerInterface_new. split.
  - intros Hrun.
    apply bind_Ok_inv in Hrun as ([ok [[pd th] pre]] & Hcfg & Hrun).
    destruct ok; simpl in Hrun; [| discriminate].
    apply bind_Ok_inv in Hrun as (mm & Hmm & Hrun).
    injection Hrun as <-.
    apply ReadConfig_true in Hcfg as (Hnode & Hpd & Hth & Hpre).
    exists pd, th, pre, mm. repeat split; auto.
  - intros (pd & th & pre & mm & Hnode & Hpd & Hth & Hpre & Hmm & ->).
    assert (Hcfg : ReadConfig main_node = Ok (true, (pd, th, pre)))
      by (apply ReadConfig_true; auto).
    rewrite Hcfg. simpl. rewrite Hmm. reflexivity.
Qed.

End InterfaceFacts.

Lemma interface_construction_succeeds_iff_witness :
  MechanismManagerInterface.MechanismManagerInterface_new
    (fun _ => Ok tt)
    (Some (MechanismManagerInterface.mkNode (Some 2%Z) (Some (Fin 1)) (Some (Fin 2))))
  = Ok (MechanismManagerInterface.mkInterface 2%Z (Fin 1) (Fin 2)
          [Fin 0; Fin 0] [Fin 0; Fin 0] [Fin 0; Fin 0] [Fin 0; Fin 0] true tt).
Proof.
  apply (proj2 (interface_construction_succeeds_iff (fun _ => Ok tt) _ _)).
  exists 2%Z, (Fin 1), (Fin 2), tt.
  repeat split; auto; apply dgt_Fin; lra.
Defined.

(** C8 (counterexample).  With [position_dim] 3 and the thresholds 1 and 2
    the constructor does not succeed: the assert of [ReadConfig] on
    [position_dim] stops it. *)
Lemma interface_construction_rejects_dim_3 :
  MechanismManagerInterface.MechanismManagerInterface_new
    (fun _ => Ok tt)
    (Some (MechanismManagerInterface.mkNode (Some 3%Z) (Some (Fin 1)) (Some (Fin 2))))
  = Fail AssertFail.
Proof. reflexivity. Qed.

(** ** Concrete evaluations *)

Section Evaluations.
Local Open Scope R_scope.

(** Scenario S1: Potential mode, one mechanism at distance 0 attracting
    towards (1,0,0) with unit stiffness: the force is (1,0,0). *)
Example Update_S1 :
  exists m',
    Update Stub.origin Stub.origin Stub.dt Stub.origin
           (Stub.manager POTENTIAL [Stub.resting (Fin 0) (Fin 0)])
    = Ok (m', [Fin 1; Fin 0; Fin 0]) /\ scales_ m' = [Fin 1].
Proof.
  eexists.
  rewrite Update_closed_form by (apply Stub_manager_wf || apply Stub_tick_pre).
  assert (E : exp (-10 * 0) = 1) by (rewrite Rmult_0_r; apply exp_0).
  unfold blended, after_tick, weights, contribution, weight_of, updated, raw_scores.
  cbn. rewrite E.
  replace (0 + 1 * (1 * (1 + - 0) + 0 * (0 + - 0))) with 1 by lra.
  replace (0 + 1 * (1 * (0 + - 0) + 0 * (0 + - 0))) with 0 by lra.
  split; reflexivity.
Qed.

(** Scenario S2: Hard mode, probabilities 0.2 and 0.8: the scales are 0.2
    and 0.8. *)
Example Update_S2 :
  exists m' f',
    Update Stub.origin Stub.origin Stub.dt Stub.origin
           (Stub.manager HARD [Stub.resting (Fin (2/10)) (Fin 0);
                               Stub.resting (Fin (8/10)) (Fin 0)])
    = Ok (m', f') /\ scales_ m' = [Fin (2/10); Fin (8/10)].
Proof.
  eexists _, _.
  rewrite Update_closed_form by (apply Stub_manager_wf || apply Stub_tick_pre).
  split; [reflexivity |].
  unfold after_tick, weights, weight_of, updated, raw_scores. cbn.
  assert (E : Reqb (2/10 + 8/10) 0 = false) by (apply Reqb_false; lra).
  rewrite E.
  replace (2/10 / (2/10 + 8/10)) with (2/10) by lra.
  replace (8/10 / (2/10 + 8/10)) with (8/10) by lra.
  reflexivity.
Qed.

(** Hard mode, one mechanism of probability 0: the scale and the force
    are NaN. *)
Example Update_HARD_zero :
  exists m',
    Update Stub.origin Stub.origin Stub.dt Stub.origin
           (Stub.manager HARD [Stub.resting (Fin 0) (Fin 1)])
    = Ok (m', [NaN; NaN; NaN]) /\ scales_ m' = [NaN].
Proof.
  eexists.
  rewrite Update_closed_form by (apply Stub_manager_wf || apply Stub_tick_pre).
  unfold blended, after_tick, weights, contribution, weight_of, updated, raw_scores.
  cbn.
  assert (E : Reqb 0 0 = true) by (apply Reqb_true; reflexivity).
  rewrite E. split; reflexivity.
Qed.

(** [Delete] on small vectors, inside and outside the range. *)
Example Delete_front : Delete 0%Z [1%nat; 2%nat; 3%nat] = Ok [2%nat; 3%nat].
Proof. reflexivity. Qed.

Example Delete_past_the_end : Delete 3%Z [1%nat; 2%nat; 3%nat] = Fail AssertFail.
Proof. reflexivity. Qed.

Example Delete_negative : Delete (-1)%Z [1%nat; 2%nat; 3%nat] = Fail AssertFail.
Proof. reflexivity. Qed.

(** [CropData] with the default arguments on the rows (0,0), (3,4),
    (3,4): the first row moved by 5, the second by 0, the third is the
    last one; only the first row is kept. *)
Example CropData_three_rows :
  CropData (mkMatrix [[Fin 0; Fin 0]; [Fin 3; Fin 4]; [Fin 3; Fin 4]] 2)
           CropData_dt_default CropData_dist_min_default
  = Ok (true, mkMatrix [[Fin 0; Fin 0]] 2).
Proof.
  assert (M1 : moved CropData_dt_default CropData_dist_min_default
                     [Fin 0; Fin 0] [Fin 3; Fin 4] = true).
  { unfold moved, norm, squaredNorm, CropData_dt_default, CropData_dist_min_default. cbn.
    assert (E0 : Rltb ((3 + - 0) * (3 + - 0) + (4 + - 0) * (4 + - 0)) 0 = false)
      by (apply Rltb_false; lra).
    rewrite E0. apply dgt_Fin.
    replace ((3 + - 0) * (3 + - 0) + (4 + - 0) * (4 + - 0)) with (5 * 5) by lra.
    rewrite sqrt_square by lra. lra. }
  assert (M2 : moved CropData_dt_default CropData_dist_min_default
                     [Fin 3; Fin 4] [Fin 3; Fin 4] = false).
  { unfold moved, norm, squaredNorm, CropData_dt_default, CropData_dist_min_default. cbn.
    assert (E0 : Rltb ((3 + Ropp 3) * (3 + Ropp 3) + (4 + Ropp 4) * (4 + Ropp 4)) 0 = false)
      by (apply Rltb_false; lra).
    rewrite E0.
    replace ((3 + Ropp 3) * (3 + Ropp 3) + (4 + Ropp 4) * (4 + Ropp 4)) with 0 by lra.
    rewrite sqrt_0. apply Rltb_false. lra. }
  unfold CropData. cbn -[moved]. rewrite M1. cbn -[moved]. rewrite M2. reflexivity.
Qed.

(** Scenario S6 on the automaton alone: an AUTO automaton stepped with
    [collision_detected] goes back to MANUAL and [GetState] is false. *)
Example autom_stop :
  fst (GetState (Step (Fin 1) (Fin 1) true (mkAutom (Fin 2) (Fin 1) AUTO 0))) = false.
Proof. reflexivity. Qed.

End Evaluations.

(** * Further properties of the tick *)

Section TickOutcome.
Context {vm_t : Type} `{VirtualMechanism vm_t}.
Variables robot_position robot_velocity : VectorXd.
Variable dt : double.

(** X1.  On a manager whose containers have [vm_nb_] cells, [Update]
    either passes its four asserts and returns the manager and force of
    the closed form, or one of the asserts does not hold (a vector of the
    wrong size, or a [dt] that is not greater than 0, NaN included) and it
    stops on that assert; it has no other outcome. *)
Theorem Update_returns_or_stops_on_assert (m : MechanismManager vm_t) (f_out : VectorXd) :
  wf m ->
  (tick_pre robot_position robot_velocity dt m f_out /\
   Update robot_position robot_velocity dt f_out m
   = Ok (after_tick robot_position robot_velocity dt m,
         blended robot_position robot_velocity dt m f_out)) \/
  (~ tick_pre robot_position robot_velocity dt m f_out /\
   Update robot_position robot_velocity dt f_out m = Fail AssertFail).
Proof.
  intros Hwf.
  destruct (Nat.eqb_spec (length robot_position) (dim_ m)) as [Hp | Hp].
  2:{ right. split; [intros [? ? ? ?]; contradiction |].
      unfold Update. apply Nat.eqb_neq in Hp. rewrite Hp. reflexivity. }
  destruct (Nat.eqb_spec (length robot_velocity) (dim_ m)) as [Hv | Hv].
  2:{ right. split; [intros [? ? ? ?]; contradiction |].
      unfold Update. apply Nat.eqb_eq in Hp. apply Nat.eqb_neq in Hv.
      rewrite Hp, Hv. reflexivity. }
  destruct (dgt dt (Fin 0)) eqn:Hdt.
  2:{ right. split; [intros [? ? Hd ?]; congruence |].
      unfold Update. apply Nat.eqb_eq in Hp, Hv.
      rewrite Hp, Hv, Hdt. reflexivity. }
  destruct (Nat.eqb_spec (length f_out) (dim_ m)) as [Hf | Hf].
  2:{ right. split; [intros [? ? ? ?]; contradiction |].
      unfold Update. apply Nat.eqb_eq in Hp, Hv. apply Nat.eqb_neq in Hf.
      rewrite Hp, Hv, Hdt, Hf. reflexivity. }
  left. assert (Hpre : tick_pre robot_position robot_velocity dt m f_out)
    by (constructor; assumption).
  split; [exact Hpre | apply Update_closed_form; assumption].
Qed.

End TickOutcome.

(** A [dt] that is NaN: the tick stops on its third assert. *)
Lemma Update_returns_or_stops_on_assert_witness :
  (tick_pre Stub.origin Stub.origin NaN
            (Stub.manager HARD [Stub.resting (Fin 1) (Fin 0)]) Stub.origin /\
   Update Stub.origin Stub.origin NaN Stub.origin
          (Stub.manager HARD [Stub.resting (Fin 1) (Fin 0)])
   = Ok (after_tick Stub.origin Stub.origin NaN
                    (Stub.manager HARD [Stub.resting (Fin 1) (Fin 0)]),
         blended Stub.origin Stub.origin NaN
                 (Stub.manager HARD [Stub.resting (Fin 1) (Fin 0)]) Stub.origin)) \/
  (~ tick_pre Stub.origin Stub.origin NaN
              (Stub.manager HARD [Stub.resting (Fin 1) (Fin 0)]) Stub.origin /\
   Update Stub.origin Stub.origin NaN Stub.origin
          (Stub.manager HARD [Stub.resting (Fin 1) (Fin 0)])
   = Fail AssertFail).
Proof.
  apply (Update_returns_or_stops_on_assert Stub.origin Stub.origin NaN
           (Stub.manager HARD [Stub.resting (Fin 1) (Fin 0)]) Stub.origin).
  apply Stub_manager_wf.
Defined.

Section TickFrame.
Context {vm_t : Type} `{VirtualMechanism vm_t}.

Local Abbreviation MM := (MechanismManager vm_t).

(** What a tick has no statement to change: the dimension, the number of
    mechanisms, the mixing mode, the threshold, the two option lists and
    the sizes of the per-mechanism containers. *)
Record same_setup (m0 m : MM) : Prop := mkSame {
  same_dim : dim_ m = dim_ m0;
  same_vm_nb : vm_nb_ m = vm_nb_ m0;
  same_prob_mode : prob_mode_ m = prob_mode_ m0;
  same_threshold : scale_threshold_ m = scale_threshold_ m0;
  same_use_weighted_dist : use_weighted_dist_ m = use_weighted_dist_ m0;
  same_use_active_guide : use_active_guide_ m = use_active_guide_ m0;
  same_vm_vector : length (vm_vector_ m) = length (vm_vector_ m0);
  same_scales : length (scales_ m) = length (scales_ m0);
  same_phase : length (phase_ m) = length (phase_ m0);
  same_vm_state : length (vm_state_ m) = length (vm_state_ m0);
  same_vm_state_dot : length (vm_state_dot_ m) = length (vm_state_dot_ m0);
  same_active_guide : length (active_guide_ m) = length (active_guide_ m0)
}.

Ltac same_solve Hs :=
  destruct Hs; subst; constructor; simpl in *; rewrite ?length_insert; auto.

Lemma same_setup_refl (m : MM) : same_setup m m.
Proof. constructor; reflexivity. Qed.

Lemma score_pass_same m0 pos vel dt (k : nat) (m m' : MM) :
  score_pass pos vel dt k m = Ok m' -> same_setup m0 m -> same_setup m0 m'.
Proof. unfold score_pass. intros Hrun Hs. exec_inv. same_solve Hs. Qed.

Lemma blend_pass_same m0 pos vel (k : nat) (s s' : MM * VectorXd) :
  blend_pass pos vel k s = Ok s' -> same_setup m0 s.1 -> same_setup m0 s'.1.
Proof.
  unfold blend_pass. destruct s as [m f]. intros Hrun Hs. exec_inv.
  subst s'. simpl in *. same_solve Hs.
Qed.

Lemma gate_pass_same m0 fa (k : nat) (m m' : MM) :
  gate_pass fa k m = Ok m' -> same_setup m0 m -> same_setup m0 m'.
Proof. unfold gate_pass. intros Hrun Hs. exec_inv. same_solve Hs. Qed.

Lemma direction_pass_same m0 mf (k : nat) (m m' : MM) :
  direction_pass mf k m = Ok m' -> same_setup m0 m -> same_setup m0 m'.
Proof. unfold direction_pass. intros Hrun Hs. exec_inv. same_solve Hs. Qed.

Lemma Update_same m0 pos vel dt f (m m' : MM) (f' : VectorXd) :
  Update pos vel dt f m = Ok (m', f') -> same_setup m0 m -> same_setup m0 m'.
Proof.
  unfold Update. intros Hrun Hs. exec_inv.
  apply (for_loop_preserves (fun s => same_setup m0 s.1)) in Hrun.
  - exact Hrun.
  - intros k t t'. apply blend_pass_same.
  - simpl.
    match goal with
    | Hl : for_loop (score_pass _ _ _) _ _ _ = Ok _ |- _ =>
        apply (for_loop_preserves (same_setup m0)) in Hl;
        [ destruct Hl; constructor; simpl; auto
        | intros k t t'; apply score_pass_same
        | destruct Hs; constructor; simpl; auto ]
    end.
Qed.

Lemma Update_force_applied_same m0 pos vel dt f fa (m m' : MM) (f' : VectorXd) :
  Update_force_applied pos vel dt f fa m = Ok (m', f') ->
  same_setup m0 m -> same_setup m0 m'.
Proof.
  unfold Update_force_applied. intros Hrun Hs.
  apply bind_Ok_inv in Hrun as (m1 & Hgate & Hrun).
  apply (Update_same _ _ _ _ _ _ _ _ Hrun).
  apply (for_loop_preserves (same_setup m0)) in Hgate; auto.
  intros k t t'. apply gate_pass_same.
Qed.

Lemma Update_move_forward_same m0 pos vel dt f fa mf (m m' : MM) (f' : VectorXd) :
  Update_move_forward pos vel dt f fa mf m = Ok (m', f') ->
  same_setup m0 m -> same_setup m0 m'.
Proof.
  unfold Update_move_forward. intros Hrun Hs.
  apply bind_Ok_inv in Hrun as (m1 & Hdir & Hrun).
  apply (Update_force_applied_same _ _ _ _ _ _ _ _ _ Hrun).
  apply (for_loop_preserves (same_setup m0)) in Hdir; auto.
  intros k t t'. apply direction_pass_same.
Qed.

(** The managers obtained from [m0] by any number of calls, each of any
    of the three overloads of [Update] and each returning. *)
Inductive ticked (m0 : MM) : MM -> Prop :=
| ticked_refl : ticked m0 m0
| ticked_Update m pos vel dt f m' f' :
    ticked m0 m -> Update pos vel dt f m = Ok (m', f') -> ticked m0 m'
| ticked_Update_force_applied m pos vel dt f fa m' f' :
    ticked m0 m ->
    Update_force_applied pos vel dt f fa m = Ok (m', f') -> ticked m0 m'
| ticked_Update_move_forward m pos vel dt f fa mf m' f' :
    ticked m0 m ->
    Update_move_forward pos vel dt f fa mf m = Ok (m', f') -> ticked m0 m'.

(** X2.  However many ticks a manager goes through, by whichever
    overloads and with whatever inputs, its dimension, number of
    mechanisms, mixing mode, threshold and option lists are those it
    started with, and its per-mechanism containers keep their sizes; in
    particular a manager whose containers have [vm_nb_] cells keeps that
    property. *)
Theorem ticks_keep_the_setup (m0 m : MM) :
  ticked m0 m ->
  same_setup m0 m /\ (wf m0 -> wf m).
Proof.
  intros Ht.
  assert (Hs : same_setup m0 m).
  { induction Ht as [| m pos vel dt f m' f' _ IH Hrun
                     | m pos vel dt f fa m' f' _ IH Hrun
                     | m pos vel dt f fa mf m' f' _ IH Hrun].
    - apply same_setup_refl.
    - eapply Update_same; eauto.
    - eapply Update_force_applied_same; eauto.
    - eapply Update_move_forward_same; eauto. }
  split; [exact Hs |].
  intros [? ? ? ? ? ?]. destruct Hs. constructor; congruence.
Qed.

End TickFrame.

Lemma ticks_keep_the_setup_witness :
  same_setup (Stub.manager HARD [Stub.resting (Fin 1) (Fin 0)])
             (after_tick Stub.origin Stub.origin Stub.dt
                         (Stub.manager HARD [Stub.resting (Fin 1) (Fin 0)])) /\
  (wf (Stub.manager HARD [Stub.resting (Fin 1) (Fin 0)]) ->
   wf (after_tick Stub.origin Stub.origin Stub.dt
                  (Stub.manager HARD [Stub.resting (Fin 1) (Fin 0)]))).
Proof.
  apply ticks_keep_the_setup.
  eapply ticked_Update; [apply ticked_refl |].
  apply Update_closed_form; [apply Stub_manager_wf | apply Stub_tick_pre].
Defined.

Section VectorFacts.
Local Open Scope R_scope.

Lemma dmul_1_l (x : double) : dmul (Fin 1) x = x.
Proof.
  assert (E0 : Reqb 1 0 = false) by (apply Reqb_false; lra).
  assert (E1 : Rltb 0 1 = true) by (apply Rltb_true; lra).
  destruct x; simpl; unfold inf_times; rewrite ?E0, ?E1; try reflexivity.
  f_equal. lra.
Qed.

Lemma svmul_1_l (v : VectorXd) : svmul (Fin 1) v = v.
Proof.
  unfold svmul. induction v as [| x v IH]; [reflexivity |].
  rewrite fmap_cons, IH, dmul_1_l. reflexivity.
Qed.

Lemma vadd_zeros_l (n : nat) (v : VectorXd) :
  (length v <= n)%nat -> vadd (fill n (Fin 0)) v = v.
Proof.
  unfold vadd, fill. revert v. induction n as [| n IH]; intros v Hv.
  - destruct v; [reflexivity | simpl in Hv; lia].
  - destruct v as [| x v]; [reflexivity |].
    change (zip_with dadd (replicate (S n) (Fin 0)) (x :: v))
      with (dadd (Fin 0) x :: zip_with dadd (replicate n (Fin 0)) v).
    rewrite dadd_0_l. f_equal. apply IH. simpl in Hv. lia.
Qed.

Lemma length_vadd (a b : VectorXd) : length (vadd a b) = (length a `min` length b)%nat.
Proof. apply length_zip_with. Qed.

Lemma length_vsub (a b : VectorXd) : length (vsub a b) = (length a `min` length b)%nat.
Proof. apply length_zip_with. Qed.

Lemma length_svmul (s : double) (v : VectorXd) : length (svmul s v) = length v.
Proof. apply length_fmap. Qed.

Lemma length_foldl_vadd (acc : VectorXd) (cs : list VectorXd) :
  (forall c, c ∈ cs -> length c = length acc) ->
  length (foldl vadd acc cs) = length acc.
Proof.
  revert acc. induction cs as [| c cs IH]; intros acc Hcs; [reflexivity |].
  simpl.
  assert (Hc : length c = length acc) by (apply Hcs; left).
  assert (Hl : length (vadd acc c) = length acc) by (rewrite length_vadd; lia).
  rewrite IH; [exact Hl |].
  intros c' Hc'. rewrite Hl. apply Hcs. right. exact Hc'.
Qed.

End VectorFacts.

Section TickShapeOfForce.
Context {vm_t : Type} `{VirtualMechanism vm_t}.
Variables robot_position robot_velocity : VectorXd.
Variable dt : double.

Lemma length_vm_force (vm : vm_t) (d : nat) :
  length robot_position = d -> length robot_velocity = d ->
  length (getState vm) = d -> length (getStateDot vm) = d ->
  length (vm_force vm (getState vm) (getStateDot vm) robot_position robot_velocity) = d.
Proof.
  intros Hp Hv Hs Hsd. unfold vm_force.
  rewrite length_vadd, !length_svmul, !length_vsub. lia.
Qed.

(** X3.  With no mechanism in the manager the two loops of the tick do
    nothing: the tick returns the zero vector of the dimension, the sum of
    the scores is 0 and no division takes place. *)
Theorem Update_without_mechanisms (m : MechanismManager vm_t) (f_out : VectorXd) :
  wf m -> tick_pre robot_position robot_velocity dt m f_out ->
  vm_nb_ m = 0%nat ->
  exists m',
    Update robot_position robot_velocity dt f_out m
    = Ok (m', fill (dim_ m) (Fin 0)) /\
    scales_ m' = [] /\ sum_ m' = Fin 0 /\ vm_vector_ m' = [].
Proof.
  intros Hwf Hpre Hn.
  assert (Hnil : vm_vector_ m = []).
  { apply length_zero_iff_nil. rewrite (wf_vm_vector _ Hwf). exact Hn. }
  exists (after_tick robot_position robot_velocity dt m).
  rewrite (Update_closed_form _ _ _ m f_out Hwf Hpre).
  unfold blended, after_tick, weights, raw_scores, updated. rewrite Hnil. simpl.
  rewrite (pre_f_out _ _ _ _ _ Hpre). repeat split; reflexivity.
Qed.

(** X4.  When every mechanism hands out a state and a state derivative of
    the dimension of the manager, the force returned by a tick has that
    dimension too, whatever the mode and the number of mechanisms. *)
Theorem Update_force_has_the_dimension (m : MechanismManager vm_t) (f_out : VectorXd) :
  wf m -> tick_pre robot_position robot_velocity dt m f_out ->
  (forall vm, vm ∈ updated robot_position robot_velocity dt m ->
     length (getState vm) = dim_ m /\ length (getStateDot vm) = dim_ m) ->
  exists m' f',
    Update robot_position robot_velocity dt f_out m = Ok (m', f') /\
    length f' = dim_ m.
Proof.
  intros Hwf Hpre Hst.
  exists (after_tick robot_position robot_velocity dt m),
         (blended robot_position robot_velocity dt m f_out).
  split; [apply Update_closed_form; assumption |].
  destruct Hpre as [Hp Hv _ Hf].
  unfold blended. rewrite length_foldl_vadd.
  - unfold fill. rewrite length_replicate. exact Hf.
  - intros c Hc. apply list_elem_of_fmap in Hc as (vm & -> & Hvm).
    unfold contribution, fill. rewrite length_svmul, length_replicate, Hf.
    destruct (Hst vm Hvm) as [Hs Hsd].
    apply length_vm_force; assumption.
Qed.

(** X5.  Hard mode with a single mechanism whose probability is finite
    and positive: the scale is 1 whatever the probability, and the force
    is the spring-damper term of that mechanism,
    [K * (state - position) + B * (state_dot - velocity)], unscaled. *)
Theorem Update_HARD_single_mechanism
        (m : MechanismManager vm_t) (f_out : VectorXd) (vm0 : vm_t) (p : R) :
  wf m -> tick_pre robot_position robot_velocity dt m f_out ->
  prob_mode_ m = HARD ->
  vm_vector_ m = [vm0] ->
  getProbability (vm_Update robot_position robot_velocity dt vm0) robot_position = Fin p ->
  (0 < p)%R ->
  length (getState (vm_Update robot_position robot_velocity dt vm0)) = dim_ m ->
  length (getStateDot (vm_Update robot_position robot_velocity dt vm0)) = dim_ m ->
  exists m',
    Update robot_position robot_velocity dt f_out m
    = Ok (m', vm_force (vm_Update robot_position robot_velocity dt vm0)
                       (getState (vm_Update robot_position robot_velocity dt vm0))
                       (getStateDot (vm_Update robot_position robot_velocity dt vm0))
                       robot_position robot_velocity) /\
    scales_ m' = [Fin 1].
Proof.
  intros Hwf Hpre Hmode Hvms Hp Hpos Hs Hsd.
  exists (after_tick robot_position robot_velocity dt m).
  rewrite (Update_closed_form _ _ _ m f_out Hwf Hpre).
  assert (Hw : weight_of robot_position robot_velocity dt m
                         (vm_Update robot_position robot_velocity dt vm0) = Fin 1).
  { unfold weight_of, raw_scores, updated. rewrite Hmode, Hvms. simpl. rewrite Hp.
    rewrite ddiv_Fin by lra. f_equal. field. lra. }
  split.
  - f_equal. f_equal.
    unfold blended, contribution, updated. rewrite Hvms. simpl.
    rewrite Hw, svmul_1_l. apply vadd_zeros_l.
    destruct Hpre as [Hrp Hrv _ Hf].
    rewrite (length_vm_force _ (dim_ m)) by assumption. lia.
  - simpl. unfold weights, updated. rewrite Hvms. simpl. rewrite Hw. reflexivity.
Qed.

End TickShapeOfForce.

Lemma Update_without_mechanisms_witness :
  exists m',
    Update Stub.origin Stub.origin Stub.dt Stub.origin (Stub.manager SOFT [])
    = Ok (m', fill 3 (Fin 0)) /\
    scales_ m' = [] /\ sum_ m' = Fin 0 /\ vm_vector_ m' = [].
Proof.
  apply (Update_without_mechanisms Stub.origin Stub.origin Stub.dt
           (Stub.manager SOFT []) Stub.origin).
  - apply Stub_manager_wf.
  - apply Stub_tick_pre.
  - reflexivity.
Defined.

Lemma Update_force_has_the_dimension_witness :
  exists m' f',
    Update Stub.origin Stub.origin Stub.dt Stub.origin
           (Stub.manager SOFT [Stub.resting (Fin 1) (Fin 1); Stub.resting (Fin 0) NaN])
    = Ok (m', f') /\
    length f' = 3%nat.
Proof.
  apply (Update_force_has_the_dimension Stub.origin Stub.origin Stub.dt
           (Stub.manager SOFT [Stub.resting (Fin 1) (Fin 1); Stub.resting (Fin 0) NaN])
           Stub.origin).
  - apply Stub_manager_wf.
  - apply Stub_tick_pre.
  - intros vm Hvm. simpl in Hvm.
    apply elem_of_cons in Hvm as [-> | Hvm];
      [| apply list_elem_of_singleton in Hvm; subst vm]; split; reflexivity.
Defined.

Lemma Update_HARD_single_mechanism_witness :
  exists m',
    Update Stub.origin Stub.origin Stub.dt Stub.origin
           (Stub.manager HARD [Stub.resting (Fin (1/2)) (Fin 7)])
    = Ok (m', vm_force
                (vm_Update Stub.origin Stub.origin Stub.dt
                           (Stub.resting (Fin (1/2)) (Fin 7)))
                (getState (vm_Update Stub.origin Stub.origin Stub.dt
                                     (Stub.resting (Fin (1/2)) (Fin 7))))
                (getStateDot (vm_Update Stub.origin Stub.origin Stub.dt
                                        (Stub.resting (Fin (1/2)) (Fin 7))))
                Stub.origin Stub.origin) /\
    scales_ m' = [Fin 1].
Proof.
  apply (Update_HARD_single_mechanism Stub.origin Stub.origin Stub.dt
           (Stub.manager HARD [Stub.resting (Fin (1/2)) (Fin 7)]) Stub.origin
           (Stub.resting (Fin (1/2)) (Fin 7)) (1/2)%R);
    try reflexivity.
  - apply Stub_manager_wf.
  - apply Stub_tick_pre.
  - lra.
Defined.

Section ScaleRanges.
Context {vm_t : Type} `{VirtualMechanism vm_t}.
Variables robot_position robot_velocity : VectorXd.
Variable dt : double.
Local Open Scope R_scope.

Lemma Rsum_fmap_elem_le {A} (f : A -> R) (l : list A) (x : A) :
  (forall y, y ∈ l -> 0 <= f y) -> x ∈ l -> f x <= Rsum (f <$> l).
Proof.
  induction l as [| y l IH]; intros Hf Hx; [inversion Hx |].
  rewrite fmap_cons, Rsum_cons.
  assert (0 <= f y) by (apply Hf; left).
  assert (0 <= Rsum (f <$> l))
    by (apply Rsum_fmap_nonneg; intros z Hz; apply Hf; right; exact Hz).
  apply elem_of_cons in Hx as [-> | Hx]; [lra |].
  assert (f x <= Rsum (f <$> l)); [| lra].
  apply IH; auto. intros z Hz. apply Hf. right. exact Hz.
Qed.

(** The weight of Soft mode for a zero score and a zero sum, whatever the
    distance is. *)
Lemma soft_weight_zero_over_zero (d : double) :
  ddiv (dmul (dexp (dmul (of_int (-10)) d)) (Fin 0)) (Fin 0) = NaN.
Proof.
  assert (E0 : Reqb 0 0 = true) by (apply Reqb_true; reflexivity).
  assert (E1 : Reqb (-10) 0 = false) by (apply Reqb_false; lra).
  assert (E2 : Rltb 0 (-10) = false) by (apply Rltb_false; lra).
  destruct d as [r | | |]; unfold of_int; simpl; unfold inf_times;
    rewrite ?E1, ?E2; simpl; unfold inf_times; rewrite ?E0; try reflexivity.
  - assert (E3 : Reqb (exp (-10 * r) * 0) 0 = true) by (apply Reqb_true; lra).
    rewrite E3. reflexivity.
  - assert (E3 : Reqb (0 * 0) 0 = true) by (apply Reqb_true; lra).
    rewrite E3. reflexivity.
Qed.

(** X6.  Soft mode has the same unguarded division as Hard mode: when
    every mechanism has the raw score 0, every scale is NaN, and so is
    every coefficient of the force, whatever the distances are. *)
Theorem Update_SOFT_zero_scores_gives_NaN (m : MechanismManager vm_t) (f_out : VectorXd) :
  wf m -> tick_pre robot_position robot_velocity dt m f_out ->
  prob_mode_ m = SOFT ->
  (1 <= vm_nb_ m)%nat ->
  (forall vm, vm ∈ updated robot_position robot_velocity dt m ->
              getProbability vm robot_position = Fin 0) ->
  exists m' f',
    Update robot_position robot_velocity dt f_out m = Ok (m', f') /\
    sum_ m' = Fin 0 /\
    length (scales_ m') = vm_nb_ m /\
    (forall w, w ∈ scales_ m' -> w = NaN) /\
    (forall x, x ∈ f' -> x = NaN).
Proof.
  intros Hwf Hpre Hmode Hnb Hzero.
  exists (after_tick robot_position robot_velocity dt m),
         (blended robot_position robot_velocity dt m f_out).
  split; [apply Update_closed_form; assumption |].
  assert (Hsum : vsum (raw_scores robot_position robot_velocity dt m) = Fin 0).
  { unfold raw_scores. rewrite Hmode. simpl.
    rewrite (vsum_all_Fin _ (fun _ => 0%R)) by exact Hzero.
    f_equal. apply Rsum_all_zero. reflexivity. }
  assert (Hw : forall vm, vm ∈ updated robot_position robot_velocity dt m ->
                          weight_of robot_position robot_velocity dt m vm = NaN).
  { intros vm Hvm. unfold weight_of. rewrite Hsum, Hmode. simpl raw_score. simpl weight.
    rewrite (Hzero vm Hvm). apply soft_weight_zero_over_zero. }
  simpl. split; [exact Hsum |].
  split.
  { unfold weights, updated. rewrite !length_fmap. apply Hwf. }
  split.
  - intros w Hin. unfold weights in Hin.
    apply list_elem_of_fmap in Hin as (vm & -> & Hvm). apply Hw. exact Hvm.
  - apply foldl_vadd_all_NaN.
    + right. intros Hnil. apply (f_equal length) in Hnil.
      unfold updated in Hnil. rewrite !length_fmap in Hnil.
      rewrite (wf_vm_vector _ Hwf) in Hnil. simpl in Hnil. lia.
    + intros c Hc. apply list_elem_of_fmap in Hc as (vm & -> & Hvm).
      unfold contribution. rewrite (Hw vm Hvm). apply svmul_NaN.
Qed.

(** X7.  Potential mode never divides, so it leaves no NaN behind: when
    the distances are finite and non-negative, every scale left by the
    tick is a finite number between 0 and 1, a mechanism at distance 0
    has the scale 1, and the sum kept in [sum_] is the plain sum of the
    scales, which is at least the largest of them.  The lower bound is
    not strict: [std::exp] returns 0 for a distance beyond about 74.5. *)
Theorem Update_POTENTIAL_scales_in_unit_interval
        (m : MechanismManager vm_t) (f_out : VectorXd) :
  wf m -> tick_pre robot_position robot_velocity dt m f_out ->
  prob_mode_ m = POTENTIAL ->
  (forall vm, vm ∈ updated robot_position robot_velocity dt m ->
     exists d, getDistance vm robot_position = Fin d /\ 0 <= d) ->
  exists m' f' total,
    Update robot_position robot_velocity dt f_out m = Ok (m', f') /\
    sum_ m' = Fin total /\ vsum (scales_ m') = Fin total /\
    (forall w, w ∈ scales_ m' -> exists r, w = Fin r /\ 0 <= r <= 1 /\ r <= total) /\
    (forall i vm, updated robot_position robot_velocity dt m !! i = Some vm ->
       getDistance vm robot_position = Fin 0 ->
       scales_ m' !! i = Some (Fin 1)).
Proof.
  intros Hwf Hpre Hmode Hdist.
  set (L := updated robot_position robot_velocity dt m) in *.
  set (e := fun vm => exp (-10 * fin_part (getDistance vm robot_position))).
  assert (He : forall vm, vm ∈ L ->
             raw_score (prob_mode_ m) vm robot_position = Fin (e vm) /\ 0 <= e vm <= 1).
  { intros vm Hvm. destruct (Hdist vm Hvm) as (d & Hd & Hd0).
    rewrite Hmode. unfold e. simpl. rewrite Hd. simpl. split; [reflexivity |].
    split; [left; apply exp_pos | apply exp_nonpos_le_1; lra]. }
  assert (Hsum : vsum (raw_scores robot_position robot_velocity dt m)
                 = Fin (Rsum (e <$> L))).
  { unfold raw_scores. fold L. apply vsum_all_Fin. intros vm Hvm. apply He. exact Hvm. }
  assert (Hw : forall vm, vm ∈ L ->
             weight_of robot_position robot_velocity dt m vm = Fin (e vm)).
  { intros vm Hvm. unfold weight_of. destruct (He vm Hvm) as [Hr _].
    rewrite Hmode in *. simpl weight. exact Hr. }
  exists (after_tick robot_position robot_velocity dt m),
         (blended robot_position robot_velocity dt m f_out),
         (Rsum (e <$> L)).
  split; [apply Update_closed_form; assumption |].
  simpl. unfold weights. fold L.
  split; [exact Hsum |].
  split; [apply vsum_all_Fin; exact Hw |].
  split.
  - intros w Hin. apply list_elem_of_fmap in Hin as (vm & -> & Hvm).
    exists (e vm). split; [apply Hw; exact Hvm |].
    split; [apply He; exact Hvm |].
    apply Rsum_fmap_elem_le; [| exact Hvm].
    intros y Hy. destruct (He y Hy) as [_ [Hpos _]]. lra.
  - intros i vm Hi Hd. rewrite list_lookup_fmap, Hi. simpl. f_equal.
    rewrite (Hw vm) by (eapply list_elem_of_lookup_2; exact Hi).
    unfold e. rewrite Hd. simpl. rewrite Rmult_0_r, exp_0. reflexivity.
Qed.

(** X8.  In Hard mode, when the probabilities are finite and
    non-negative, no scale left by the tick is greater than 1: each scale
    is either NaN (exactly when the probabilities are all 0) or a number
    between 0 and 1. *)
Theorem Update_HARD_scales_at_most_1 (m : MechanismManager vm_t) (f_out : VectorXd) :
  wf m -> tick_pre robot_position robot_velocity dt m f_out ->
  prob_mode_ m = HARD ->
  (forall vm, vm ∈ updated robot_position robot_velocity dt m ->
     exists p, getProbability vm robot_position = Fin p /\ 0 <= p) ->
  exists m' f',
    Update robot_position robot_velocity dt f_out m = Ok (m', f') /\
    (forall w, w ∈ scales_ m' ->
       dgt w (Fin 1) = false /\
       ((w = NaN /\ sum_ m' = Fin 0) \/ (exists r, w = Fin r /\ 0 <= r <= 1))).
Proof.
  intros Hwf Hpre Hmode Hscore.
  set (L := updated robot_position robot_velocity dt m) in *.
  set (p := fun vm => fin_part (getProbability vm robot_position)).
  set (S := Rsum (p <$> L)).
  assert (Hp : forall vm, vm ∈ L -> getProbability vm robot_position = Fin (p vm) /\ 0 <= p vm).
  { intros vm Hvm. destruct (Hscore vm Hvm) as (q & Hq & Hq0).
    unfold p. rewrite Hq. simpl. auto. }
  assert (Hsum : vsum (raw_scores robot_position robot_velocity dt m) = Fin S).
  { unfold raw_scores. fold L. apply vsum_all_Fin.
    intros vm Hvm. rewrite Hmode. simpl. apply Hp. exact Hvm. }
  assert (HS : 0 <= S).
  { apply Rsum_fmap_nonneg. intros vm Hvm. apply Hp. exact Hvm. }
  exists (after_tick robot_position robot_velocity dt m),
         (blended robot_position robot_velocity dt m f_out).
  split; [apply Update_closed_form; assumption |].
  simpl. unfold weights. fold L.
  intros w Hin. apply list_elem_of_fmap in Hin as (vm & -> & Hvm).
  destruct (Hp vm Hvm) as [Hpv Hp0].
  assert (Hle : p vm <= S).
  { apply (Rsum_fmap_elem_le p L vm); [| exact Hvm]. intros y Hy. apply Hp. exact Hy. }
  unfold weight_of. rewrite Hsum, Hmode. simpl raw_score. simpl weight. rewrite Hpv.
  destruct (Req_dec_T S 0) as [HS0 | HS0].
  - assert (Hpz : p vm = 0) by lra.
    rewrite HS0, Hpz, ddiv_zero_zero. split; [reflexivity |].
    left. split; reflexivity.
  - rewrite ddiv_Fin by exact HS0.
    assert (Hr : 0 <= p vm / S <= 1).
    { split; [apply div_nonneg; lra |].
      apply (Rmult_le_reg_r S); [lra |]. field_simplify; lra. }
    split.
    + unfold dgt. simpl. apply Rltb_false. lra.
    + right. exists (p vm / S). split; [reflexivity | exact Hr].
Qed.

End ScaleRanges.

Lemma Update_SOFT_zero_scores_gives_NaN_witness :
  exists m' f',
    Update Stub.origin Stub.origin Stub.dt Stub.origin
           (Stub.manager SOFT [Stub.resting (Fin 0) PInf]) = Ok (m', f') /\
    sum_ m' = Fin 0 /\
    length (scales_ m') = 1%nat /\
    (forall w, w ∈ scales_ m' -> w = NaN) /\
    (forall x, x ∈ f' -> x = NaN).
Proof.
  apply (Update_SOFT_zero_scores_gives_NaN Stub.origin Stub.origin Stub.dt
           (Stub.manager SOFT [Stub.resting (Fin 0) PInf]) Stub.origin).
  - apply Stub_manager_wf.
  - apply Stub_tick_pre.
  - reflexivity.
  - simpl. lia.
  - intros vm Hvm. simpl in Hvm. apply list_elem_of_singleton in Hvm. subst vm. reflexivity.
Defined.

Lemma Update_POTENTIAL_scales_in_unit_interval_witness :
  exists m' f' total,
    Update Stub.origin Stub.origin Stub.dt Stub.origin
           (Stub.manager POTENTIAL [Stub.resting (Fin 0) (Fin 0);
                                    Stub.resting (Fin 0) (Fin 3)]) = Ok (m', f') /\
    sum_ m' = Fin total /\ vsum (scales_ m') = Fin total /\
    (forall w, w ∈ scales_ m' ->
       exists r, w = Fin r /\ (0 <= r <= 1)%R /\ (r <= total)%R) /\
    (forall i vm,
       updated Stub.origin Stub.origin Stub.dt
               (Stub.manager POTENTIAL [Stub.resting (Fin 0) (Fin 0);
                                        Stub.resting (Fin 0) (Fin 3)]) !! i = Some vm ->
       getDistance vm Stub.origin = Fin 0 ->
       scales_ m' !! i = Some (Fin 1)).
Proof.
  apply (Update_POTENTIAL_scales_in_unit_interval Stub.origin Stub.origin Stub.dt
           (Stub.manager POTENTIAL [Stub.resting (Fin 0) (Fin 0);
                                    Stub.resting (Fin 0) (Fin 3)]) Stub.origin).
  - apply Stub_manager_wf.
  - apply Stub_tick_pre.
  - reflexivity.
  - intros vm Hvm. simpl in Hvm.
    apply elem_of_cons in Hvm as [-> | Hvm];
      [| apply list_elem_of_singleton in Hvm; subst vm];
      eexists; (split; [reflexivity | lra]).
Defined.

Lemma Update_HARD_scales_at_most_1_witness :
  exists m' f',
    Update Stub.origin Stub.origin Stub.dt Stub.origin
           (Stub.manager HARD [Stub.resting (Fin 3) (Fin 0);
                               Stub.resting (Fin 0) (Fin 0)]) = Ok (m', f') /\
    (forall w, w ∈ scales_ m' ->
       dgt w (Fin 1) = false /\
       ((w = NaN /\ sum_ m' = Fin 0) \/ (exists r, w = Fin r /\ (0 <= r <= 1)%R))).
Proof.
  apply (Update_HARD_scales_at_most_1 Stub.origin Stub.origin Stub.dt
           (Stub.manager HARD [Stub.resting (Fin 3) (Fin 0);
                               Stub.resting (Fin 0) (Fin 0)]) Stub.origin).
  - apply Stub_manager_wf.
  - apply Stub_tick_pre.
  - reflexivity.
  - intros vm Hvm. simpl in Hvm.
    apply elem_of_cons in Hvm as [-> | Hvm];
      [| apply list_elem_of_singleton in Hvm; subst vm];
      eexists; (split; [reflexivity | lra]).
Defined.

(** * Further properties of the gate and of the direction *)

Section GateEdges.
Context {vm_t : Type} `{VirtualMechanism vm_t}.
Variables robot_position robot_velocity : VectorXd.
Variable dt : double.

Local Abbreviation MM := (MechanismManager vm_t).

(** The manager after the gate loop run with [force_applied = true]. *)
Definition all_released (m : MM) : MM :=
  with_active_guide (replicate (vm_nb_ m) false)
    (with_vm_vector (setActive false <$> vm_vector_ m) m).

Lemma replicate_as_splice {A} (k : nat) (l old : list A) (x : A) :
  (k <= length l)%nat ->
  splice (fun _ => x) k l old = replicate k x ++ drop k old.
Proof.
  intros Hk. unfold splice. f_equal.
  revert l Hk. induction k as [| k IH]; intros l Hk; [reflexivity |].
  destruct l as [| y l]; [simpl in Hk; lia |].
  simpl. f_equal. apply IH. simpl in Hk. lia.
Qed.

Lemma release_loop (m : MM) :
  wf m -> for_loop (gate_pass true) 0 (vm_nb_ m) m = Ok (all_released m).
Proof.
  intros [Hv Hs Hp Hst Hsd Hag].
  set (G := fun k =>
    with_active_guide (splice (fun _ : vm_t => false) k (vm_vector_ m) (active_guide_ m))
      (with_vm_vector (splice (setActive false) k (vm_vector_ m) (vm_vector_ m)) m)).
  assert (H0 : G 0%nat = m).
  { unfold G. rewrite !splice_0. destruct m; reflexivity. }
  assert (Hn : G (vm_nb_ m) = all_released m).
  { unfold G, all_released. rewrite <- Hv at 1 2. rewrite !splice_all by lia.
    f_equal. rewrite <- Hv. clear. induction (vm_vector_ m) as [| x l IH]; [reflexivity |].
    rewrite fmap_cons. simpl. f_equal. exact IH. }
  rewrite <- H0 at 2. rewrite <- Hn.
  apply (for_loop_closed G). intros k Hk.
  destruct (lookup_lt_is_Some_2 (vm_vector_ m) k) as [vm Hvm]; [lia |].
  unfold gate_pass, guide_condition. simpl.
  rewrite (vget_lookup _ _ vm) by (rewrite lookup_splice_old by lia; exact Hvm).
  simpl.
  rewrite (vset_splice (setActive false) k (vm_vector_ m) (vm_vector_ m) vm) by (auto; lia).
  simpl.
  rewrite (vset_splice (fun _ : vm_t => false) k (vm_vector_ m) (active_guide_ m) vm)
    by (auto; lia).
  reflexivity.
Qed.

(** X9.  A tick with [force_applied = true] switches every guide off:
    whatever the scales and the guide options are, each mechanism receives
    [setActive(false)] before it is updated and each flag of
    [active_guide_] is false.  The option list [use_active_guide_] is not
    read in that case, so the tick returns also when that list is shorter
    than the list of mechanisms. *)
Theorem force_applied_switches_every_guide_off (m : MM) (f_out : VectorXd) :
  wf m -> tick_pre robot_position robot_velocity dt m f_out ->
  exists m' f',
    Update_force_applied robot_position robot_velocity dt f_out true m = Ok (m', f') /\
    active_guide_ m' = replicate (vm_nb_ m) false /\
    vm_vector_ m'
    = (fun vm => vm_Update robot_position robot_velocity dt (setActive false vm))
        <$> vm_vector_ m.
Proof.
  intros Hwf Hpre.
  exists (after_tick robot_position robot_velocity dt (all_released m)),
         (blended robot_position robot_velocity dt (all_released m) f_out).
  split.
  - unfold Update_force_applied. rewrite (release_loop m Hwf). simpl.
    apply Update_closed_form.
    + destruct Hwf as [Hv Hs Hp Hst Hsd Hag].
      constructor; simpl; rewrite ?length_fmap, ?length_replicate; auto.
    + destruct Hpre as [Hp Hv Hdt Hf]. constructor; assumption.
  - simpl. split; [reflexivity |].
    unfold updated. simpl. rewrite <- list_fmap_compose. reflexivity.
Qed.

End GateEdges.

(** A manager without any guide option: the tick with the force applied
    still returns. *)
Lemma force_applied_switches_every_guide_off_witness :
  exists m' f',
    Update_force_applied Stub.origin Stub.origin Stub.dt Stub.origin true
      (mkManager 3 1 [Stub.resting (Fin 1) (Fin 0)]
                 [fill 3 (Fin 0)] [fill 3 (Fin 0)] [true] [false] []
                 [Fin 1] [Fin 0] (fill 3 (Fin 0)) HARD (Fin 0) (Fin 0))
      = Ok (m', f') /\
    active_guide_ m' = replicate 1 false /\
    vm_vector_ m'
    = (fun vm => vm_Update Stub.origin Stub.origin Stub.dt (setActive false vm))
        <$> [Stub.resting (Fin 1) (Fin 0)].
Proof.
  apply (force_applied_switches_every_guide_off Stub.origin Stub.origin Stub.dt
           (mkManager 3 1 [Stub.resting (Fin 1) (Fin 0)]
                      [fill 3 (Fin 0)] [fill 3 (Fin 0)] [true] [false] []
                      [Fin 1] [Fin 0] (fill 3 (Fin 0)) HARD (Fin 0) (Fin 0))
           Stub.origin).
  - constructor; reflexivity.
  - constructor; try reflexivity. apply dgt_Fin. lra.
Defined.

Section SingleMechanism.
Context {vm_t : Type} `{VirtualMechanism vm_t}.
Variables robot_position robot_velocity : VectorXd.
Variable dt : double.
Local Open Scope R_scope.

Lemma dgt_false_weaken (s : double) (a b : R) :
  dgt s (Fin a) = false -> a <= b -> dgt s (Fin b) = false.
Proof.
  intros Hs Hab. destruct s as [r | | |]; try reflexivity; try discriminate.
  unfold dgt in *. simpl in *. apply Rltb_false in Hs. apply Rltb_false. lra.
Qed.

(** X10.  A manager built from a configuration with a single mechanism
    has the threshold 1/1 + 0.2 = 1.2.  As long as no scale exceeds 1 (as
    is the case after the constructor and after every Hard-mode tick on
    non-negative probabilities), the tick through the overload with
    [force_applied] leaves the only guide inactive, whatever
    [force_applied] and [use_active_guide] are: with one mechanism the
    active guide is never switched on. *)
Theorem single_mechanism_guide_stays_off
        (cfg : Config vm_t) (m : MechanismManager vm_t) (f_out : VectorXd)
        (force_applied : bool) :
  reachable (Some cfg) m ->
  length (cfg_models cfg) = 1%nat ->
  (1 <= length (cfg_use_active_guide cfg))%nat ->
  tick_pre robot_position robot_velocity dt m f_out ->
  (forall s, s ∈ scales_ m -> dgt s (Fin 1) = false) ->
  exists m' f',
    Update_force_applied robot_position robot_velocity dt f_out force_applied m
      = Ok (m', f') /\
    scale_threshold_ m = Fin (12 / 10) /\
    active_guide_ m' = [false].
Proof.
  intros Hreach Hone Hcfg Hpre Hscales.
  destruct (reachable_shape _ _ Hreach) as (cfg' & uag & Hfile & Hopts & Hn & Hshape).
  injection Hfile as <-.
  destruct Hshape as [Hwf Hdim Hnb Hth Huag].
  rewrite Hopts, length_fmap in Hcfg.
  assert (Hu : (vm_nb_ m <= length (use_active_guide_ m))%nat)
    by (rewrite Hnb, Huag, Hone; exact Hcfg).
  assert (Htau : scale_threshold_ m = Fin (12 / 10)).
  { rewrite Hth, Hone. unfold threshold_for. simpl. f_equal. lra. }
  exists (after_tick robot_position robot_velocity dt (gated force_applied m)),
         (blended robot_position robot_velocity dt (gated force_applied m) f_out).
  split.
  { unfold Update_force_applied.
    rewrite (gate_loop force_applied m Hwf Hu). simpl.
    apply Update_closed_form.
    - apply gated_wf; assumption.
    - destruct Hpre as [Hp Hv Hdt Hf]. constructor; assumption. }
  split; [exact Htau |].
  simpl.
  pose proof (length_gate_pairs force_applied m Hwf Hu) as Hlen.
  rewrite Hnb, Hone in Hlen.
  destruct (gate_pairs force_applied m) as [| [c vm] [| ? ?]] eqn:Hgp;
    simpl in Hlen; try lia.
  simpl. f_equal.
  assert (Hin : (c, vm) ∈ gate_pairs force_applied m) by (rewrite Hgp; left).
  unfold gate_pairs in Hin. apply elem_of_zip_l in Hin.
  apply elem_of_zip_with in Hin as (s & u & -> & Hs & _).
  unfold gate. rewrite Htau.
  rewrite (dgt_false_weaken s 1 (12 / 10)) by (auto; lra).
  rewrite andb_false_r. reflexivity.
Qed.

End SingleMechanism.

Lemma single_mechanism_guide_stays_off_witness :
  exists m' f',
    Update_force_applied Stub.origin Stub.origin Stub.dt Stub.origin false
      (mkManager 3 1 [Stub.resting (Fin 1) (Fin 0)]
                 [fill 3 (Fin 0)] [fill 3 (Fin 0)] [false] [false] [true]
                 [Fin 0] [Fin 0] (fill 3 (Fin 0)) HARD (Fin 0)
                 (Fin (1 / 1 + 2 / 10)))
      = Ok (m', f') /\
    Fin (1 / 1 + 2 / 10) = Fin (12 / 10) /\
    active_guide_ m' = [false].
Proof.
  apply (single_mechanism_guide_stays_off Stub.origin Stub.origin Stub.dt
           (mkConfig [Some (Ok (Stub.resting (Fin 1) (Fin 0)))] (Some "hard"%string)
                     [Some false] [Some true])).
  - apply reach_new. exact Stub_built.
  - reflexivity.
  - simpl. lia.
  - constructor; try reflexivity. apply dgt_Fin. lra.
  - intros s Hs. simpl in Hs. apply list_elem_of_singleton in Hs. subst s.
    unfold dgt. simpl. apply Rltb_false. lra.
Defined.

Section Direction.
Context {vm_t : Type} `{VirtualMechanism vm_t}.
Variables robot_position robot_velocity : VectorXd.
Variable dt : double.

Local Abbreviation MM := (MechanismManager vm_t).

(** The call made on a mechanism by the direction loop. *)
Definition move (move_forward : bool) (vm : vm_t) : vm_t :=
  if move_forward then moveForward vm else moveBackward vm.

Definition directed (move_forward : bool) (m : MM) : MM :=
  with_vm_vector (move move_forward <$> vm_vector_ m) m.

Lemma direction_loop (move_forward : bool) (m : MM) :
  wf m ->
  for_loop (direction_pass move_forward) 0 (vm_nb_ m) m = Ok (directed move_forward m).
Proof.
  intros [Hv Hs Hp Hst Hsd Hag].
  set (G := fun k =>
    with_vm_vector (splice (move move_forward) k (vm_vector_ m) (vm_vector_ m)) m).
  assert (H0 : G 0%nat = m).
  { unfold G. rewrite !splice_0. destruct m; reflexivity. }
  assert (Hn : G (vm_nb_ m) = directed move_forward m).
  { unfold G, directed. rewrite <- Hv at 1. rewrite !splice_all by lia. reflexivity. }
  rewrite <- H0 at 2. rewrite <- Hn.
  apply (for_loop_closed G). intros k Hk.
  destruct (lookup_lt_is_Some_2 (vm_vector_ m) k) as [vm Hvm]; [lia |].
  unfold direction_pass. simpl.
  rewrite (vget_lookup _ _ vm) by (rewrite lookup_splice_old by lia; exact Hvm).
  simpl.
  change (if move_forward then moveForward vm else moveBackward vm)
    with (move move_forward vm).
  rewrite (vset_splice (move move_forward) k (vm_vector_ m) (vm_vector_ m) vm)
    by (auto; lia).
  reflexivity.
Qed.

(** X11.  The overload with [move_forward] is the overload with
    [force_applied] run on the manager whose mechanisms have all received
    [moveForward()] (or all [moveBackward()]): the direction is set on
    every mechanism, whatever [force_applied] is, before the gate decides
    and before the mechanism is updated, and it does not change the
    decision of the gate, which depends on the scale left by the previous
    tick only. *)
Theorem Update_move_forward_sets_direction_first
        (m : MM) (f_out : VectorXd) (force_applied move_forward : bool) :
  wf m -> (vm_nb_ m <= length (use_active_guide_ m))%nat ->
  tick_pre robot_position robot_velocity dt m f_out ->
  exists m' f',
    Update_move_forward robot_position robot_velocity dt f_out
                        force_applied move_forward m = Ok (m', f') /\
    Update_force_applied robot_position robot_velocity dt f_out force_applied
                         (directed move_forward m) = Ok (m', f') /\
    forall i vm s u,
      vm_vector_ m !! i = Some vm ->
      scales_ m !! i = Some s ->
      use_active_guide_ m !! i = Some u ->
      let on := negb force_applied && dgt s (scale_threshold_ m) && u in
      active_guide_ m' !! i = Some on /\
      vm_vector_ m' !! i
        = Some (vm_Update robot_position robot_velocity dt
                          (setActive on (move move_forward vm))).
Proof.
  intros Hwf Hu Hpre.
  set (md := directed move_forward m).
  assert (Hwfd : wf md).
  { destruct Hwf as [Hv Hs Hp Hst Hsd Hag].
    constructor; simpl; rewrite ?length_fmap; auto. }
  assert (Hud : (vm_nb_ md <= length (use_active_guide_ md))%nat) by exact Hu.
  assert (Hfa : Update_force_applied robot_position robot_velocity dt f_out force_applied md
                = Ok (after_tick robot_position robot_velocity dt (gated force_applied md),
                      blended robot_position robot_velocity dt (gated force_applied md) f_out)).
  { unfold Update_force_applied.
    rewrite (gate_loop force_applied md Hwfd Hud). simpl.
    apply Update_closed_form.
    - apply gated_wf; assumption.
    - destruct Hpre as [Hp Hv Hdt Hf]. constructor; assumption. }
  exists (after_tick robot_position robot_velocity dt (gated force_applied md)),
         (blended robot_position robot_velocity dt (gated force_applied md) f_out).
  split.
  { unfold Update_move_forward. rewrite (direction_loop move_forward m Hwf). exact Hfa. }
  split; [exact Hfa |].
  intros i vm s u Hvm Hs Hui on.
  assert (Hvmd : vm_vector_ md !! i = Some (move move_forward vm)).
  { simpl. rewrite list_lookup_fmap, Hvm. reflexivity. }
  pose proof (lookup_gate_pairs force_applied md i _ s u Hvmd Hs Hui) as Hpair.
  split.
  - simpl. rewrite list_lookup_fmap, Hpair. reflexivity.
  - simpl. unfold updated. simpl.
    rewrite !list_lookup_fmap, Hpair. reflexivity.
Qed.

End Direction.

Lemma Update_move_forward_sets_direction_first_witness :
  exists m' f',
    Update_move_forward Stub.origin Stub.origin Stub.dt Stub.origin false false
      (Stub.manager HARD [Stub.resting (Fin 1) (Fin 0)]) = Ok (m', f') /\
    Update_force_applied Stub.origin Stub.origin Stub.dt Stub.origin false
      (directed false (Stub.manager HARD [Stub.resting (Fin 1) (Fin 0)])) = Ok (m', f') /\
    forall i vm s u,
      vm_vector_ (Stub.manager HARD [Stub.resting (Fin 1) (Fin 0)]) !! i = Some vm ->
      scales_ (Stub.manager HARD [Stub.resting (Fin 1) (Fin 0)]) !! i = Some s ->
      use_active_guide_ (Stub.manager HARD [Stub.resting (Fin 1) (Fin 0)]) !! i = Some u ->
      let on := negb false
                && dgt s (scale_threshold_ (Stub.manager HARD [Stub.resting (Fin 1) (Fin 0)]))
                && u in
      active_guide_ m' !! i = Some on /\
      vm_vector_ m' !! i
        = Some (vm_Update Stub.origin Stub.origin Stub.dt (setActive on (move false vm))).
Proof.
  apply (Update_move_forward_sets_direction_first Stub.origin Stub.origin Stub.dt
           (Stub.manager HARD [Stub.resting (Fin 1) (Fin 0)]) Stub.origin false false).
  - apply Stub_manager_wf.
  - simpl. lia.
  - apply Stub_tick_pre.
Defined.

(** * The order of the mechanisms *)

Section OrderOfMechanisms.
Local Open Scope R_scope.

Lemma dadd_comm (a b : double) : dadd a b = dadd b a.
Proof. destruct a, b; simpl; try reflexivity. f_equal. lra. Qed.

Lemma dadd_assoc (a b c : double) : dadd (dadd a b) c = dadd a (dadd b c).
Proof. destruct a, b, c; simpl; try reflexivity. f_equal. lra. Qed.

Lemma vadd_comm (a b : VectorXd) : vadd a b = vadd b a.
Proof.
  unfold vadd. revert b. induction a as [| x a IH]; intros [| y b]; try reflexivity.
  simpl. rewrite dadd_comm, IH. reflexivity.
Qed.

Lemma vadd_assoc (a b c : VectorXd) : vadd (vadd a b) c = vadd a (vadd b c).
Proof.
  unfold vadd. revert b c.
  induction a as [| x a IH]; intros [| y b] [| z c]; try reflexivity.
  simpl. rewrite dadd_assoc, IH. reflexivity.
Qed.

Lemma foldl_Permutation {A} (f : A -> A -> A) (l l' : list A) :
  (forall a b, f a b = f b a) -> (forall a b c, f (f a b) c = f a (f b c)) ->
  l ≡ₚ l' -> forall a, foldl f a l = foldl f a l'.
Proof.
  intros Hc Ha. induction 1 as [| x l l' _ IH | x y l | l l' l'' _ IH1 _ IH2]; intros a.
  - reflexivity.
  - simpl. apply IH.
  - simpl. f_equal. rewrite !Ha. f_equal. apply Hc.
  - rewrite IH1. apply IH2.
Qed.

Lemma vsum_foldl (v : VectorXd) : vsum v = foldl dadd (Fin 0) v.
Proof.
  destruct v as [| x v]; [reflexivity |].
  change (foldl dadd (Fin 0) (x :: v)) with (foldl dadd (dadd (Fin 0) x) v).
  rewrite dadd_0_l. reflexivity.
Qed.

Lemma vsum_Permutation (v v' : VectorXd) : v ≡ₚ v' -> vsum v = vsum v'.
Proof.
  intros Hp. rewrite !vsum_foldl.
  apply foldl_Permutation; [apply dadd_comm | apply dadd_assoc | exact Hp].
Qed.

End OrderOfMechanisms.

Section OrderTheorem.
Context {vm_t : Type} `{VirtualMechanism vm_t}.
Variables robot_position robot_velocity : VectorXd.
Variable dt : double.

(** X12.  Two managers in the same mode that hold the same mechanisms in
    a different order return, for the same inputs, the same force and the
    same sum of scores, and their scales are the same up to that
    reordering: the order in which the mechanisms were loaded has no
    effect on the blend (doubles being exact in this model, the equality
    is up to the rounding of the floating-point additions). *)
Theorem blend_does_not_depend_on_the_order
        (m1 m2 : MechanismManager vm_t) (f_out : VectorXd) :
  wf m1 -> wf m2 ->
  tick_pre robot_position robot_velocity dt m1 f_out ->
  dim_ m2 = dim_ m1 -> prob_mode_ m2 = prob_mode_ m1 ->
  vm_vector_ m1 ≡ₚ vm_vector_ m2 ->
  exists m1' m2' f',
    Update robot_position robot_velocity dt f_out m1 = Ok (m1', f') /\
    Update robot_position robot_velocity dt f_out m2 = Ok (m2', f') /\
    sum_ m1' = sum_ m2' /\
    scales_ m1' ≡ₚ scales_ m2'.
Proof.
  intros Hwf1 Hwf2 Hpre Hdim Hmode Hperm.
  assert (Hpre2 : tick_pre robot_position robot_velocity dt m2 f_out).
  { destruct Hpre as [Hp Hv Hdt Hf]. constructor; congruence. }
  assert (Hup : updated robot_position robot_velocity dt m1
                ≡ₚ updated robot_position robot_velocity dt m2).
  { unfold updated. apply fmap_Permutation. exact Hperm. }
  assert (Hraw : raw_scores robot_position robot_velocity dt m1
                 ≡ₚ raw_scores robot_position robot_velocity dt m2).
  { unfold raw_scores. rewrite Hmode. apply fmap_Permutation. exact Hup. }
  assert (Hsum : vsum (raw_scores robot_position robot_velocity dt m1)
                 = vsum (raw_scores robot_position robot_velocity dt m2)).
  { apply vsum_Permutation. exact Hraw. }
  assert (Hw : forall vm, weight_of robot_position robot_velocity dt m1 vm
                          = weight_of robot_position robot_velocity dt m2 vm).
  { intros vm. unfold weight_of. rewrite Hsum, Hmode. reflexivity. }
  exists (after_tick robot_position robot_velocity dt m1),
         (after_tick robot_position robot_velocity dt m2),
         (blended robot_position robot_velocity dt m1 f_out).
  split; [apply Update_closed_form; assumption |].
  split.
  { rewrite (Update_closed_form _ _ _ m2 f_out Hwf2 Hpre2). f_equal. f_equal.
    unfold blended. symmetry.
    apply foldl_Permutation; [apply vadd_comm | apply vadd_assoc |].
    unfold contribution.
    rewrite (list_fmap_ext _ (fun vm =>
               svmul (weight_of robot_position robot_velocity dt m2 vm)
                     (vm_force vm (getState vm) (getStateDot vm)
                               robot_position robot_velocity))
               (updated robot_position robot_velocity dt m1))
      by (intros i vm _; rewrite Hw; reflexivity).
    apply fmap_Permutation. exact Hup. }
  split; [exact Hsum |].
  simpl. unfold weights.
  rewrite (list_fmap_ext _ (weight_of robot_position robot_velocity dt m2)
             (updated robot_position robot_velocity dt m1))
    by (intros i vm _; apply Hw).
  apply fmap_Permutation. exact Hup.
Qed.

End OrderTheorem.

Lemma blend_does_not_depend_on_the_order_witness :
  exists m1' m2' f',
    Update Stub.origin Stub.origin Stub.dt Stub.origin
           (Stub.manager SOFT [Stub.resting (Fin 1) (Fin 0); Stub.resting (Fin 3) (Fin 1)])
    = Ok (m1', f') /\
    Update Stub.origin Stub.origin Stub.dt Stub.origin
           (Stub.manager SOFT [Stub.resting (Fin 3) (Fin 1); Stub.resting (Fin 1) (Fin 0)])
    = Ok (m2', f') /\
    sum_ m1' = sum_ m2' /\
    scales_ m1' ≡ₚ scales_ m2'.
Proof.
  apply (blend_does_not_depend_on_the_order Stub.origin Stub.origin Stub.dt
           (Stub.manager SOFT [Stub.resting (Fin 1) (Fin 0); Stub.resting (Fin 3) (Fin 1)])
           (Stub.manager SOFT [Stub.resting (Fin 3) (Fin 1); Stub.resting (Fin 1) (Fin 0)])
           Stub.origin).
  - apply Stub_manager_wf.
  - apply Stub_manager_wf.
  - apply Stub_tick_pre.
  - reflexivity.
  - reflexivity.
  - apply perm_swap.
Defined.

(** * The constructor of the manager *)

Lemma for_loop_stops {St} (F : nat -> St) (body : nat -> St -> exec St)
      (e : fault) (j n i : nat) :
  (i <= j < i + n)%nat ->
  (forall k, (i <= k < j)%nat -> body k (F k) = Ok (F (S k))) ->
  body j (F j) = Fail e ->
  for_loop body i n (F i) = Fail e.
Proof.
  revert i. induction n as [| n IH]; intros i Hj Hstep Hfail; [lia |].
  simpl. destruct (decide (i = j)) as [-> | Hne].
  - rewrite Hfail. reflexivity.
  - rewrite Hstep by lia. simpl. apply IH; [lia | | exact Hfail].
    intros k Hk. apply Hstep. lia.
Qed.

Lemma lookup_splice_beyond {A B} (f : A -> B) (k j : nat) (src : list A) (old : list B) :
  (k <= length src)%nat -> (k <= j)%nat -> splice f k src old !! j = old !! j.
Proof.
  intros Hk Hj. unfold splice.
  rewrite lookup_app_r; rewrite length_fmap, length_take; [| lia].
  rewrite lookup_drop. f_equal. lia.
Qed.

Lemma vset_splice_short {A B} (f : A -> B) (k : nat) (src : list A) (old : list B) (x : A) :
  (k < length old)%nat -> src !! k = Some x ->
  vset k (f x) (splice f k src old) = Ok (splice f (S k) src old).
Proof.
  intros Hko Hx.
  assert (Hk : (k < length src)%nat) by (eapply lookup_lt_Some; eauto).
  rewrite vset_in_range.
  2:{ unfold splice. rewrite length_app, length_fmap, length_take, length_drop. lia. }
  f_equal. unfold splice.
  rewrite (take_S_r _ _ _ Hx), fmap_app. simpl.
  rewrite insert_app_r_alt; rewrite length_fmap, length_take; [| lia].
  replace (k - k `min` length src)%nat with 0%nat by lia.
  destruct (drop k old) as [| y rest] eqn:Hd.
  - apply (f_equal length) in Hd. rewrite length_drop in Hd. simpl in Hd. lia.
  - simpl. rewrite <- app_assoc. simpl.
    replace (drop (S k) old) with (drop 1 (drop k old))
      by (rewrite drop_drop; f_equal; lia).
    rewrite Hd. reflexivity.
Qed.

Section Constructor.
Context {vm_t : Type} `{VirtualMechanism vm_t}.

(** What the constructor does to a mechanism and its option. *)
Definition prepared (vw : vm_t * bool) : vm_t := setWeightedDist vw.2 (Init vw.1).

(** The manager built from the mechanisms, the mode string and the two
    option lists read from the configuration. *)
Definition built (vms : list vm_t) (mode : string) (uwd uag : list bool)
  : MechanismManager vm_t :=
  let n := length vms in
  mkManager 3 n
    (prepared <$> zip vms uwd)
    (replicate n (fill 3 (Fin 0))) (replicate n (fill 3 (Fin 0)))
    (replicate n false)
    uwd uag
    (fill n (Fin 0)) (fill n (Fin 0)) (fill 3 (Fin 0))
    (parse_prob_mode mode) (Fin 0)
    (Fin (1 / INR n + 2 / 10)).

Definition init_state (vms : list vm_t) (uwd : list bool) (k : nat)
  : list vm_t * list VectorXd * list VectorXd :=
  (splice prepared k (zip vms uwd) vms,
   replicate k (fill 3 (Fin 0)), replicate k (fill 3 (Fin 0))).

Lemma init_step (vms : list vm_t) (uwd : list bool) (k : nat) :
  (k < length vms)%nat ->
  (k < length uwd)%nat ->
  (let '(v, st, std) := init_state vms uwd k in
   vm ← vget v k;
   w ← vget uwd k;
   v' ← vset k (setWeightedDist w (Init vm)) v;
   Ok (v', st ++ [fill 3 (Fin 0)], std ++ [fill 3 (Fin 0)]))
  = Ok (init_state vms uwd (S k)).
Proof.
  intros Hk Hw.
  destruct (lookup_lt_is_Some_2 vms k) as [vm Hvm]; [lia |].
  destruct (lookup_lt_is_Some_2 uwd k) as [w Hwk]; [lia |].
  assert (Hz : zip vms uwd !! k = Some (vm, w)).
  { apply lookup_zip_with_Some. exists vm, w. auto. }
  assert (Hzl : (k < length (zip vms uwd))%nat)
    by (eapply lookup_lt_Some; eauto).
  unfold init_state.
  rewrite (vget_lookup _ _ vm) by (rewrite lookup_splice_beyond by lia; exact Hvm).
  simpl. rewrite (vget_lookup _ _ _ Hwk). simpl.
  pose proof (vset_splice_short prepared k (zip vms uwd) vms (vm, w) Hk Hz) as Hset.
  unfold prepared at 1 in Hset. simpl in Hset. rewrite Hset. simpl.
  rewrite <- !replicate_S_end. reflexivity.
Qed.

Lemma init_short (vms : list vm_t) (uwd : list bool) :
  (length uwd < length vms)%nat ->
  (let '(v, st, std) := init_state vms uwd (length uwd) in
   vm ← vget v (length uwd);
   w ← vget uwd (length uwd);
   v' ← vset (length uwd) (setWeightedDist w (Init vm)) v;
   Ok (v', st ++ [fill 3 (Fin 0)], std ++ [fill 3 (Fin 0)]))
  = Fail OutOfRange.
Proof.
  intros Hshort.
  destruct (lookup_lt_is_Some_2 vms (length uwd)) as [vm Hvm]; [lia |].
  unfold init_state.
  rewrite (vget_lookup _ _ vm).
  2:{ rewrite lookup_splice_beyond; [exact Hvm | | lia].
      rewrite length_zip_with. lia. }
  simpl. unfold vget. rewrite lookup_ge_None_2 by lia. reflexivity.
Qed.

(** The constructor once [ReadConfig] has returned. *)
Lemma MechanismManager_new_after_ReadConfig
      (file : option (Config vm_t)) (flag : bool)
      (vms : list vm_t) (mode : string) (uwd uag : list bool) :
  ReadConfig file = Ok (flag, (vms, parse_prob_mode mode, uwd, uag)) ->
  MechanismManager_new file
  = if Nat.eqb (length vms) 0 then Fail AssertFail
    else if Nat.ltb (length uwd) (length vms) then Fail OutOfRange
    else Ok (built vms mode uwd uag).
Proof.
  intros Hcfg. unfold MechanismManager_new. rewrite Hcfg.
  cbn -[Nat.leb Nat.eqb Nat.ltb for_loop ddiv dadd of_nat].
  destruct (Nat.eqb_spec (length vms) 0) as [Hz | Hz].
  { rewrite Hz. reflexivity. }
  assert (Hn : Nat.leb 1 (length vms) = true) by (apply Nat.leb_le; lia).
  rewrite Hn. cbn -[Nat.leb Nat.eqb Nat.ltb for_loop ddiv dadd of_nat].
  set (body := fun (i : nat) '(v, st, std) =>
                 vm ← vget v i;
                 w ← vget uwd i;
                 v' ← vset i (setWeightedDist w (Init vm)) v;
                 Ok (v', st ++ [fill 3 (Fin 0)], std ++ [fill 3 (Fin 0)])).
  assert (H0 : init_state vms uwd 0 = (vms, [], [])) by reflexivity.
  change (for_loop _ 0 (length vms) (vms, [], []))
    with (for_loop body 0 (length vms) (init_state vms uwd 0)).
  destruct (Nat.ltb_spec (length uwd) (length vms)) as [Hshort | Hlong].
  - rewrite (for_loop_stops (init_state vms uwd) body OutOfRange (length uwd));
      [reflexivity | lia | |].
    + intros k Hk. apply init_step; lia.
    + apply init_short. exact Hshort.
  - rewrite (for_loop_closed (init_state vms uwd) body).
    2:{ intros k Hk. apply init_step; lia. }
    assert (Hlen : length (zip vms uwd) = length vms) by (rewrite length_zip_with; lia).
    assert (E : splice prepared (length vms) (zip vms uwd) vms = prepared <$> zip vms uwd).
    { rewrite <- Hlen at 1. apply splice_all. lia. }
    unfold init_state. rewrite E.
    cbn -[Nat.leb Nat.eqb Nat.ltb for_loop ddiv dadd of_nat].
    unfold built, of_nat. rewrite ddiv_Fin by (apply not_0_INR; lia). reflexivity.
Qed.

(** X13.  The outcomes of the constructor.  When the configuration file
    cannot be loaded, [ReadConfig] returns false and the constructor
    stops on its assert.  When the file loads but [prob_mode] holds no
    scalar, or an entry of [models], [use_weighted_dist] or
    [use_active_guide] cannot be converted, the exception of the
    conversion leaves the constructor: the conversions are outside the
    [try] and come before any model is loaded.  When every conversion
    succeeds and the loader of a model fails, all models before it having
    been loaded, that failure is the outcome.  When every conversion and
    every loader succeed, the constructor stops on its assert if no model
    is named, reads outside [use_weighted_dist] if that list is shorter
    than the list of models, and else returns the manager of dimension 3
    that holds one initialised mechanism per model, each with its
    weighted-distance option set, all scales and phases 0, all guides
    inactive and the threshold 1/N + 0.2; the length of
    [use_active_guide] is not looked at. *)
Theorem MechanismManager_new_outcome :
  MechanismManager_new (vm_t := vm_t) None = Fail AssertFail /\
  (forall cfg : Config vm_t,
      cfg_prob_mode cfg = None \/ None ∈ cfg_models cfg \/
      None ∈ cfg_use_weighted_dist cfg \/ None ∈ cfg_use_active_guide cfg ->
      MechanismManager_new (Some cfg) = Fail Exception) /\
  (forall (models : list (exec vm_t)) (mode : string) (uwd uag : list bool)
          (k : nat) (f : fault),
      models !! k = Some (Fail f) ->
      (forall j, (j < k)%nat -> exists vm, models !! j = Some (Ok vm)) ->
      MechanismManager_new
        (Some (mkConfig (Some <$> models) (Some mode) (Some <$> uwd) (Some <$> uag)))
      = Fail f) /\
  (forall (vms : list vm_t) (mode : string) (uwd uag : list bool),
      MechanismManager_new
        (Some (mkConfig ((fun vm => Some (Ok vm)) <$> vms) (Some mode)
                        (Some <$> uwd) (Some <$> uag)))
      = if Nat.eqb (length vms) 0 then Fail AssertFail
        else if Nat.ltb (length uwd) (length vms) then Fail OutOfRange
        else Ok (built vms mode uwd uag)).
Proof.
  split; [reflexivity |].
  split; [| split].
  - intros cfg Hbad.
    assert (E : ReadConfig (Some cfg) = Fail Exception).
    { rewrite manager_ReadConfig_closed.
      destruct Hbad as [Hp | [Hm | [Hw | Hu]]].
      - rewrite Hp. destruct (converted (cfg_models cfg)); reflexivity.
      - rewrite (converted_None _ Hm). reflexivity.
      - rewrite (converted_None _ Hw).
        destruct (converted (cfg_models cfg)), (cfg_prob_mode cfg); reflexivity.
      - rewrite (converted_None _ Hu).
        destruct (converted (cfg_models cfg)), (cfg_prob_mode cfg),
          (converted (cfg_use_weighted_dist cfg)); reflexivity. }
    unfold MechanismManager_new. rewrite E. reflexivity.
  - intros models mode uwd uag k f Hk Hbefore.
    assert (E : ReadConfig
                  (Some (mkConfig (Some <$> models) (Some mode)
                                  (Some <$> uwd) (Some <$> uag)))
                = Fail f).
    { rewrite manager_ReadConfig_closed. cbn [cfg_models cfg_prob_mode
        cfg_use_weighted_dist cfg_use_active_guide].
      rewrite !converted_fmap_Some.
      rewrite (loaded_first_failure models k f Hk Hbefore). reflexivity. }
    unfold MechanismManager_new. rewrite E. reflexivity.
  - intros vms mode uwd uag.
    apply (MechanismManager_new_after_ReadConfig _ true).
    rewrite manager_ReadConfig_closed. cbn [cfg_models cfg_prob_mode
      cfg_use_weighted_dist cfg_use_active_guide].
    replace ((fun vm : vm_t => Some (Ok vm)) <$> vms)
      with (Some <$> (Ok <$> vms : list (exec vm_t)))
      by (rewrite <- list_fmap_compose; reflexivity).
    rewrite !converted_fmap_Some, loaded_fmap_Ok. reflexivity.
Qed.

End Constructor.

Lemma MechanismManager_new_outcome_witness :
  MechanismManager_new
    (Some (mkConfig [Some (Ok (Stub.resting (Fin 1) (Fin 0)))] None
                    [Some false] [Some true]))
  = Fail Exception.
Proof.
  apply (proj1 (proj2 MechanismManager_new_outcome)).
  left. reflexivity.
Defined.

Lemma MechanismManager_config_examples :
  parse_prob_mode "hard" = HARD /\ parse_prob_mode "soft" = SOFT /\
  parse_prob_mode "potential" = POTENTIAL /\ parse_prob_mode "Hard" = POTENTIAL /\
  parse_prob_mode "" = POTENTIAL.
Proof. repeat split; reflexivity. Qed.

(** X14.  The mixing mode is chosen by an exact, case-sensitive
    comparison of the configured string: Hard only for [hard], Soft only
    for [soft], and Potential for [potential] as for every other
    string. *)
Theorem parse_prob_mode_is_exact (s : string) :
  (parse_prob_mode s = HARD <-> s = "hard"%string) /\
  (parse_prob_mode s = SOFT <-> s = "soft"%string) /\
  (parse_prob_mode s = POTENTIAL <-> s <> "hard"%string /\ s <> "soft"%string).
Proof.
  unfold parse_prob_mode.
  destruct (String.eqb_spec s "hard") as [-> | Hh].
  { repeat split; try discriminate; try reflexivity; intros [? ?]; congruence. }
  destruct (String.eqb_spec s "potential") as [-> | Hp].
  { repeat split; try discriminate; try reflexivity; auto. }
  destruct (String.eqb_spec s "soft") as [-> | Hs].
  { repeat split; try discriminate; try reflexivity; intros [? ?]; congruence. }
  repeat split; try discriminate; try reflexivity; auto; intros; congruence.
Qed.

Lemma parse_prob_mode_is_exact_witness :
  parse_prob_mode "HARD" = POTENTIAL.
Proof.
  apply (proj2 (proj2 (proj2 (parse_prob_mode_is_exact "HARD")))).
  split; discriminate.
Defined.

(** * Further properties of the activation automaton *)

Section AutomatonRuns.

Lemma run_app_one (a : VirtualMechanismAutom) (ins : list step_input) (z : step_input) :
  run a (ins ++ [z]) = Step_in (run a ins) z.
Proof. unfold run. rewrite foldl_app. reflexivity. Qed.

Lemma run_thresholds (a : VirtualMechanismAutom) (ins : list step_input) :
  phase_dot_preauto_th_ (run a ins) = phase_dot_preauto_th_ a /\
  phase_dot_th_ (run a ins) = phase_dot_th_ a.
Proof.
  induction ins as [| z ins IH] using rev_ind; [split; reflexivity |].
  rewrite run_app_one. unfold Step_in.
  destruct (Step_thresholds (run a ins) (in_phase_dot z) (in_phase_dot_ref z)
                            (in_collision_detected z)) as [E1 E2].
  rewrite E1, E2. exact IH.
Qed.

(** A call that meets the condition to leave MANUAL, and one that meets
    the condition to leave PREAUTO. *)
Definition pushes (a : VirtualMechanismAutom) (x : step_input) : Prop :=
  dge (in_phase_dot x) (phase_dot_preauto_th_ a) = true.

Definition settles (a : VirtualMechanismAutom) (x : step_input) : Prop :=
  dle (in_phase_dot x) (dadd (in_phase_dot_ref x) (phase_dot_th_ a)) = true.

Definition history (a : VirtualMechanismAutom) (ins : list step_input) : Prop :=
  match state_ (run a ins) with
  | MANUAL => True
  | PREAUTO => exists i x, ins !! i = Some x /\ pushes a x
  | AUTO => exists i j x y,
      (i < j)%nat /\ ins !! i = Some x /\ ins !! j = Some y /\ pushes a x /\ settles a y
  end.

Lemma history_holds (a : VirtualMechanismAutom) (ins : list step_input) :
  state_ a = MANUAL -> history a ins.
Proof.
  intros Hstart.
  induction ins as [| z ins IH] using rev_ind.
  { unfold history, run. simpl. rewrite Hstart. exact I. }
  destruct (run_thresholds a ins) as [Epre Eth].
  unfold history in *. rewrite run_app_one. unfold Step_in.
  destruct (state_ (run a ins)) eqn:Hs.
  - rewrite Step_from_MANUAL by exact Hs. rewrite Epre.
    destruct (dge (in_phase_dot z) (phase_dot_preauto_th_ a)) eqn:Hpush; [| exact I].
    exists (length ins), z. split; [apply list_lookup_middle; reflexivity | exact Hpush].
  - destruct IH as (i & x & Hi & Hx).
    rewrite Step_from_PREAUTO by exact Hs. rewrite Eth.
    destruct (dle (in_phase_dot z) (dadd (in_phase_dot_ref z) (phase_dot_th_ a))) eqn:Hset.
    + exists i, (length ins), x, z.
      split; [eapply lookup_lt_Some; eauto |].
      split; [apply lookup_app_l_Some; exact Hi |].
      split; [apply list_lookup_middle; reflexivity |]. split; assumption.
    + exists i, x. split; [apply lookup_app_l_Some; exact Hi | exact Hx].
  - destruct IH as (i & j & x & y & Hij & Hi & Hj & Hx & Hy).
    rewrite Step_from_AUTO by exact Hs.
    destruct (in_collision_detected z); [exact I |].
    exists i, j, x, y.
    split; [exact Hij |].
    split; [apply lookup_app_l_Some; exact Hi |].
    split; [apply lookup_app_l_Some; exact Hj |]. split; assumption.
Qed.

(** X15.  An automaton built by its constructor is in AUTO after a
    sequence of calls of [Step] only if, in that sequence, some call had
    [phase_dot >= phase_dot_preauto_th] and a later call had
    [phase_dot <= phase_dot_ref + phase_dot_th]: the guide is never
    activated without a push above the pre-auto threshold followed by a
    return to the reference speed, so never in fewer than two calls and
    never by inputs that are NaN. *)
Theorem AUTO_requires_a_push_then_a_return
        (pre th : double) (a0 : VirtualMechanismAutom) (ins : list step_input) :
  VirtualMechanismAutom_new pre th = Ok a0 ->
  state_ (run a0 ins) = AUTO ->
  (2 <= length ins)%nat /\
  exists i j x y,
    (i < j)%nat /\ ins !! i = Some x /\ ins !! j = Some y /\
    dge (in_phase_dot x) pre = true /\
    dle (in_phase_dot y) (dadd (in_phase_dot_ref y) th) = true.
Proof.
  intros Hnew Hauto.
  unfold VirtualMechanismAutom_new in Hnew. exec_inv. subst a0.
  pose proof (history_holds (mkAutom pre th MANUAL 0) ins eq_refl) as Hh.
  unfold history in Hh. rewrite Hauto in Hh.
  destruct Hh as (i & j & x & y & Hij & Hi & Hj & Hx & Hy).
  split.
  - apply lookup_lt_Some in Hj. lia.
  - exists i, j, x, y. repeat split; assumption.
Qed.

(** X16.  [collision_detected] is read in AUTO only: in MANUAL and in
    PREAUTO a call of [Step] gives the same automaton whatever that flag
    is, so a stop requested while the automaton is in PREAUTO does not
    bring it back to MANUAL, and the automaton can still go to AUTO at
    that very call. *)
Theorem collision_is_ignored_outside_AUTO
        (a : VirtualMechanismAutom) (pd ref : double) (c c' : bool) :
  state_ a <> AUTO ->
  Step pd ref c a = Step pd ref c' a /\
  (state_ a = PREAUTO -> state_ (Step pd ref true a) <> MANUAL).
Proof.
  intros Hs. split.
  - unfold Step. destruct (state_ a); [reflexivity | reflexivity | contradiction].
  - intros Hp. rewrite Step_from_PREAUTO by exact Hp. destruct (dle _ _); discriminate.
Qed.

(** X17.  While [collision_detected] is true at every call, as it is
    from the construction of the interface on, the automaton is never in
    AUTO for two calls in a row: an AUTO state is always followed by
    MANUAL. *)
Theorem AUTO_lasts_one_call_under_collision
        (a0 : VirtualMechanismAutom) (ins : list step_input) (k : nat) (z : step_input) :
  ins !! k = Some z ->
  in_collision_detected z = true ->
  state_ (run a0 (take k ins)) = AUTO ->
  state_ (run a0 (take (S k) ins)) = MANUAL /\
  fst (GetState (run a0 (take (S k) ins))) = false.
Proof.
  intros Hk Hc Hauto. rewrite (run_snoc _ _ _ _ Hk). unfold Step_in.
  assert (E : state_ (Step (in_phase_dot z) (in_phase_dot_ref z)
                           (in_collision_detected z) (run a0 (take k ins))) = MANUAL).
  { rewrite Step_from_AUTO by exact Hauto. rewrite Hc. reflexivity. }
  split; [exact E |]. unfold GetState. rewrite E. reflexivity.
Qed.

End AutomatonRuns.

Lemma AUTO_requires_a_push_then_a_return_witness :
  (2 <= 2)%nat /\
  exists i j x y,
    (i < j)%nat /\
    [mkInput (Fin 3) NaN true; mkInput (Fin 1) (Fin 0) true] !! i = Some x /\
    [mkInput (Fin 3) NaN true; mkInput (Fin 1) (Fin 0) true] !! j = Some y /\
    dge (in_phase_dot x) (Fin 2) = true /\
    dle (in_phase_dot y) (dadd (in_phase_dot_ref y) (Fin 1)) = true.
Proof.
  apply (AUTO_requires_a_push_then_a_return (Fin 2) (Fin 1)
           (mkAutom (Fin 2) (Fin 1) MANUAL 0)
           [mkInput (Fin 3) NaN true; mkInput (Fin 1) (Fin 0) true]).
  - unfold VirtualMechanismAutom_new.
    rewrite (proj2 (dgt_Fin 1 0)), (proj2 (dgt_Fin 2 1)) by lra. reflexivity.
  - unfold run. simpl. unfold Step_in, Step. simpl.
    rewrite (proj2 (Rleb_true 2 3)) by lra. simpl.
    rewrite (proj2 (Rleb_true 1 (0 + 1))) by lra. reflexivity.
Defined.

Lemma collision_is_ignored_outside_AUTO_witness :
  Step (Fin 1) (Fin 1) true (mkAutom (Fin 2) (Fin 1) PREAUTO 0)
  = Step (Fin 1) (Fin 1) false (mkAutom (Fin 2) (Fin 1) PREAUTO 0) /\
  (PREAUTO = PREAUTO ->
   state_ (Step (Fin 1) (Fin 1) true (mkAutom (Fin 2) (Fin 1) PREAUTO 0)) <> MANUAL).
Proof.
  apply (collision_is_ignored_outside_AUTO (mkAutom (Fin 2) (Fin 1) PREAUTO 0)).
  discriminate.
Defined.

Lemma AUTO_lasts_one_call_under_collision_witness :
  state_ (run (mkAutom (Fin 2) (Fin 1) AUTO 0)
              (take 1 [mkInput (Fin 1) (Fin 1) true])) = MANUAL /\
  fst (GetState (run (mkAutom (Fin 2) (Fin 1) AUTO 0)
                     (take 1 [mkInput (Fin 1) (Fin 1) true]))) = false.
Proof.
  apply (AUTO_lasts_one_call_under_collision
           (mkAutom (Fin 2) (Fin 1) AUTO 0) [mkInput (Fin 1) (Fin 1) true]
           0 (mkInput (Fin 1) (Fin 1) true)); reflexivity.
Defined.

(** * Further properties of the toolbox *)

Section SharedDataCalls.
Import SharedDataLocks.
Context {T : Type}.

(** The mutex is held by [w], at least once. *)
Definition held_by (w : thread_id) (sd : SharedData T) : Prop :=
  owner (mtx_ sd) = Some w /\ (1 <= depth (mtx_ sd))%nat.

Lemma after_call_held (w : thread_id) (sd : SharedData T) (c : call T) :
  held_by w sd -> held_by w (after_call sd c).
Proof.
  intros [Ho Hd]. destruct sd as [[o d] obj]. simpl in Ho, Hd. subst o.
  destruct c as [t x | t | t x | t]; simpl;
    unfold WriteTryLock, ReadTryLock, WriteLock, ReadLock, try_lock, lock; simpl;
    destruct (Nat.eqb w t); simpl; unfold held_by; simpl;
    try (split; [reflexivity | lia]);
    destruct d as [| d]; simpl; try lia; split; try reflexivity; lia.
Qed.

Lemma after_calls_held (w : thread_id) (sd : SharedData T) (cs : list (call T)) :
  held_by w sd -> held_by w (after_calls sd cs).
Proof.
  revert sd. induction cs as [| c cs IH]; intros sd Hh; [exact Hh |].
  simpl. apply IH. apply after_call_held. exact Hh.
Qed.

(** X18.  [WriteTryLock] locks the mutex and no member of [SharedData]
    gives it back: after one [WriteTryLock] on a free mutex by a thread
    [w], and then any sequence of calls of the four members by any
    threads, the mutex is still owned by [w].  From then on, for every
    other thread, [ReadTryLock] has no return value, [WriteTryLock] drops
    the object it is given, and [ReadLock] and [WriteLock] wait. *)
Theorem WriteTryLock_keeps_the_mutex_for_good
        (w t : thread_id) (obj0 obj : T) (sd0 : SharedData T) (cs : list (call T)) :
  owner (mtx_ sd0) = None ->
  t <> w ->
  let sd := after_calls (WriteTryLock w obj0 sd0) cs in
  owner (mtx_ sd) = Some w /\
  fst (ReadTryLock t sd) = Fail NoReturn /\
  obj_ (WriteTryLock t obj sd) = obj_ sd /\
  ReadLock t sd = None /\
  WriteLock t obj sd = None.
Proof.
  intros Hfree Hne sd.
  assert (Hh : held_by w sd).
  { apply after_calls_held. unfold held_by, WriteTryLock, try_lock.
    rewrite Hfree. simpl. split; [reflexivity | lia]. }
  destruct Hh as [Ho _].
  assert (Htl : try_lock t (mtx_ sd) = (false, mtx_ sd)).
  { apply (try_lock_contended t w); auto. }
  assert (Hl : lock t (mtx_ sd) = None).
  { unfold lock. rewrite Ho. destruct (Nat.eqb_spec w t); [congruence | reflexivity]. }
  split; [exact Ho |].
  unfold ReadTryLock, WriteTryLock, ReadLock, WriteLock. rewrite Htl, Hl.
  repeat split; reflexivity.
Qed.

(** X19.  [WriteLock] and [ReadLock] do give the mutex back: on shared
    data whose mutex is free, a [WriteLock] by one thread followed by a
    [ReadLock] by any thread returns the object written, and the mutex is
    free again after each of the two calls; a [ReadTryLock] in place of
    the [ReadLock] returns the same object and also frees the mutex. *)
Theorem WriteLock_then_read_returns_the_object
        (t t' : thread_id) (obj : T) (sd : SharedData T) :
  owner (mtx_ sd) = None ->
  exists sd1,
    WriteLock t obj sd = Some sd1 /\ mtx_ sd1 = unlocked /\
    ReadLock t' sd1 = Some (obj, sd1) /\
    ReadTryLock t' sd1 = (Ok obj, sd1).
Proof.
  intros Hfree. exists (mkShared unlocked obj).
  unfold WriteLock, ReadLock, ReadTryLock, lock, try_lock. rewrite Hfree. simpl.
  repeat split; reflexivity.
Qed.

End SharedDataCalls.

Lemma WriteTryLock_keeps_the_mutex_for_good_witness :
  owner (mtx_ (SharedDataLocks.after_calls
                 (WriteTryLock 1 (Fin 1) (SharedData_new (Fin 0)))
                 [SharedDataLocks.CallReadTryLock 1;
                  SharedDataLocks.CallWriteLock 1 (Fin 2);
                  SharedDataLocks.CallReadLock 2])) = Some 1%nat /\
  fst (ReadTryLock 2
         (SharedDataLocks.after_calls
            (WriteTryLock 1 (Fin 1) (SharedData_new (Fin 0)))
            [SharedDataLocks.CallReadTryLock 1;
             SharedDataLocks.CallWriteLock 1 (Fin 2);
             SharedDataLocks.CallReadLock 2])) = Fail NoReturn /\
  obj_ (WriteTryLock 2 (Fin 9)
          (SharedDataLocks.after_calls
             (WriteTryLock 1 (Fin 1) (SharedData_new (Fin 0)))
             [SharedDataLocks.CallReadTryLock 1;
              SharedDataLocks.CallWriteLock 1 (Fin 2);
              SharedDataLocks.CallReadLock 2]))
  = obj_ (SharedDataLocks.after_calls
            (WriteTryLock 1 (Fin 1) (SharedData_new (Fin 0)))
            [SharedDataLocks.CallReadTryLock 1;
             SharedDataLocks.CallWriteLock 1 (Fin 2);
             SharedDataLocks.CallReadLock 2]) /\
  SharedDataLocks.ReadLock 2
    (SharedDataLocks.after_calls
       (WriteTryLock 1 (Fin 1) (SharedData_new (Fin 0)))
       [SharedDataLocks.CallReadTryLock 1;
        SharedDataLocks.CallWriteLock 1 (Fin 2);
        SharedDataLocks.CallReadLock 2]) = None /\
  SharedDataLocks.WriteLock 2 (Fin 9)
    (SharedDataLocks.after_calls
       (WriteTryLock 1 (Fin 1) (SharedData_new (Fin 0)))
       [SharedDataLocks.CallReadTryLock 1;
        SharedDataLocks.CallWriteLock 1 (Fin 2);
        SharedDataLocks.CallReadLock 2]) = None.
Proof.
  apply (WriteTryLock_keeps_the_mutex_for_good 1 2 (Fin 1) (Fin 9) (SharedData_new (Fin 0))
           [SharedDataLocks.CallReadTryLock 1;
            SharedDataLocks.CallWriteLock 1 (Fin 2);
            SharedDataLocks.CallReadLock 2]).
  - reflexivity.
  - lia.
Defined.

Lemma WriteLock_then_read_returns_the_object_witness :
  exists sd1,
    SharedDataLocks.WriteLock 1 (Fin 5) (SharedData_new (Fin 0)) = Some sd1 /\
    mtx_ sd1 = unlocked /\
    SharedDataLocks.ReadLock 2 sd1 = Some (Fin 5, sd1) /\
    ReadTryLock 2 sd1 = (Ok (Fin 5), sd1).
Proof.
  apply (WriteLock_then_read_returns_the_object 1 2 (Fin 5) (SharedData_new (Fin 0))).
  reflexivity.
Defined.

Section AsyncThreadFacts.
Import AsyncThread.
Context {H : Type}.

(** The number of calls of [Trigger] among the events. *)
Definition triggers (es : list (event H)) : nat :=
  length (List.filter (fun e => match e with EvTrigger => true | _ => false end) es).

(** A request that the loop has not started yet. *)
Definition pending (a : AsyncThread H) : nat :=
  if trigger_ a && negb (in_callback a) then 1 else 0.

Definition was_added (es : list (event H)) (h : option H) : Prop :=
  match h with
  | None => True
  | Some f => EvAddHandler f ∈ es
  end.

Lemma triggers_app (es es' : list (event H)) :
  triggers (es ++ es') = (triggers es + triggers es')%nat.
Proof. unfold triggers. rewrite List.filter_app, length_app. reflexivity. Qed.

Lemma was_added_app (es es' : list (event H)) (h : option H) :
  was_added es h -> was_added (es ++ es') h.
Proof. destruct h; simpl; [| auto]. intros Hin. apply elem_of_app. left. exact Hin. Qed.

Lemma steps_app_one (a : AsyncThread H) (es : list (event H)) (e : event H) :
  steps a (es ++ [e]) = step (steps a es) e.
Proof. unfold steps. rewrite foldl_app. reflexivity. Qed.

Lemma steps_invariant (es : list (event H)) :
  let a := steps AsyncThread_new es in
  (length (started a) + pending a <= triggers es)%nat /\
  was_added es (f_ a) /\
  (forall h, h ∈ started a -> was_added es h) /\
  (in_callback a = true -> trigger_ a = true).
Proof.
  induction es as [| e es IH] using rev_ind.
  { simpl. repeat split; auto. intros h Hh. inversion Hh. }
  cbn zeta in *. rewrite steps_app_one, triggers_app.
  destruct IH as (Hcount & Hf & Hst & Hcb).
  destruct (steps AsyncThread_new es) as [f tr cb st]. simpl in *.
  unfold pending in *. simpl in *.
  assert (Hst' : forall h, h ∈ st -> was_added (es ++ [e]) h)
    by (intros h Hh; apply was_added_app; auto).
  assert (Hf' : was_added (es ++ [e]) f) by (apply was_added_app; exact Hf).
  destruct e as [g | | |], tr, cb; simpl in *;
    unfold AddHandler, Trigger, loop_test, loop_joined, triggers at 2; simpl;
    (split; [rewrite ?length_app; simpl in *; lia |]);
    (split; [first [exact Hf' | apply elem_of_app; right; left] |]);
    (split; [| first [reflexivity | discriminate | auto]]);
    try exact Hst'.
  intros h Hh. apply elem_of_app in Hh as [Hh | Hh]; [auto |].
  apply list_elem_of_singleton in Hh. subst h. exact Hf'.
Qed.

(** X20.  Whatever the client and the loop thread do and in whatever
    order, starting from a new [AsyncThread]: the loop starts no more
    callbacks than [Trigger] was called, and every callback it starts is
    a handler that was passed to [AddHandler] before, or the empty
    function when [Trigger] came before any accepted handler. *)
Theorem AsyncThread_starts_only_what_was_requested (es : list (event H)) :
  (length (started (steps AsyncThread_new es)) <= triggers es)%nat /\
  (forall f, Some f ∈ started (steps AsyncThread_new es) -> EvAddHandler f ∈ es).
Proof.
  destruct (steps_invariant es) as (Hcount & _ & Hst & _).
  split; [lia |].
  intros f Hf. apply (Hst (Some f) Hf).
Qed.

(** X21.  A request made while a callback runs is not only refused: when
    [AddHandler(f2)] arrives during the callback of [f1], the callback
    then ends and [Trigger()] follows, the loop starts [f1] a second time
    and [f2] is not stored; the two calls of a request are not one atomic
    step. *)
Theorem AsyncThread_refused_request_replays_the_previous_handler
        (a : AsyncThread H) (f1 f2 : H) :
  in_callback a = true -> trigger_ a = true -> f_ a = Some f1 ->
  let a' := steps a [EvAddHandler f2; EvLoopJoined; EvTrigger; EvLoopTest] in
  started a' = started a ++ [Some f1] /\ f_ a' = Some f1 /\ in_callback a' = true.
Proof.
  intros Hcb Htr Hf. destruct a as [f tr cb st]. simpl in *. subst.
  unfold steps. simpl. unfold AddHandler, loop_joined, Trigger, loop_test. simpl.
  repeat split; reflexivity.
Qed.

End AsyncThreadFacts.

(** The two requests [AddHandler(f1); Trigger()] and
    [AddHandler(f2); Trigger()] on a new [AsyncThread], the second one
    arriving while [f1] runs. *)
Lemma AsyncThread_refused_request_replays_the_previous_handler_witness :
  AsyncThread.started (AsyncThread.steps
             (AsyncThread.steps AsyncThread.AsyncThread_new
                [AsyncThread.EvAddHandler 1%nat; AsyncThread.EvTrigger;
                 AsyncThread.EvLoopTest])
             [AsyncThread.EvAddHandler 2%nat; AsyncThread.EvLoopJoined;
              AsyncThread.EvTrigger; AsyncThread.EvLoopTest])
  = [Some 1%nat] ++ [Some 1%nat] /\
  AsyncThread.f_ (AsyncThread.steps
             (AsyncThread.steps AsyncThread.AsyncThread_new
                [AsyncThread.EvAddHandler 1%nat; AsyncThread.EvTrigger;
                 AsyncThread.EvLoopTest])
             [AsyncThread.EvAddHandler 2%nat; AsyncThread.EvLoopJoined;
              AsyncThread.EvTrigger; AsyncThread.EvLoopTest]) = Some 1%nat /\
  AsyncThread.in_callback (AsyncThread.steps
             (AsyncThread.steps AsyncThread.AsyncThread_new
                [AsyncThread.EvAddHandler 1%nat; AsyncThread.EvTrigger;
                 AsyncThread.EvLoopTest])
             [AsyncThread.EvAddHandler 2%nat; AsyncThread.EvLoopJoined;
              AsyncThread.EvTrigger; AsyncThread.EvLoopTest]) = true.
Proof.
  apply (AsyncThread_refused_request_replays_the_previous_handler
           (AsyncThread.steps AsyncThread.AsyncThread_new
              [AsyncThread.EvAddHandler 1%nat; AsyncThread.EvTrigger;
               AsyncThread.EvLoopTest]) 1%nat 2%nat);
    reflexivity.
Defined.

Section RosNodeFacts.
Import RosNode.

(** The calls that change a [RosNode]; a call that throws leaves the node
    as it was. *)
Inductive node_call : Type :=
| CallInit (master : bool) (ros_node_name : string)
| CallReset.

Definition after_node_call (n : RosNode) (c : node_call) : RosNode :=
  match c with
  | CallInit master name =>
      match Init master name n with Ok n' => n' | Fail _ => n end
  | CallReset =>
      match Reset n with Ok (_, n') => n' | Fail _ => n end
  end.

Definition after_node_calls (n : RosNode) (cs : list node_call) : RosNode :=
  foldl after_node_call n cs.

Lemma after_node_calls_pointer (cs : list node_call) :
  init_ (after_node_calls RosNode_new cs) = true ->
  exists h, ros_nh_ptr_ (after_node_calls RosNode_new cs) = Some h.
Proof.
  induction cs as [| c cs IH] using rev_ind; [discriminate |].
  unfold after_node_calls in *. rewrite foldl_app. simpl.
  destruct c as [[|] name |]; simpl.
  - intros _. eauto.
  - exact IH.
  - unfold Reset. destruct (init_ (foldl after_node_call RosNode_new cs)) eqn:Hi; simpl.
    + discriminate.
    + rewrite Hi. discriminate.
Qed.

(** X22.  Whatever calls of [Init] and [Reset] a default-constructed
    [RosNode] has gone through, failed ones included, [GetNode] never
    dereferences the null pointer: it returns a handle when the node is
    initialised and throws otherwise, and [Reset] throws exactly when
    [GetNode] does; right after a successful [Reset], [GetNode] throws. *)
Theorem RosNode_GetNode_is_never_null (cs : list node_call) :
  let n := after_node_calls RosNode_new cs in
  (InitDone n = true -> exists h, GetNode n = Ok (Some h) /\
                                  Reset n = Ok (true, RosNode_new) /\
                                  GetNode RosNode_new = Fail Exception) /\
  (InitDone n = false -> GetNode n = Fail Exception /\ Reset n = Fail Exception).
Proof.
  intros n. unfold InitDone. split.
  - intros Hi. destruct (after_node_calls_pointer cs Hi) as (h & Hh).
    exists h. unfold GetNode, Reset. fold n in Hh. rewrite Hi, Hh.
    repeat split; reflexivity.
  - intros Hi. unfold GetNode, Reset. rewrite Hi. split; reflexivity.
Qed.

End RosNodeFacts.

Lemma RosNode_GetNode_is_never_null_witness :
  exists h,
    RosNode.GetNode (after_node_calls RosNode.RosNode_new
                       [CallInit false "a"; CallInit true "b"; CallReset; CallInit true "c"])
    = Ok (Some h) /\
    RosNode.Reset (after_node_calls RosNode.RosNode_new
                     [CallInit false "a"; CallInit true "b"; CallReset; CallInit true "c"])
    = Ok (true, RosNode.RosNode_new) /\
    RosNode.GetNode RosNode.RosNode_new = Fail Exception.
Proof.
  apply (proj1 (RosNode_GetNode_is_never_null
                  [CallInit false "a"; CallInit true "b"; CallReset; CallInit true "c"])).
  reflexivity.
Defined.

Lemma AsyncThread_starts_only_what_was_requested_witness :
  AsyncThread.EvAddHandler 7%nat
  ∈ [AsyncThread.EvAddHandler 7%nat; AsyncThread.EvTrigger; AsyncThread.EvLoopTest].
Proof.
  apply (proj2 (AsyncThread_starts_only_what_was_requested
                  [AsyncThread.EvAddHandler 7%nat; AsyncThread.EvTrigger;
                   AsyncThread.EvLoopTest]) 7%nat).
  simpl. left.
Defined.

Section DeleteBounds.
Context {A : Type}.

(** X23.  [Delete] has two outcomes only: for an index inside the vector
    it returns the vector without that coefficient, and for every other
    index, negative or not below the size (the size itself and the empty
    vector included), it stops on an assert of Eigen; it never reads or
    writes outside the vector. *)
Theorem Delete_returns_or_stops_on_assert (idx : Z) (v : list A) :
  ((0 <= idx < Z.of_nat (length v))%Z /\
   Delete idx v = Ok (take (Z.to_nat idx) v ++ drop (S (Z.to_nat idx)) v)) \/
  (~ (0 <= idx < Z.of_nat (length v))%Z /\ Delete idx v = Fail AssertFail).
Proof.
  destruct (Z_lt_dec idx 0) as [Hneg | Hnn].
  { right. split; [lia |]. unfold Delete.
    assert (E : (0 <=? idx)%Z = false) by (apply Z.leb_gt; lia).
    rewrite E. reflexivity. }
  destruct (Z_lt_dec idx (Z.of_nat (length v))) as [Hin | Hout].
  - left. split; [lia |].
    rewrite <- (Z2Nat.id idx) at 1 by lia. apply Delete_in_range. lia.
  - right. split; [lia |]. unfold Delete.
    assert (E1 : (0 <=? idx)%Z = true) by (apply Z.leb_le; lia).
    assert (E2 : (0 <=? Z.of_nat (length v) - idx - 1)%Z = false) by (apply Z.leb_gt; lia).
    rewrite E1, E2. reflexivity.
Qed.

End DeleteBounds.

Section CropDataEdges.
Variables dt dist_min : double.
Local Open Scope R_scope.

(** X24.  A matrix with fewer than two rows has no pair of consecutive
    rows: [CropData] empties it and returns false, whatever the row, the
    step and the minimal distance are. *)
Theorem CropData_needs_two_rows (data : MatrixXd) :
  (rows data <= 1)%nat ->
  CropData data dt dist_min = Ok (false, mkMatrix [] (mcols data)).
Proof.
  intros Hr. unfold CropData.
  replace (rows data - 1)%nat with 0%nat by lia. reflexivity.
Qed.

Lemma norm_of_no_move (r : VectorXd) :
  (forall x, x ∈ r -> exists q, x = Fin q) -> norm (vsub r r) = Fin 0.
Proof.
  intros Hfin. unfold norm, squaredNorm.
  assert (Hz : forall y, y ∈ vsub r r -> (fun x => dmul x x) y = Fin ((fun _ => 0) y)).
  { intros y Hy. unfold vsub in Hy.
    apply elem_of_lookup_zip_with in Hy as (i & a & b & -> & Ha & Hb).
    assert (a = b) by congruence. subst b.
    destruct (Hfin a) as (q & ->); [apply list_elem_of_lookup; eauto |].
    simpl. f_equal. ring. }
  rewrite (vsum_all_Fin _ _ _ Hz), Rsum_all_zero by reflexivity.
  simpl.
  assert (E : Rltb 0 0 = false) by (apply Rltb_false; lra).
  rewrite E, sqrt_0. reflexivity.
Qed.

Lemma kept_rows_replicate (n : nat) (r : VectorXd) :
  moved dt dist_min r r = false -> kept_rows dt dist_min (replicate n r) = [].
Proof.
  intros Hm. unfold kept_rows.
  assert (Hall : forall p, p ∈ zip (replicate n r) (tail (replicate n r)) -> p = (r, r)).
  { intros [a b] Hp.
    pose proof (elem_of_zip_l _ _ _ _ Hp) as Ha.
    pose proof (elem_of_zip_r _ _ _ _ Hp) as Hb.
    apply elem_of_replicate_inv in Ha.
    assert (Hb' : b ∈ replicate n r).
    { destruct n; [inversion Hb | simpl in Hb; right; exact Hb]. }
    apply elem_of_replicate_inv in Hb'. congruence. }
  induction (zip (replicate n r) (tail (replicate n r))) as [| p l IH]; [reflexivity |].
  simpl. rewrite (Hall p) by left. simpl. rewrite Hm.
  apply IH. intros q Hq. apply Hall. right. exact Hq.
Qed.

(** X25.  Recorded data in which the robot did not move, that is whose
    rows are all the same row of finite numbers, is emptied by [CropData]
    and reported with false, for every threshold [dt * dist_min] that is
    not negative: the strict comparison drops a row at distance 0 even
    when the threshold is 0. *)
Theorem CropData_of_a_robot_at_rest (n : nat) (r : VectorXd) (c : R) :
  (forall x, x ∈ r -> exists q, x = Fin q) ->
  dmul dt dist_min = Fin c -> 0 <= c ->
  CropData (mkMatrix (replicate n r) (length r)) dt dist_min
  = Ok (false, mkMatrix [] (length r)).
Proof.
  intros Hfin Hc Hc0.
  assert (Hm : moved dt dist_min r r = false).
  { unfold moved. rewrite (norm_of_no_move r Hfin), Hc.
    unfold dgt. simpl. apply Rltb_false. lra. }
  assert (Hwf : matrix_wf (mkMatrix (replicate n r) (length r))).
  { unfold matrix_wf. simpl. apply Forall_forall. intros x Hx.
    apply elem_of_replicate_inv in Hx. subst x. reflexivity. }
  unfold CropData.
  rewrite (CropData_loop dt dist_min _ Hwf). simpl.
  rewrite (kept_rows_replicate n r Hm). reflexivity.
Qed.

End CropDataEdges.

Lemma CropData_needs_two_rows_witness :
  CropData (mkMatrix [[NaN; PInf]] 2) NaN (Fin (-1)) = Ok (false, mkMatrix [] 2).
Proof.
  apply (CropData_needs_two_rows NaN (Fin (-1)) (mkMatrix [[NaN; PInf]] 2)).
  unfold rows. simpl. lia.
Defined.

Lemma CropData_of_a_robot_at_rest_witness :
  CropData (mkMatrix (replicate 4 [Fin 1; Fin 2]) (length [Fin 1; Fin 2]))
           (Fin 0) CropData_dist_min_default
  = Ok (false, mkMatrix [] (length [Fin 1; Fin 2])).
Proof.
  apply (CropData_of_a_robot_at_rest (Fin 0) CropData_dist_min_default
           4 [Fin 1; Fin 2] (0 * (1 / 100))%R).
  - intros x Hx. apply elem_of_cons in Hx as [-> | Hx]; [eauto |].
    apply list_elem_of_singleton in Hx. subst x. eauto.
  - reflexivity.
  - lra.
Defined.

Section InterfaceFailures.
Import MechanismManagerInterface.
Context {mm_t : Type} (new_MechanismManager : Z -> exec mm_t).

(** X26.  How the construction of the interface fails.  Without the
    interface node in the configuration the constructor throws; with the
    node but without one of its three keys it throws as well, whatever
    the other keys hold, because the keys are read before any value is
    checked; with the three keys and a value that is not accepted it
    stops on an assert.  In none of these cases is the manager
    constructed. *)
Theorem interface_construction_failure_kinds (main_node : option InterfaceNode) :
  (main_node = None ->
   MechanismManagerInterface_new new_MechanismManager main_node = Fail Exception) /\
  (forall node,
      main_node = Some node ->
      yaml_position_dim node = None \/ yaml_phase_dot_th node = None \/
      yaml_phase_dot_preauto_th node = None ->
      MechanismManagerInterface_new new_MechanismManager main_node = Fail Exception) /\
  (forall pd th pre,
      main_node = Some (mkNode (Some pd) (Some th) (Some pre)) ->
      ~ (pd = 1 \/ pd = 2)%Z \/ dgt th (Fin 0) = false \/ dgt pre th = false ->
      MechanismManagerInterface_new new_MechanismManager main_node = Fail AssertFail).
Proof.
  unfold MechanismManagerInterface_new, ReadConfig.
  split; [intros ->; reflexivity |].
  split.
  - intros [[pd |] [th |] [pre |]] -> [Hk | [Hk | Hk]]; simpl in Hk;
      try discriminate; reflexivity.
  - intros pd th pre -> Hbad. cbn -[dgt Z.eqb].
    destruct ((pd =? 1)%Z || (pd =? 2)%Z) eqn:Hpd; cbn -[dgt Z.eqb]; [| reflexivity].
    destruct (dgt th (Fin 0)) eqn:Hth; cbn -[dgt Z.eqb]; [| reflexivity].
    destruct (dgt pre th) eqn:Hpre; cbn -[dgt Z.eqb]; [| reflexivity].
    exfalso. destruct Hbad as [Hbad | [Hbad | Hbad]]; try discriminate.
    apply Hbad. apply orb_true_iff in Hpd as [Hpd | Hpd]; apply Z.eqb_eq in Hpd; auto.
Qed.

End InterfaceFailures.

(** A node whose thresholds are fine but whose [position_dim] is
    missing. *)
Lemma interface_construction_failure_kinds_witness :
  MechanismManagerInterface.MechanismManagerInterface_new
    (fun _ => Ok tt)
    (Some (MechanismManagerInterface.mkNode None (Some (Fin 1)) (Some (Fin 2))))
  = Fail Exception.
Proof.
  apply (proj1 (proj2 (interface_construction_failure_kinds
                         (fun _ => Ok tt)
                         (Some (MechanismManagerInterface.mkNode
                                  None (Some (Fin 1)) (Some (Fin 2))))))
               (MechanismManagerInterface.mkNode None (Some (Fin 1)) (Some (Fin 2)))).
  - reflexivity.
  - left. reflexivity.
Defined.

(** * Text files *)

Section ReadingLoops.
Import TxtFile.
Variable v : list double.
Variable c : nat.

(** Row [i] of the matrix: [c] values of [v] from position [i * c] on. *)
Definition chunk (i : nat) : VectorXd := take c (drop (i * c) v).

Lemma length_chunk (i : nat) : (i * c + c <= length v)%nat -> length (chunk i) = c.
Proof. intros Hi. unfold chunk. rewrite length_take, length_drop. lia. Qed.

Lemma assign_row (i : nat) (m : list VectorXd) (old : VectorXd) :
  m !! i = Some old -> length old = c -> (i * c + c <= length v)%nat ->
  for_loop (assign_coefficient v c i) 0 c m = Ok (<[i := chunk i]> m).
Proof.
  intros Hold Hlen Hv.
  assert (Him : (i < length m)%nat) by (eapply lookup_lt_Some; eauto).
  pose proof (length_chunk i Hv) as Hc.
  set (F := fun j => <[i := splice (fun x : double => x) j (chunk i) old]> m).
  assert (H0 : F 0%nat = m).
  { unfold F. rewrite splice_0. apply list_insert_id. exact Hold. }
  assert (Hn : F c = <[i := chunk i]> m).
  { unfold F. rewrite <- Hc at 1. rewrite splice_all by lia.
    rewrite list_fmap_id. reflexivity. }
  rewrite <- H0 at 1. rewrite <- Hn.
  apply (for_loop_closed F). intros j Hj.
  destruct (lookup_lt_is_Some_2 v (i * c + j)) as [x Hx]; [lia |].
  assert (Hcx : chunk i !! j = Some x).
  { unfold chunk. rewrite lookup_take_lt by lia. rewrite lookup_drop. exact Hx. }
  unfold assign_coefficient.
  rewrite (vget_lookup _ _ _ Hx). simpl.
  rewrite (vget_lookup _ _ (splice (fun x : double => x) j (chunk i) old))
    by (unfold F; apply list_lookup_insert_eq; exact Him).
  simpl.
  pose proof (vset_splice (fun x : double => x) j (chunk i) old x) as Hset. simpl in Hset.
  rewrite Hset by (auto; lia). simpl.
  rewrite vset_in_range by (unfold F; rewrite length_insert; exact Him).
  unfold F. rewrite list_insert_insert_eq. reflexivity.
Qed.

Lemma assign_rows (r : nat) :
  (r * c <= length v)%nat ->
  for_loop (fun i m => for_loop (assign_coefficient v c i) 0 c m)
           0 r (replicate r (fill c (Fin 0)))
  = Ok (chunk <$> seq 0 r).
Proof.
  intros Hv.
  set (rows0 := replicate r (fill c (Fin 0))).
  assert (Hl0 : length rows0 = length (seq 0 r))
    by (unfold rows0; rewrite length_replicate, length_seq; reflexivity).
  set (G := fun k => splice chunk k (seq 0 r) rows0).
  assert (Hn : G r = chunk <$> seq 0 r).
  { unfold G. rewrite <- (length_seq r 0) at 1. apply splice_all. exact Hl0. }
  rewrite <- Hn.
  apply (for_loop_closed G). intros k Hk.
  assert (Hold : G k !! k = Some (fill c (Fin 0))).
  { unfold G. rewrite lookup_splice_old by (auto; lia).
    apply lookup_replicate_2. exact Hk. }
  rewrite (assign_row k (G k) (fill c (Fin 0)) Hold).
  - f_equal. unfold G. apply insert_splice; [exact Hl0 |].
    rewrite lookup_seq_lt by exact Hk. reflexivity.
  - unfold fill. apply length_replicate.
  - nia.
Qed.

End ReadingLoops.

Section ReadingFacts.
Import TxtFile.
Variable d0 : double.

(** X27.  The matrix version of [ReadTxtFile] never indexes outside the
    values it read, but it divides by the number of lines without testing
    it: a file that cannot be opened, like a file without any line, ends
    in an integer division by zero.  With [r >= 1] lines and [t] values
    pushed in all, it returns the [r] x [t / r] matrix filled row after
    row with the first [r * (t / r)] values, so that the values of a line
    longer than the others spill over into the next row. *)
Theorem ReadTxtFile_matrix_outcome (input : text_file) :
  let lines := default [] input in
  let v := read_lines d0 lines in
  let r := length lines in
  ReadTxtFile_matrix d0 input =
  if Nat.eqb r 0 then ReadDivisionByZero
  else ReadDone (Ok (mkMatrix (chunk v (length v / r) <$> seq 0 r) (length v / r))).
Proof.
  intros lines v r. unfold ReadTxtFile_matrix. fold lines. fold v. fold r.
  destruct (Nat.eqb_spec r 0) as [Hz | Hz]; [reflexivity |].
  rewrite assign_rows; [reflexivity |].
  apply Nat.Div0.mul_div_le.
Qed.

Lemma chunks_of_concat (c : nat) (ls : list (list double)) :
  (forall l, l ∈ ls -> length l = c) ->
  chunk (concat ls) c <$> seq 0 (length ls) = ls.
Proof.
  intros Hlen. induction ls as [| l ls IH]; [reflexivity |].
  assert (Hl : length l = c) by (apply Hlen; left).
  simpl length. rewrite <- cons_seq, fmap_cons, <- fmap_S_seq, <- list_fmap_compose.
  f_equal.
  - unfold chunk. simpl. apply take_app_length'. symmetry. exact Hl.
  - transitivity (chunk (concat ls) c <$> seq 0 (length ls));
      [| apply IH; intros l' Hl'; apply Hlen; right; exact Hl'].
    apply list_fmap_ext. intros i k _. unfold chunk. simpl.
    f_equal. replace (c + k * c)%nat with (length l + k * c)%nat by lia.
    apply drop_app_add.
Qed.

Lemma length_concat_uniform (c : nat) (ls : list (list double)) :
  (forall l, l ∈ ls -> length l = c) -> length (concat ls) = (length ls * c)%nat.
Proof.
  intros Hlen. induction ls as [| l ls IH]; [reflexivity |].
  simpl. rewrite length_app, IH, (Hlen l) by (try left; intros l' Hl'; apply Hlen; right; exact Hl').
  reflexivity.
Qed.

(** What a line pushes when it holds at least one number, whatever [d]
    held before. *)
Definition line_values (l : text_line) : list double :=
  numbers l ++ (if trailing_blank l then [List.last (numbers l) (Fin 0)] else []).

Lemma last_nonempty (l : list double) (d d' : double) :
  l <> [] -> List.last l d = List.last l d'.
Proof.
  induction l as [| x l IH]; [contradiction |]. intros _.
  destruct l as [| y l]; [reflexivity |].
  change (List.last (y :: l) d = List.last (y :: l) d'). apply IH. discriminate.
Qed.

Lemma read_lines_nonempty (d : double) (lines : list text_line) :
  (forall l, l ∈ lines -> numbers l <> []) ->
  read_lines d lines = concat (line_values <$> lines).
Proof.
  revert d. induction lines as [| l lines IH]; intros d Hne; [reflexivity |].
  assert (Hl : numbers l <> []) by (apply Hne; left).
  simpl. rewrite IH by (intros l' Hl'; apply Hne; right; exact Hl').
  f_equal. unfold line_values.
  destruct (numbers l) as [| x ns] eqn:Hn; [contradiction |].
  simpl length. simpl Nat.eqb. rewrite orb_false_r.
  rewrite (last_nonempty (x :: ns) d (Fin 0)) by discriminate. reflexivity.
Qed.

Lemma ReadTxtFile_matrix_uniform (c : nat) (lines : list text_line) :
  lines <> [] ->
  (forall l, l ∈ lines -> numbers l <> [] /\ length (line_values l) = c) ->
  ReadTxtFile_matrix d0 (Some lines)
  = ReadDone (Ok (mkMatrix (line_values <$> lines) c)).
Proof.
  intros Hne Hlines.
  assert (Hr : length lines <> 0%nat) by (destruct lines; [contradiction | discriminate]).
  assert (Hlen : forall l, l ∈ line_values <$> lines -> length l = c).
  { intros l Hl. apply list_elem_of_fmap in Hl as (l' & -> & Hl'). apply Hlines. exact Hl'. }
  assert (Hcols : (length (read_lines d0 lines) / length lines)%nat = c).
  { rewrite read_lines_nonempty by (intros l Hl; apply Hlines; exact Hl).
    rewrite (length_concat_uniform c _ Hlen), length_fmap.
    rewrite (Nat.mul_comm (length lines) c). apply Nat.div_mul. exact Hr. }
  unfold ReadTxtFile_matrix. simpl default. cbv zeta.
  apply Nat.eqb_neq in Hr. rewrite Hr. apply Nat.eqb_neq in Hr.
  rewrite Hcols.
  rewrite assign_rows.
  - simpl. do 3 f_equal.
    rewrite read_lines_nonempty by (intros l Hl; apply Hlines; exact Hl).
    rewrite <- (length_fmap line_values lines).
    apply chunks_of_concat. exact Hlen.
  - rewrite <- Hcols at 1. apply Nat.Div0.mul_div_le.
Qed.

(** X28.  A file of at least one line, whose lines all hold the same
    number [c >= 1] of values and end right after the last one, is read
    by the matrix version of [ReadTxtFile] as the matrix of its values,
    line by line, whatever the uninitialised [d] held. *)
Theorem ReadTxtFile_matrix_of_a_rectangular_file (c : nat) (lines : list text_line) :
  lines <> [] -> (1 <= c)%nat ->
  (forall l, l ∈ lines -> trailing_blank l = false /\ length (numbers l) = c) ->
  ReadTxtFile_matrix d0 (Some lines)
  = ReadDone (Ok (mkMatrix (numbers <$> lines) c)).
Proof.
  intros Hne Hc Hlines.
  assert (Hv : forall l, l ∈ lines -> line_values l = numbers l).
  { intros l Hl. destruct (Hlines l Hl) as [Hb _].
    unfold line_values. rewrite Hb. apply app_nil_r. }
  rewrite (ReadTxtFile_matrix_uniform c lines Hne).
  - do 3 f_equal. apply list_fmap_ext. intros i l Hl. apply Hv.
    eapply list_elem_of_lookup_2. exact Hl.
  - intros l Hl. destruct (Hlines l Hl) as [Hb Hn]. split.
    + intros E. rewrite E in Hn. simpl in Hn. lia.
    + rewrite (Hv l Hl). exact Hn.
Qed.

Section WriteThenRead.
Variable printed : R -> R.

Lemma last_fmap {A B} (f : A -> B) (l : list A) (d : A) :
  List.last (f <$> l) (f d) = f (List.last l d).
Proof.
  induction l as [| x l IH]; [reflexivity |].
  destruct l as [| y l]; [reflexivity |].
  change (List.last (f <$> y :: l) (f d) = f (List.last (y :: l) d)). exact IH.
Qed.

Lemma numerals_of_finite (row : list R) :
  numerals (print printed <$> (Fin <$> row)) = Some (Fin <$> (printed <$> row)).
Proof.
  induction row as [| q row IH]; [reflexivity |].
  rewrite !fmap_cons. cbn [numerals print]. rewrite IH. reflexivity.
Qed.

Lemma numerals_of_not_finite (row : list double) (x : double) :
  x ∈ row -> (forall q, x <> Fin q) -> numerals (print printed <$> row) = None.
Proof.
  induction row as [| y row IH]; intros Hin Hx.
  - apply elem_of_nil in Hin. contradiction.
  - rewrite fmap_cons. apply elem_of_cons in Hin as [<- | Hin].
    + destruct x as [q | | |]; try reflexivity. exfalso. apply (Hx q). reflexivity.
    + destruct y as [q | | |]; try reflexivity.
      cbn [numerals print]. rewrite (IH Hin Hx). reflexivity.
Qed.

Lemma as_text_lines_written (rs : list (list R)) :
  as_text_lines (written_line printed <$> ((fun qs : list R => Fin <$> qs) <$> rs))
  = Some ((fun row => mkLine (Fin <$> (printed <$> row)) true) <$> rs).
Proof.
  induction rs as [| row rs IH]; [reflexivity |].
  rewrite !fmap_cons. cbn [as_text_lines]. rewrite IH.
  unfold as_text_line, written_line. cbn [words blank_at_end].
  rewrite numerals_of_finite. reflexivity.
Qed.

Lemma as_text_lines_not_finite (rows : list (list double)) (row : list double) (x : double) :
  row ∈ rows -> x ∈ row -> (forall q, x <> Fin q) ->
  as_text_lines (written_line printed <$> rows) = None.
Proof.
  induction rows as [| r rows IH]; intros Hrow Hx Hnf.
  - apply elem_of_nil in Hrow. contradiction.
  - rewrite fmap_cons. cbn [as_text_lines].
    apply elem_of_cons in Hrow as [<- | Hrow].
    + unfold as_text_line, written_line. cbn [words].
      rewrite (numerals_of_not_finite row x Hx Hnf). reflexivity.
    + rewrite (IH Hrow Hx Hnf). destruct (as_text_line _); reflexivity.
Qed.

(** X29.  A matrix written by [WriteTxtFile] is never read back as it was
    by the matrix version of [ReadTxtFile].  Every value is written with
    a blank after it, so that the reader pushes the last value of each
    line twice: for a matrix of finite numbers with at least one row and
    one column, the matrix read has one column more than the matrix
    written, and this column repeats the one before it.  And a NaN or an
    infinite value is written as a word that the reader cannot read: for
    a matrix that holds one, the reading loop does not end. *)
Theorem WriteTxtFile_then_ReadTxtFile_adds_a_column :
  (forall (c : nat) (rs : list (list R)),
      rs <> [] -> (1 <= c)%nat ->
      (forall row, row ∈ rs -> length row = c) ->
      ReadTxtFile_matrix_text d0
        (Some (WriteTxtFile_matrix printed (mkMatrix ((fun qs : list R => Fin <$> qs) <$> rs) c)))
      = Some (ReadDone (Ok (mkMatrix
           ((fun row => Fin <$> ((printed <$> row) ++ [List.last (printed <$> row) 0%R]))
              <$> rs)
           (S c))))) /\
  (forall (M : MatrixXd) (row : list double) (x : double),
      matrix_wf M ->
      row ∈ mrows M -> x ∈ row -> (forall q, x <> Fin q) ->
      ReadTxtFile_matrix_text d0 (Some (WriteTxtFile_matrix printed M)) = None).
Proof.
  split.
  - intros c rs Hne Hc Hrows.
    unfold ReadTxtFile_matrix_text, WriteTxtFile_matrix. cbn [mrows].
    rewrite as_text_lines_written. f_equal.
    rewrite (ReadTxtFile_matrix_uniform (S c)).
    + rewrite <- list_fmap_compose. do 3 f_equal.
      apply list_fmap_ext. intros i row Hrow.
      unfold line_values. cbn [compose numbers trailing_blank].
      rewrite fmap_app. f_equal. cbn [fmap list_fmap]. f_equal.
      apply (last_fmap Fin).
    + intros E. apply fmap_nil_inv in E. contradiction.
    + intros l Hl. apply list_elem_of_fmap in Hl as (row & -> & Hrow).
      pose proof (Hrows row Hrow) as Hlen.
      unfold line_values. cbn [numbers trailing_blank]. split.
      * intros E. apply (f_equal length) in E. rewrite !length_fmap in E.
        simpl in E. lia.
      * rewrite length_app, !length_fmap. simpl. lia.
  - intros M row x _ Hrow Hx Hnf.
    unfold ReadTxtFile_matrix_text, WriteTxtFile_matrix.
    rewrite (as_text_lines_not_finite (mrows M) row x Hrow Hx Hnf). reflexivity.
Qed.

End WriteThenRead.

End ReadingFacts.

Section VectorFiles.
Import TxtFile.
Variable printed : R -> R.

(** The cells of a row before its first NaN or infinite cell. *)
Fixpoint finite_prefix (r : list double) : list R :=
  match r with
  | Fin q :: r' => q :: finite_prefix r'
  | _ => []
  end.

Lemma finite_prefix_of_finite (qs : list R) : finite_prefix (Fin <$> qs) = qs.
Proof.
  induction qs as [| q qs IH]; [reflexivity |].
  rewrite fmap_cons. cbn [finite_prefix]. rewrite IH. reflexivity.
Qed.

Lemma leading_numerals_printed (r : list double) :
  leading_numerals (print printed <$> r) = Fin <$> (printed <$> finite_prefix r).
Proof.
  induction r as [| x r IH]; [reflexivity |].
  rewrite fmap_cons. destruct x as [q | | |]; try reflexivity.
  cbn [print leading_numerals finite_prefix]. rewrite IH. reflexivity.
Qed.

Lemma written_cells (r : list double) (n : nat) :
  (n <= length r)%nat ->
  for_loop (fun col cs => x ← vget r col; Ok (cs ++ [x])) 0 n [] = Ok (take n r).
Proof.
  intros Hn.
  apply (for_loop_closed (fun k => take k r)). intros k Hk.
  destruct (lookup_lt_is_Some_2 r k) as [x Hx]; [lia |].
  rewrite (vget_lookup _ _ _ Hx). simpl.
  rewrite (take_S_r _ _ _ Hx). reflexivity.
Qed.

(** X30.  The vector version of [WriteTxtFile] takes the number of
    columns from the first row.  When no row is shorter than the first
    one, it writes one line per row, and the vector version of
    [ReadTxtFile] reads back, for every row, what was printed for the
    cells below that number of columns and before the first NaN or
    infinite cell of the row, without the extra value that the matrix
    reader adds.  Rows of finite numbers are read back whole, cut to the
    length of the first row. *)
Theorem WriteTxtFile_then_ReadTxtFile_vectors
        (values : list (list double)) (first : list double) :
  values !! 0%nat = Some first ->
  (forall r, r ∈ values -> (length first <= length r)%nat) ->
  exists lines,
    WriteTxtFile_vectors printed values = Ok lines /\
    length lines = length values /\
    ReadTxtFile_vectors (Some lines)
    = (fun r => Fin <$> (printed <$> finite_prefix (take (length first) r))) <$> values /\
    (forall rs : list (list R),
        values = (fun qs : list R => Fin <$> qs) <$> rs ->
        ReadTxtFile_vectors (Some lines)
        = (fun r => Fin <$> (printed <$> take (length first) r)) <$> rs).
Proof.
  intros Hfirst Hrows.
  set (f := fun r => written_line printed (take (length first) r)).
  assert (Hread : ReadTxtFile_vectors (Some (f <$> values))
                  = (fun r => Fin <$> (printed <$> finite_prefix (take (length first) r)))
                      <$> values).
  { unfold ReadTxtFile_vectors. rewrite <- list_fmap_compose.
    apply list_fmap_ext. intros i r _. unfold f, written_line.
    cbn [compose words]. apply leading_numerals_printed. }
  exists (f <$> values).
  split; [| split; [| split]].
  - unfold WriteTxtFile_vectors. rewrite (vget_lookup _ _ _ Hfirst). simpl.
    transitivity (Ok (f <$> take (length values) values) : exec (list raw_line));
      [| rewrite firstn_all; reflexivity].
    change (@nil raw_line) with ((fun k => f <$> take k values) 0%nat).
    apply (for_loop_closed (fun k => f <$> take k values)). intros k Hk.
    destruct (lookup_lt_is_Some_2 values k) as [r Hr]; [lia |].
    rewrite (vget_lookup _ _ _ Hr). simpl.
    rewrite written_cells by (apply Hrows; eapply list_elem_of_lookup_2; exact Hr).
    simpl. rewrite (take_S_r _ _ _ Hr), fmap_app. reflexivity.
  - apply length_fmap.
  - exact Hread.
  - intros rs ->. rewrite Hread, <- list_fmap_compose.
    apply list_fmap_ext. intros i r _. cbn [compose].
    rewrite <- fmap_take, finite_prefix_of_finite. reflexivity.
Qed.

End VectorFiles.

Lemma ReadTxtFile_matrix_of_a_rectangular_file_witness :
  TxtFile.ReadTxtFile_matrix NaN
    (Some [TxtFile.mkLine [Fin 1; Fin 2] false; TxtFile.mkLine [Fin 3; Fin 4] false])
  = TxtFile.ReadDone (Ok (mkMatrix [[Fin 1; Fin 2]; [Fin 3; Fin 4]] 2)).
Proof.
  apply (ReadTxtFile_matrix_of_a_rectangular_file NaN 2
           [TxtFile.mkLine [Fin 1; Fin 2] false; TxtFile.mkLine [Fin 3; Fin 4] false]).
  - discriminate.
  - lia.
  - intros l Hl. repeat (apply elem_of_cons in Hl as [-> | Hl]; [split; reflexivity |]).
    apply elem_of_nil in Hl. contradiction.
Defined.

Lemma WriteTxtFile_then_ReadTxtFile_adds_a_column_witness :
  TxtFile.ReadTxtFile_matrix_text NaN
    (Some (TxtFile.WriteTxtFile_matrix (fun x => x)
             (mkMatrix ((fun qs : list R => Fin <$> qs) <$> [[1; 2]; [3; 4]]%R) 2)))
  = Some (TxtFile.ReadDone
            (Ok (mkMatrix
                   ((fun row => Fin <$> (((fun x => x) <$> row)
                                         ++ [List.last ((fun x => x) <$> row) 0%R]))
                      <$> [[1; 2]; [3; 4]]%R)
                   3))).
Proof.
  apply (proj1 (WriteTxtFile_then_ReadTxtFile_adds_a_column NaN (fun x => x))
           2%nat [[1; 2]; [3; 4]]%R).
  - discriminate.
  - lia.
  - intros row Hrow.
    repeat (apply elem_of_cons in Hrow as [-> | Hrow]; [reflexivity |]).
    apply elem_of_nil in Hrow. contradiction.
Defined.

Lemma WriteTxtFile_then_ReadTxtFile_vectors_witness :
  exists lines,
    TxtFile.WriteTxtFile_vectors (fun x => x) [[Fin 1; Fin 2]; [Fin 3; NaN; Fin 5]]
    = Ok lines /\
    length lines = 2%nat /\
    TxtFile.ReadTxtFile_vectors (Some lines)
    = (fun r => Fin <$> ((fun x => x) <$> finite_prefix (take 2 r)))
        <$> [[Fin 1; Fin 2]; [Fin 3; NaN; Fin 5]] /\
    (forall rs : list (list R),
        [[Fin 1; Fin 2]; [Fin 3; NaN; Fin 5]] = (fun qs : list R => Fin <$> qs) <$> rs ->
        TxtFile.ReadTxtFile_vectors (Some lines)
        = (fun r => Fin <$> ((fun x => x) <$> take 2 r)) <$> rs).
Proof.
  apply (WriteTxtFile_then_ReadTxtFile_vectors (fun x => x)
           [[Fin 1; Fin 2]; [Fin 3; NaN; Fin 5]] [Fin 1; Fin 2]).
  - reflexivity.
  - intros r Hr.
    repeat (apply elem_of_cons in Hr as [-> | Hr]; [simpl; lia |]).
    apply elem_of_nil in Hr. contradiction.
Defined.
